(** * Dungeon Deli sandwich puzzle (phase 1.6): the puzzle engine

    A shallow embedding of [DD-sandwich-puzzle-phase1_6.js]: the recipe
    catalogue, the grid and its tiles, the move primitive, the shuffle, the
    outcome evaluation and the cross-scene [GameState].

    Conventions of the embedding.
    - JS numbers that hold counters, ids and stats are [Z]; array indices and
      grid coordinates, which the program only produces from loop counters,
      are [nat].
    - A JS array of numbers is a [list (option Z)]: [None] is a slot without a
      number (a hole left by a write past the end; a read past the end gives
      the same [None], JS [undefined]).
    - A function returns [option]: [None] stands for a JS [TypeError] (an
      index into a missing row, a property of [null]); what the state is
      after the throw is not modelled.
    - Phaser tweens and timers are not modelled in time: the end values of a
      tween are written when the tween is started, and its [onComplete]
      callback is a function of its own, run right after.
    - [Math.random] is an oracle handed to the functions that draw. *)

From Stdlib Require Import ZArith QArith Lia.
From stdpp Require Import base decidable option list strings gmultiset.

Local Open Scope nat_scope.

(** ** JS arrays with holes *)

Abbreviation jsarray := (list (option Z)).

(** [a[i]]: [None] is [undefined]. *)
Definition js_read (a : jsarray) (i : nat) : option Z := mjoin (a !! i).

(** [a[i] = v]: in range the slot is replaced, past the end the array grows
    and the slots in between stay holes. *)
Definition js_write (a : jsarray) (i : nat) (v : option Z) : jsarray :=
  if decide (i < length a) then <[i := v]> a
  else a ++ replicate (i - length a) None ++ [v].

(** [g[r][c]]: the outer [None] is the [TypeError] of a missing row. *)
Definition grid_read (g : list jsarray) (r c : nat) : option (option Z) :=
  row ← g !! r; Some (js_read row c).

(** [g[r][c] = v]. *)
Definition grid_write (g : list jsarray) (r c : nat) (v : option Z)
  : option (list jsarray) :=
  row ← g !! r; Some (<[r := js_write row c v]> g).

(** [g.flat()]: one level, holes skipped. *)
Definition flat (g : list jsarray) : list Z := omap id (concat g).

(** [for (let i = 0; i < n; i++) body], in the error monad. *)
Definition for_loop {S : Type} (n : nat) (body : nat → S → option S) (s : S)
  : option S :=
  foldl (λ acc i, acc ≫= body i) (Some s) (seq 0 n).

(** [Math.floor(Math.random() * len)] for [len > 0]: an index below [len];
    [r] is the oracle's draw. *)
Definition random_index (r len : nat) : nat := r `mod` len.

(** ** Recipes *)

(** A recipe object, without its [description] (display only). *)
Record Recipe := {
  recipe_id : string;
  name : string;
  sequence : list Z;
  buff : list (string * Z);     (* keys in the order of [Object.keys] *)
  difficulty : option string;
  gridSize : option nat;
  optimalMoves : option Z;
  maxMoves : option Z
}.

Definition classic_stack : Recipe :=
  {| recipe_id := "classic_stack"; name := "Classic Stack";
     sequence := [1; 2; 3; 4; 5; 6; 7; 8]%Z;
     buff := [("health", 20); ("defense", 5)]%Z;
     difficulty := Some "Medium"; gridSize := Some 3;
     optimalMoves := Some 30%Z; maxMoves := Some 60%Z |}.

Definition leafy_stack : Recipe :=
  {| recipe_id := "leafy_stack"; name := "Leafy Stack";
     sequence := [1; 2; 3; 8]%Z;
     buff := [("defense", 10); ("stamina", 15)]%Z;
     difficulty := Some "Easy"; gridSize := Some 3;
     optimalMoves := Some 15%Z; maxMoves := Some 40%Z |}.

Definition cheesy_beast : Recipe :=
  {| recipe_id := "cheesy_beast"; name := "Cheesy Beast";
     sequence := [1; 4; 5; 8]%Z;
     buff := [("attack", 15); ("health", 10)]%Z;
     difficulty := Some "Easy"; gridSize := Some 3;
     optimalMoves := Some 15%Z; maxMoves := Some 40%Z |}.

Definition protein_power : Recipe :=
  {| recipe_id := "protein_power"; name := "Protein Power";
     sequence := [1; 5; 4; 8]%Z;
     buff := [("attack", 20); ("defense", 5)]%Z;
     difficulty := Some "Easy"; gridSize := Some 3;
     optimalMoves := Some 15%Z; maxMoves := Some 40%Z |}.

Definition garden_delight : Recipe :=
  {| recipe_id := "garden_delight"; name := "Garden Delight";
     sequence := [1; 2; 6; 7; 8]%Z;
     buff := [("health", 15); ("stamina", 20)]%Z;
     difficulty := Some "Medium"; gridSize := Some 3;
     optimalMoves := Some 20%Z; maxMoves := Some 50%Z |}.

Definition deluxe_combo : Recipe :=
  {| recipe_id := "deluxe_combo"; name := "Deluxe Combo";
     sequence := [1; 2; 3; 4; 5; 6; 7; 8]%Z;
     buff := [("health", 30); ("attack", 10); ("defense", 10); ("stamina", 15)]%Z;
     difficulty := Some "Hard"; gridSize := Some 3;
     optimalMoves := Some 35%Z; maxMoves := Some 70%Z |}.

Definition RECIPES : list Recipe :=
  [classic_stack; leafy_stack; cheesy_beast; protein_power; garden_delight;
   deluxe_combo].

(** ** GAME_CONFIG (the fields the engine reads) *)

Record Config := {
  GRID_SIZE : nat;
  RECIPE_MODE : bool;
  DEFAULT_RECIPE_ID : string;
  OPTIMAL_MOVES : Z;
  MAX_MOVES : Z;
  DIFFICULTY : string;
  SHUFFLE_MOVE_COUNT : nat;
  ENABLE_HYBRID_SHUFFLE : bool;
  HYBRID_SHUFFLE_COUNT : nat
}.

Definition GAME_CONFIG : Config := {|
  GRID_SIZE := 3; RECIPE_MODE := true; DEFAULT_RECIPE_ID := "leafy_stack";
  OPTIMAL_MOVES := 20; MAX_MOVES := 50; DIFFICULTY := "Normal";
  SHUFFLE_MOVE_COUNT := 20; ENABLE_HYBRID_SHUFFLE := true;
  HYBRID_SHUFFLE_COUNT := 6
|}.

Definition TILE_SIZE : Z := 120.
Definition TILE_SPACING : Z := 10.
Definition GRID_OFFSET_X : Z := 45.
Definition GRID_OFFSET_Y : Z := 180.

(** ** GameState, shared across scenes

    The fields the puzzle scene reads or writes; [floor], [gold],
    [inventory] and [debugMode] are written nowhere in this file. *)

Inductive Result := win | fail.

Record PetStats := {
  hp : Z; maxHp : Z; hunger : Z; attack : Z; defense : Z; stamina : Z
}.

Record GameStateT := {
  currentRecipe : option Recipe;
  lastResult : option Result;
  completedRecipes : list string;
  petStats : PetStats;
  totalMoves : Z;
  puzzlesCompleted : Z;
  puzzlesFailed : Z
}.

Definition GameState : GameStateT := {|
  currentRecipe := None; lastResult := None; completedRecipes := [];
  petStats := {| hp := 100; maxHp := 100; hunger := 100; attack := 10;
                 defense := 10; stamina := 100 |};
  totalMoves := 0; puzzlesCompleted := 0; puzzlesFailed := 0
|}.

(** ** The scene's own state *)

(** A tile object: its id, its logical cell, and the render coordinates of its
    container. *)
Record Tile := {
  tile_id : Z;
  currentRow : nat;
  currentCol : nat;
  container : Z * Z
}.

Record Puzzle := {
  tiles : list Tile;
  gridData : list jsarray;
  emptyPos : nat * nat;          (* (row, col) *)
  moveCount : Z;
  isAnimating : bool;
  isShuffling : bool;
  isWon : bool;
  hasFailed : bool
}.

Record World := {
  cfg : Config;
  gs : GameStateT;
  pz : Puzzle
}.

Definition initialPuzzle : Puzzle := {|
  tiles := []; gridData := []; emptyPos := (2, 2); moveCount := 0;
  isAnimating := false; isShuffling := false; isWon := false;
  hasFailed := false
|}.

Definition initialWorld : World :=
  {| cfg := GAME_CONFIG; gs := GameState; pz := initialPuzzle |}.

(** Field updates. *)
Definition set_tiles (v : list Tile) (p : Puzzle) : Puzzle :=
  {| tiles := v; gridData := gridData p; emptyPos := emptyPos p;
     moveCount := moveCount p; isAnimating := isAnimating p;
     isShuffling := isShuffling p; isWon := isWon p; hasFailed := hasFailed p |}.
Definition set_gridData (v : list jsarray) (p : Puzzle) : Puzzle :=
  {| tiles := tiles p; gridData := v; emptyPos := emptyPos p;
     moveCount := moveCount p; isAnimating := isAnimating p;
     isShuffling := isShuffling p; isWon := isWon p; hasFailed := hasFailed p |}.
Definition set_emptyPos (v : nat * nat) (p : Puzzle) : Puzzle :=
  {| tiles := tiles p; gridData := gridData p; emptyPos := v;
     moveCount := moveCount p; isAnimating := isAnimating p;
     isShuffling := isShuffling p; isWon := isWon p; hasFailed := hasFailed p |}.
Definition set_moveCount (v : Z) (p : Puzzle) : Puzzle :=
  {| tiles := tiles p; gridData := gridData p; emptyPos := emptyPos p;
     moveCount := v; isAnimating := isAnimating p;
     isShuffling := isShuffling p; isWon := isWon p; hasFailed := hasFailed p |}.
Definition set_isAnimating (v : bool) (p : Puzzle) : Puzzle :=
  {| tiles := tiles p; gridData := gridData p; emptyPos := emptyPos p;
     moveCount := moveCount p; isAnimating := v;
     isShuffling := isShuffling p; isWon := isWon p; hasFailed := hasFailed p |}.
Definition set_isShuffling (v : bool) (p : Puzzle) : Puzzle :=
  {| tiles := tiles p; gridData := gridData p; emptyPos := emptyPos p;
     moveCount := moveCount p; isAnimating := isAnimating p;
     isShuffling := v; isWon := isWon p; hasFailed := hasFailed p |}.
Definition set_isWon (v : bool) (p : Puzzle) : Puzzle :=
  {| tiles := tiles p; gridData := gridData p; emptyPos := emptyPos p;
     moveCount := moveCount p; isAnimating := isAnimating p;
     isShuffling := isShuffling p; isWon := v; hasFailed := hasFailed p |}.
Definition set_hasFailed (v : bool) (p : Puzzle) : Puzzle :=
  {| tiles := tiles p; gridData := gridData p; emptyPos := emptyPos p;
     moveCount := moveCount p; isAnimating := isAnimating p;
     isShuffling := isShuffling p; isWon := isWon p; hasFailed := v |}.

Definition set_currentRecipe (v : option Recipe) (g : GameStateT) : GameStateT :=
  {| currentRecipe := v; lastResult := lastResult g;
     completedRecipes := completedRecipes g; petStats := petStats g;
     totalMoves := totalMoves g; puzzlesCompleted := puzzlesCompleted g;
     puzzlesFailed := puzzlesFailed g |}.

Definition with_pz (f : Puzzle → Puzzle) (w : World) : World :=
  {| cfg := cfg w; gs := gs w; pz := f (pz w) |}.
Definition with_gs (f : GameStateT → GameStateT) (w : World) : World :=
  {| cfg := cfg w; gs := f (gs w); pz := pz w |}.
Definition with_cfg (f : Config → Config) (w : World) : World :=
  {| cfg := f (cfg w); gs := gs w; pz := pz w |}.

(** ** RecipeSystem *)

Module RecipeSystem.

Definition getRecipeById (recipeId : string) : option Recipe :=
  List.find (λ r, bool_decide (recipe_id r = recipeId)) RECIPES.

Definition getAllRecipes : list Recipe := RECIPES.

(** [x || d] on an optional number: a missing field and 0 are falsy. *)
Definition or_default_nat (x : option nat) (d : nat) : nat :=
  match x with Some (S n) => S n | _ => d end.
Definition or_default_Z (x : option Z) (d : Z) : Z :=
  match x with Some 0%Z | None => d | Some v => v end.
Definition or_default_string (x : option string) (d : string) : string :=
  match x with Some EmptyString | None => d | Some v => v end.

Definition applyRecipeConfig (recipe : option Recipe) (c : Config) : Config :=
  match recipe with
  | None => c
  | Some r =>
      {| GRID_SIZE := or_default_nat (gridSize r) 3;
         RECIPE_MODE := RECIPE_MODE c;
         DEFAULT_RECIPE_ID := DEFAULT_RECIPE_ID c;
         OPTIMAL_MOVES := or_default_Z (optimalMoves r) 20;
         MAX_MOVES := or_default_Z (maxMoves r) 50;
         DIFFICULTY := or_default_string (difficulty r) "Normal";
         SHUFFLE_MOVE_COUNT := SHUFFLE_MOVE_COUNT c;
         ENABLE_HYBRID_SHUFFLE := ENABLE_HYBRID_SHUFFLE c;
         HYBRID_SHUFFLE_COUNT := HYBRID_SHUFFLE_COUNT c |}
  end.

Definition validateRecipe (recipe : option Recipe) : bool :=
  match recipe with
  | None => false
  | Some r =>
      if bool_decide (recipe_id r = EmptyString)
         || bool_decide (name r = EmptyString) then false
      else if bool_decide (sequence r = []) then false
      else true
  end.

End RecipeSystem.

(** ** Event hooks *)

Inductive Rating := Stars3 | Stars2 | Stars1 | Skull.

(** [petStats[stat]]: [None] is [undefined]. The object has exactly these
    keys and none is ever added; the names it inherits from
    [Object.prototype] ([constructor], [toString], ...) are not modelled, no
    recipe names a buff after one. *)
Definition pet_get (stat : string) (p : PetStats) : option Z :=
  if bool_decide (stat = "hp") then Some (hp p)
  else if bool_decide (stat = "maxHp") then Some (maxHp p)
  else if bool_decide (stat = "hunger") then Some (hunger p)
  else if bool_decide (stat = "attack") then Some (attack p)
  else if bool_decide (stat = "defense") then Some (defense p)
  else if bool_decide (stat = "stamina") then Some (stamina p)
  else None.

Definition set_hp (v : Z) (p : PetStats) : PetStats :=
  {| hp := v; maxHp := maxHp p; hunger := hunger p; attack := attack p;
     defense := defense p; stamina := stamina p |}.

(** [petStats[stat] = v] for a key that exists. *)
Definition pet_set (stat : string) (v : Z) (p : PetStats) : PetStats :=
  if bool_decide (stat = "hp") then set_hp v p
  else if bool_decide (stat = "maxHp") then
    {| hp := hp p; maxHp := v; hunger := hunger p; attack := attack p;
       defense := defense p; stamina := stamina p |}
  else if bool_decide (stat = "hunger") then
    {| hp := hp p; maxHp := maxHp p; hunger := v; attack := attack p;
       defense := defense p; stamina := stamina p |}
  else if bool_decide (stat = "attack") then
    {| hp := hp p; maxHp := maxHp p; hunger := hunger p; attack := v;
       defense := defense p; stamina := stamina p |}
  else if bool_decide (stat = "defense") then
    {| hp := hp p; maxHp := maxHp p; hunger := hunger p; attack := attack p;
       defense := v; stamina := stamina p |}
  else if bool_decide (stat = "stamina") then
    {| hp := hp p; maxHp := maxHp p; hunger := hunger p; attack := attack p;
       defense := defense p; stamina := v |}
  else p.

(** The body of [Object.keys(recipe.buff).forEach(stat => ...)]. *)
Definition applyBuff (p : PetStats) (kv : string * Z) : PetStats :=
  let '(stat, delta) := kv in
  match pet_get stat p with
  | Some cur =>
      let p1 := pet_set stat (cur + delta)%Z p in
      if bool_decide (stat = "hp") || bool_decide (stat = "health")
      then set_hp (Z.min (hp p1) (maxHp p1)) p1
      else p1
  | None => p
  end.

Definition onPuzzleComplete (recipe : Recipe) (moves : Z) (rating : Rating)
    (g : GameStateT) : GameStateT :=
  {| lastResult := Some win;
     currentRecipe := Some recipe;
     puzzlesCompleted := (puzzlesCompleted g + 1)%Z;
     totalMoves := (totalMoves g + moves)%Z;
     completedRecipes :=
       if bool_decide (recipe_id recipe ∈ completedRecipes g)
       then completedRecipes g
       else completedRecipes g ++ [recipe_id recipe];
     petStats := foldl applyBuff (petStats g) (buff recipe);
     puzzlesFailed := puzzlesFailed g |}.

Definition onPuzzleFail (g : GameStateT) : GameStateT :=
  {| lastResult := Some fail;
     puzzlesFailed := (puzzlesFailed g + 1)%Z;
     petStats := set_hp (Z.max 0 (hp (petStats g) - 10)) (petStats g);
     currentRecipe := currentRecipe g;
     completedRecipes := completedRecipes g;
     totalMoves := totalMoves g;
     puzzlesCompleted := puzzlesCompleted g |}.

(** ** Win and fail handling *)

(** The numbers of the game are IEEE 754 doubles that hold integers. On
    these [+], [-], the comparisons and [* 2] are exact; [* 1.5] is not: the
    exact product [3 * x / 2] is rounded to 53 significant bits, ties to
    even. [round53 n] is the integer nearest to [n] that has at most 53
    significant bits, so the double nearest to [n / 2] is [round53 n / 2]
    (the range of the exponent is not modelled). *)
Definition round53 (n : Z) : Z :=
  let m := Z.abs n in
  let s := (Z.log2 m - 52)%Z in
  if (s <=? 0)%Z then n
  else
    let q := (m / 2 ^ s)%Z in
    let r := (m mod 2 ^ s)%Z in
    let half := (2 ^ (s - 1))%Z in
    let q' := if (half <? r)%Z || ((r =? half)%Z && Z.odd q)
              then (q + 1)%Z else q in
    (Z.sgn n * (q' * 2 ^ s))%Z.

(** [x * 1.5] in doubles, for an integer [x]. *)
Definition times_1_5 (x : Z) : Q := round53 (3 * x) # 2.

Definition calculateRating (w : World) : Rating :=
  let optimal := OPTIMAL_MOVES (cfg w) in
  let moves := inject_Z (moveCount (pz w)) in
  if Qle_bool moves (inject_Z optimal) then Stars3
  else if Qle_bool moves (times_1_5 optimal) then Stars2
  else if Qle_bool moves (inject_Z optimal * 2) then Stars1
  else Skull.

(** [onPuzzleSolved]: with no current recipe, [onPuzzleComplete(null, ...)]
    reads [recipe.id] and throws. *)
Definition onPuzzleSolved (w : World) : option World :=
  let w1 := with_pz (set_isWon true) w in
  let rating := calculateRating w1 in
  recipe ← currentRecipe (gs w1);
  Some (with_gs (onPuzzleComplete recipe (moveCount (pz w1)) rating) w1).

(** [triggerFailState]; the reset it schedules after [FAIL_DISPLAY_DURATION]
    is [resetPuzzle], a later step. *)
Definition triggerFailState (w : World) : World :=
  with_gs onPuzzleFail (with_pz (set_hasFailed true) w).

(** ** GridManager *)

Definition tileX (col : nat) : Z :=
  (GRID_OFFSET_X + Z.of_nat col * (TILE_SIZE + TILE_SPACING) + TILE_SIZE / 2)%Z.
Definition tileY (row : nat) : Z :=
  (GRID_OFFSET_Y + Z.of_nat row * (TILE_SIZE + TILE_SPACING) + TILE_SIZE / 2)%Z.

Definition move_container (xy : Z * Z) (t : Tile) : Tile :=
  {| tile_id := tile_id t; currentRow := currentRow t;
     currentCol := currentCol t; container := xy |}.

(** The inner loop of the empty-cell search,
    [for (col = gridSize - 1; col >= 0; col--) if (row[col] === 0) { emptyPos = {row, col}; break; }]:
    [k] columns are still to visit. *)
Fixpoint scan_empty_cols (rowArr : jsarray) (row k : nat) (ep : nat * nat)
  : nat * nat :=
  match k with
  | 0 => ep
  | S col => if bool_decide (js_read rowArr col = Some 0%Z) then (row, col)
             else scan_empty_cols rowArr row col ep
  end.

(** The outer loop, [for (row = gridSize - 1; row >= 0; row--)]: the [break]
    above leaves the inner loop only, the rows above are still visited. *)
Fixpoint scan_empty_rows (g : list jsarray) (gridSize k : nat) (ep : nat * nat)
  : option (nat * nat) :=
  match k with
  | 0 => Some ep
  | S row => rowArr ← g !! row;
             scan_empty_rows g gridSize row (scan_empty_cols rowArr row gridSize ep)
  end.

Definition findEmptyPosition (g : list jsarray) (gridSize : nat) (ep : nat * nat)
  : option (nat * nat) :=
  scan_empty_rows g gridSize gridSize ep.

Module GridManager.

Definition createTile (row col : nat) (value : Z) (ts : list Tile) : list Tile :=
  ts ++ [{| tile_id := value; currentRow := row; currentCol := col;
            container := (tileX col, tileY row) |}].

(** One cell of the recipe layout; the state is the row being filled, the
    tiles and [sequenceIndex]. [sequenceIndex] is [cellIndex] whenever it
    is read, so the value written is a number; a cell that is [undefined]
    would make [createTile] throw on [value.toString()]. *)
Definition createGrid_recipe_cell (recipeSequence : list Z)
    (gridSize row col : nat) (st : jsarray * list Tile * nat)
  : option (jsarray * list Tile * nat) :=
  let '(rowArr, ts, sequenceIndex) := st in
  let cellIndex := row * gridSize + col in
  let '(rowArr1, sequenceIndex1) :=
    if decide (cellIndex < length recipeSequence)
    then (js_write rowArr col (recipeSequence !! sequenceIndex), S sequenceIndex)
    else (js_write rowArr col (Some 0%Z), sequenceIndex) in
  match js_read rowArr1 col with
  | Some 0%Z => Some (rowArr1, ts, sequenceIndex1)
  | Some value => Some (rowArr1, createTile row col value ts, sequenceIndex1)
  | None => None
  end.

(** One row: [gridData[row] = []] appends the row, [row] being
    [gridData.length]. *)
Definition createGrid_recipe_row (recipeSequence : list Z) (gridSize row : nat)
    (st : list jsarray * list Tile * nat)
  : option (list jsarray * list Tile * nat) :=
  let '(g, ts, sequenceIndex) := st in
  '(rowArr, ts1, sequenceIndex1) ←
    for_loop gridSize (createGrid_recipe_cell recipeSequence gridSize row)
             ([], ts, sequenceIndex);
  Some (g ++ [rowArr], ts1, sequenceIndex1).

Definition createGrid_legacy_cell (gridSize row col : nat)
    (st : jsarray * list Tile) : option (jsarray * list Tile) :=
  let '(rowArr, ts) := st in
  let tileValue := Z.of_nat (row * gridSize + col + 1) in
  let maxTiles := Z.of_nat (gridSize * gridSize) in
  let v := if bool_decide (tileValue ≤ maxTiles - 1)%Z then tileValue else 0%Z in
  let rowArr1 := js_write rowArr col (Some v) in
  match js_read rowArr1 col with
  | Some 0%Z => Some (rowArr1, ts)
  | Some value => Some (rowArr1, createTile row col value ts)
  | None => None
  end.

Definition createGrid_legacy_row (gridSize row : nat)
    (st : list jsarray * list Tile) : option (list jsarray * list Tile) :=
  let '(g, ts) := st in
  '(rowArr, ts1) ←
    for_loop gridSize (createGrid_legacy_cell gridSize row) ([], ts);
  Some (g ++ [rowArr], ts1).

(** The recipe branch of [createGrid]: the layout, the tiles and the empty
    position; [ep] is [emptyPos] as it was before the call. *)
Definition createGrid_recipe (recipeSequence : list Z) (gridSize : nat)
    (ep : nat * nat) : option (list jsarray * list Tile * (nat * nat)) :=
  '(g, ts, _) ←
    for_loop gridSize (createGrid_recipe_row recipeSequence gridSize)
             ([], [], 0);
  ep1 ← findEmptyPosition g gridSize ep;
  Some (g, ts, ep1).

Definition createGrid_legacy (gridSize : nat)
  : option (list jsarray * list Tile * (nat * nat)) :=
  '(g, ts) ← for_loop gridSize (createGrid_legacy_row gridSize) ([], []);
  Some (g, ts, (gridSize - 1, gridSize - 1)).

Definition createGrid (gridSize : nat) (w : World) : option World :=
  '(g, ts, ep) ←
    match RECIPE_MODE (cfg w), currentRecipe (gs w) with
    | true, Some recipe =>
        createGrid_recipe (sequence recipe) gridSize (emptyPos (pz w))
    | _, _ => createGrid_legacy gridSize
    end;
  Some (with_pz (λ p,
    {| tiles := ts; gridData := g; emptyPos := ep; moveCount := 0;
       isAnimating := isAnimating p; isShuffling := isShuffling p;
       isWon := false; hasFailed := false |}) w).

Definition canTileMove (tile : Tile) (p : Puzzle) : bool :=
  let rowDiff := Z.abs (Z.of_nat (currentRow tile) - Z.of_nat (emptyPos p).1) in
  let colDiff := Z.abs (Z.of_nat (currentCol tile) - Z.of_nat (emptyPos p).2) in
  (bool_decide (rowDiff = 1%Z) && bool_decide (colDiff = 0%Z))
  || (bool_decide (rowDiff = 0%Z) && bool_decide (colDiff = 1%Z)).

(** [checkWinCondition]: [flatGrid[index] === targetId] for every entry of
    the recipe's sequence. *)
Definition recipe_solved (g : list jsarray) (targetSequence : list Z) : bool :=
  let flatGrid := flat g in
  forallb (λ b : bool, b)
    (imap (λ index targetId, bool_decide (flatGrid !! index = Some targetId))
          targetSequence).

(** Legacy mode: the cells in row-major order, left at the first mismatch. *)
Fixpoint legacy_scan (g : list jsarray) (gridSize : nat)
    (cells : list (nat * nat)) : option bool :=
  match cells with
  | [] => Some true
  | (row, col) :: rest =>
      actualValue ← grid_read g row col;
      let expectedValue := Z.of_nat (row * gridSize + col + 1) in
      let ok :=
        if bool_decide (row = gridSize - 1) && bool_decide (col = gridSize - 1)
        then bool_decide (actualValue = Some 0%Z)
        else bool_decide (actualValue = Some expectedValue) in
      if ok then legacy_scan g gridSize rest else Some false
  end.

Definition legacy_solved (g : list jsarray) (gridSize : nat) : option bool :=
  legacy_scan g gridSize
    (row ← seq 0 gridSize; col ← seq 0 gridSize; [(row, col)]).

Definition checkWinCondition (w : World) : option World :=
  match RECIPE_MODE (cfg w), currentRecipe (gs w) with
  | true, Some recipe =>
      if recipe_solved (gridData (pz w)) (sequence recipe)
      then onPuzzleSolved w else Some w
  | _, _ =>
      legacy_solved (gridData (pz w)) (GRID_SIZE (cfg w)) ≫=
        λ solved : bool, if solved then onPuzzleSolved w else Some w
  end.

(** [moveTile], the part that runs at the call: the two grid writes, the
    tile's new cell, the new empty position, and the tween of the container
    to the old empty cell. [i] is the tile's place in [tiles]. *)
Definition moveTile_apply (i : nat) (w : World) : option World :=
  let p := pz w in
  tile ← tiles p !! i;
  let targetX := tileX (emptyPos p).2 in
  let targetY := tileY (emptyPos p).1 in
  g1 ← grid_write (gridData p) (currentRow tile) (currentCol tile) (Some 0%Z);
  g2 ← grid_write g1 (emptyPos p).1 (emptyPos p).2 (Some (tile_id tile));
  let oldRow := currentRow tile in
  let oldCol := currentCol tile in
  let tile1 := {| tile_id := tile_id tile; currentRow := (emptyPos p).1;
                  currentCol := (emptyPos p).2;
                  container := (targetX, targetY) |} in
  Some (with_pz (λ p,
    set_isAnimating true
      (set_emptyPos (oldRow, oldCol)
        (set_gridData g2 (set_tiles (<[i := tile1]> (tiles p)) p)))) w).

(** The tween's [onComplete], up to the call of the continuation: the
    second component tells whether the continuation [onComplete] is
    reached (the fail branch returns before it). *)
Definition moveTile_settled (isPlayerMove : bool) (w : World)
  : option (World * bool) :=
  let w1 := with_pz (set_isAnimating false) w in
  if isPlayerMove then
    let w2 := with_pz (λ p, set_moveCount (moveCount p + 1)%Z p) w1 in
    if bool_decide (MAX_MOVES (cfg w2) ≤ moveCount (pz w2))%Z
       && negb (isWon (pz w2))
    then Some (triggerFailState w2, false)
    else w3 ← checkWinCondition w2; Some (w3, true)
  else Some (w1, true).

Definition moveTile (i : nat) (isPlayerMove : bool) (w : World)
  : option World :=
  w1 ← moveTile_apply i w;
  r ← moveTile_settled isPlayerMove w1;
  Some r.1.

Definition onTileClick (i : nat) (w : World) : option World :=
  let p := pz w in
  if isAnimating p || isShuffling p || isWon p || hasFailed p then Some w
  else
    tile ← tiles p !! i;
    if negb (canTileMove tile p) then Some w
    else moveTile i true w.

End GridManager.

(** ** ShuffleSystem *)

(** The draws of [Math.random] a shuffle makes: one per step of the legal
    walk, and per decorative round one for the number of tiles and one per
    tile picked. *)
Record Oracle := {
  walk_draw : nat → nat;
  hybrid_coin : nat → bool;        (* [Math.random() < 0.7] *)
  hybrid_draw : nat → nat → nat
}.

(** The search of a tile's cell in [resetGridToSolved]: the inner loop over
    the columns, left at the first match; [k] columns remain from [col]. *)
Fixpoint scan_id_cols (rowArr : jsarray) (id : Z) (row col k : nat)
    (target : option (nat * nat)) : option (nat * nat) :=
  match k with
  | 0 => target
  | S k' => if bool_decide (js_read rowArr col = Some id) then Some (row, col)
            else scan_id_cols rowArr id row (S col) k' target
  end.

Module ShuffleSystem.

Definition reset_recipe_cell (recipeSequence : list Z) (gridSize row col : nat)
    (st : list jsarray * nat) : option (list jsarray * nat) :=
  let '(g, sequenceIndex) := st in
  let cellIndex := row * gridSize + col in
  if decide (cellIndex < length recipeSequence)
  then g1 ← grid_write g row col (recipeSequence !! sequenceIndex);
       Some (g1, S sequenceIndex)
  else g1 ← grid_write g row col (Some 0%Z); Some (g1, sequenceIndex).

Definition reset_legacy_cell (gridSize row col : nat) (g : list jsarray)
  : option (list jsarray) :=
  let value := Z.of_nat (row * gridSize + col + 1) in
  grid_write g row col
    (Some (if bool_decide (value ≤ Z.of_nat (gridSize * gridSize) - 1)%Z
           then value else 0%Z)).

(** The body of [tiles.forEach]: the tile's cell in the solved grid is
    searched (the last row that holds its id wins, the [break] leaving the
    inner loop only), and the tile is placed there when one is found. *)
Definition reset_tile (g : list jsarray) (gridSize : nat) (tile : Tile)
  : option Tile :=
  target ← for_loop gridSize
    (λ row target, rowArr ← g !! row;
                   Some (scan_id_cols rowArr (tile_id tile) row 0 gridSize target))
    None;
  Some match target with
       | Some (targetRow, targetCol) =>
           {| tile_id := tile_id tile; currentRow := targetRow;
              currentCol := targetCol;
              container := (tileX targetCol, tileY targetRow) |}
       | None => tile
       end.

(** The recipe branch of [resetGridToSolved]: the cells are written into
    the grid as it is, then the empty position is searched. *)
Definition reset_recipe (recipeSequence : list Z) (gridSize : nat)
    (g : list jsarray) (ep : nat * nat)
  : option (list jsarray * (nat * nat)) :=
  '(g1, _) ←
    for_loop gridSize
      (λ row, for_loop gridSize (reset_recipe_cell recipeSequence gridSize row))
      (g, 0);
  ep1 ← findEmptyPosition g1 gridSize ep;
  Some (g1, ep1).

Definition reset_legacy (gridSize : nat) (g : list jsarray)
  : option (list jsarray * (nat * nat)) :=
  g1 ← for_loop gridSize
          (λ row, for_loop gridSize (reset_legacy_cell gridSize row)) g;
  Some (g1, (gridSize - 1, gridSize - 1)).

Definition resetGridToSolved (w : World) : option World :=
  let gridSize := GRID_SIZE (cfg w) in
  let p := pz w in
  '(g, ep) ←
    match RECIPE_MODE (cfg w), currentRecipe (gs w) with
    | true, Some recipe =>
        reset_recipe (sequence recipe) gridSize (gridData p) (emptyPos p)
    | _, _ => reset_legacy gridSize (gridData p)
    end;
  ts ← mapM (reset_tile g gridSize) (tiles p);
  Some (with_pz (λ p, set_tiles ts (set_emptyPos ep (set_gridData g p))) w).

(** [tiles.filter(tile => GridManager.canTileMove(tile))], the tiles named
    by their place in [tiles]. *)
Definition tile_can_move (p : Puzzle) (i : nat) : bool :=
  match tiles p !! i with
  | Some tile => GridManager.canTileMove tile p
  | None => false
  end.

Definition legalTiles (p : Puzzle) : list nat :=
  filter (λ i, tile_can_move p i) (seq 0 (length (tiles p))).

(** [tile.id !== lastMovedTile.id] *)
Definition other_id (p : Puzzle) (lastMovedTile i : nat) : bool :=
  negb (bool_decide (tile_id <$> tiles p !! i
                     = tile_id <$> tiles p !! lastMovedTile)).

(** The candidates of one shuffle step. *)
Definition movableTiles (lastMovedTile : option nat) (p : Puzzle) : list nat :=
  let movable := legalTiles p in
  match lastMovedTile with
  | Some l => if bool_decide (1 < length movable)
              then filter (λ i, other_id p l i) movable
              else movable
  | None => movable
  end.

(** One call of [makeShuffleMove] below the move count: the new world and
    the tile moved, if one was. The lookup is in range. *)
Definition makeShuffleMove_step (r : nat) (lastMovedTile : option nat)
    (w : World) : option (World * option nat) :=
  let candidates := movableTiles lastMovedTile (pz w) in
  if bool_decide (0 < length candidates) then
    randomTile ← candidates !! random_index r (length candidates);
    w1 ← GridManager.moveTile randomTile false w;
    Some (w1, Some randomTile)
  else Some (w, None).

(** The picks of one decorative round:
    [for (i = 0; i < numTilesToSwap && availableTiles.length > 0; i++)]. *)
Fixpoint pickTiles (draw : nat → nat) (i num : nat)
    (availableTiles tilesToAnimate : list nat) : list nat :=
  match num with
  | 0 => tilesToAnimate
  | S num' =>
      if bool_decide (0 < length availableTiles) then
        let randomIndex := random_index (draw i) (length availableTiles) in
        match availableTiles !! randomIndex with
        | Some t => pickTiles draw (S i) num' (delete randomIndex availableTiles)
                              (tilesToAnimate ++ [t])
        | None => tilesToAnimate
        end
      else tilesToAnimate
  end.

(** The swap of two positions, the rotation of three. *)
Definition permutePositions (originalPositions : list (Z * Z)) : list (Z * Z) :=
  match originalPositions with
  | [p0; p1] => [p1; p0]
  | [p0; p1; p2] => [p1; p2; p0]
  | ps => ps
  end.

Definition tween_container (i : nat) (xy : Z * Z) (ts : list Tile) : list Tile :=
  match ts !! i with
  | Some tile => <[i := move_container xy tile]> ts
  | None => ts
  end.

(** The tween back to the tile's own cell, started by [onComplete]. *)
Definition settle_container (i : nat) (ts : list Tile) : list Tile :=
  match ts !! i with
  | Some tile =>
      <[i := move_container (tileX (currentCol tile), tileY (currentRow tile)) tile]> ts
  | None => ts
  end.

(** The tiles one decorative round animates. *)
Definition hybrid_pick (coin : bool) (draw : nat → nat) (ts : list Tile)
  : list nat :=
  let numTilesToSwap := if coin then 2 else 3 in
  pickTiles draw 0 numTilesToSwap (seq 0 (length ts)) [].

(** The first tweens of a round: each picked container goes to the
    position of the next picked one. *)
Definition hybrid_swap (tilesToAnimate : list nat) (ts : list Tile)
  : list Tile :=
  let originalPositions :=
    omap (λ i, container <$> ts !! i) tilesToAnimate in
  let targetPositions := permutePositions originalPositions in
  foldl (λ acc it, tween_container it.1 it.2 acc) ts
        (zip tilesToAnimate targetPositions).

(** Their [onComplete]: each picked container goes back to its own cell. *)
Definition hybrid_settle (tilesToAnimate : list nat) (ts : list Tile)
  : list Tile :=
  foldl (λ acc i, settle_container i acc) ts tilesToAnimate.

(** One call of [makeHybridMove] below the round count. The flag tells
    whether the next round is scheduled: it is by the last animated tile's
    [onComplete], so with no tile to animate the pass stops here and
    [isShuffling] stays set. *)
Definition makeHybridMove_round (coin : bool) (draw : nat → nat) (w : World)
  : World * bool :=
  let ts := tiles (pz w) in
  let tilesToAnimate := hybrid_pick coin draw ts in
  let ts1 := hybrid_swap tilesToAnimate ts in
  let ts2 := hybrid_settle tilesToAnimate ts1 in
  (with_pz (set_tiles ts2) w, bool_decide (0 < length tilesToAnimate)).

Fixpoint makeHybridMove (o : Oracle) (remaining currentHybridMove : nat)
    (w : World) : World :=
  match remaining with
  | 0 => with_pz (set_isShuffling false) w
  | S remaining' =>
      let '(w1, next) :=
        makeHybridMove_round (hybrid_coin o currentHybridMove)
                             (hybrid_draw o currentHybridMove) w in
      if next then makeHybridMove o remaining' (S currentHybridMove) w1
      else w1
  end.

Definition performHybridShuffle (o : Oracle) (w : World) : World :=
  makeHybridMove o (HYBRID_SHUFFLE_COUNT (cfg w)) 0 w.

(** The branch [currentMove >= moves] of [makeShuffleMove]. *)
Definition shuffle_finish (o : Oracle) (w : World) : World :=
  if ENABLE_HYBRID_SHUFFLE (cfg w) then performHybridShuffle o w
  else with_pz (set_isShuffling false) w.

(** [lastMovedTile] after a step. *)
Definition next_last (lastMovedTile moved : option nat) : option nat :=
  match moved with Some t => Some t | None => lastMovedTile end.

(** [makeShuffleMove]: [remaining] is [moves - currentMove]. *)
Fixpoint makeShuffleMove (o : Oracle) (remaining currentMove : nat)
    (lastMovedTile : option nat) (w : World) : option World :=
  match remaining with
  | 0 => Some (shuffle_finish o w)
  | S remaining' =>
      '(w1, moved) ← makeShuffleMove_step (walk_draw o currentMove) lastMovedTile w;
      makeShuffleMove o remaining' (S currentMove)
        (next_last lastMovedTile moved) w1
  end.

(** The same walk with its steps recorded: the world a step starts from,
    [lastMovedTile] at that point, and the tile the step moves. *)
Fixpoint shuffleWalk (o : Oracle) (remaining currentMove : nat)
    (lastMovedTile : option nat) (w : World)
  : option (list (World * option nat * option nat) * World) :=
  match remaining with
  | 0 => Some ([], w)
  | S remaining' =>
      '(w1, moved) ← makeShuffleMove_step (walk_draw o currentMove) lastMovedTile w;
      '(steps, wEnd) ← shuffleWalk o remaining' (S currentMove)
                          (next_last lastMovedTile moved) w1;
      Some ((w, lastMovedTile, moved) :: steps, wEnd)
  end.

(** The part of [performAnimatedShuffle] that runs at the call. *)
Definition shuffle_start (w : World) : option World :=
  resetGridToSolved (with_pz (set_isShuffling true) w).

Definition performAnimatedShuffle (o : Oracle) (w : World) : option World :=
  w1 ← shuffle_start w;
  makeShuffleMove o (SHUFFLE_MOVE_COUNT (cfg w1)) 0 None w1.

End ShuffleSystem.

(** ** Scene lifecycle, reset and the debug recipe cycle *)

Definition resetPuzzle_fields (w : World) : World :=
  with_pz (λ p, set_hasFailed false (set_isWon false (set_moveCount 0%Z p))) w.

Definition resetPuzzle (o : Oracle) (w : World) : option World :=
  ShuffleSystem.performAnimatedShuffle o (resetPuzzle_fields w).

(** [create], up to the call of [performAnimatedShuffle]. *)
Definition create_setup (w : World) : option World :=
  let w1 :=
    if RECIPE_MODE (cfg w) then
      let found := RecipeSystem.getRecipeById (DEFAULT_RECIPE_ID (cfg w)) in
      let recipe := if RecipeSystem.validateRecipe found then found
                    else head RECIPES in
      with_cfg (RecipeSystem.applyRecipeConfig recipe)
        (with_gs (set_currentRecipe recipe) w)
    else w in
  GridManager.createGrid (GRID_SIZE (cfg w1)) w1.

Definition create (o : Oracle) : option World :=
  w ← create_setup initialWorld;
  ShuffleSystem.performAnimatedShuffle o w.

(** [allRecipes.findIndex(r => r.id === id)]: [None] is -1. *)
Definition findIndex (id : string) (rs : list Recipe) : option nat :=
  fst <$> list_find (λ r, recipe_id r = id) rs.

(** [cycleToNextRecipe], up to the call of [performAnimatedShuffle]. *)
Definition cycle_setup (w : World) : option World :=
  if negb (RECIPE_MODE (cfg w)) then Some w
  else
    let allRecipes := RecipeSystem.getAllRecipes in
    current ← currentRecipe (gs w);
    let nextIndex :=
      match findIndex (recipe_id current) allRecipes with
      | Some currentIndex => (currentIndex + 1) `mod` length allRecipes
      | None => 0
      end in
    nextRecipe ← allRecipes !! nextIndex;   (* [nextRecipe.name] is read *)
    let w1 :=
      with_cfg (RecipeSystem.applyRecipeConfig (Some nextRecipe))
        (with_gs (set_currentRecipe (Some nextRecipe)) w) in
    GridManager.createGrid (GRID_SIZE (cfg w1)) w1.

Definition cycleToNextRecipe (o : Oracle) (w : World) : option World :=
  if negb (RECIPE_MODE (cfg w)) then Some w
  else
    w1 ← cycle_setup w;
    w2 ← ShuffleSystem.performAnimatedShuffle o w1;
    Some (resetPuzzle_fields w2).

(** ** The states of a session *)

(** The worlds the program passes through, one constructor per piece of
    code that runs without interruption: the part of [moveTile] that runs at
    the call (its two callers, [onTileClick] and the shuffle, only call it on
    a tile that can move), the tween's callback, the two stages of a
    decorative round, and so on. Timers and tweens decide when a piece runs;
    they are not modelled, so every piece may follow any state, and this set
    contains every state of a run. *)
Inductive reachable : World → Prop :=
  | reach_create w :
      create_setup initialWorld = Some w → reachable w
  | reach_shuffle_start w w' :
      reachable w → ShuffleSystem.shuffle_start w = Some w' → reachable w'
  | reach_move_apply w i w' :
      reachable w → ShuffleSystem.tile_can_move (pz w) i = true →
      GridManager.moveTile_apply i w = Some w' → reachable w'
  | reach_move_settled w isPlayerMove w' continue :
      reachable w →
      GridManager.moveTile_settled isPlayerMove w = Some (w', continue) →
      reachable w'
  | reach_hybrid_swap w tilesToAnimate :
      reachable w →
      reachable (with_pz (λ p, set_tiles
                   (ShuffleSystem.hybrid_swap tilesToAnimate (tiles p)) p) w)
  | reach_hybrid_settle w tilesToAnimate :
      reachable w →
      reachable (with_pz (λ p, set_tiles
                   (ShuffleSystem.hybrid_settle tilesToAnimate (tiles p)) p) w)
  | reach_shuffle_end w :
      reachable w → reachable (with_pz (set_isShuffling false) w)
  | reach_reset_fields w :
      reachable w → reachable (resetPuzzle_fields w)
  | reach_cycle w w' :
      reachable w → cycle_setup w = Some w' → reachable w'.

(** A sequence of clicks, one tile after the other. *)
Definition play (clicks : list nat) (w : World) : option World :=
  foldl (λ acc i, acc ≫= GridManager.onTileClick i) (Some w) clicks.

(** Worlds of a session, used as inputs below: the start on the default
    recipe, the start on garden_delight (three recipe cycles later), and
    garden_delight after 48 and 49 moves of the player: tiles 6, 2, 1, 7, then
    tile 7 up and down. *)
Definition leafyStart : World :=
  default initialWorld (create_setup initialWorld).
Definition gardenStart : World :=
  default initialWorld
    (w0 ← create_setup initialWorld; w1 ← cycle_setup w0;
     w2 ← cycle_setup w1; cycle_setup w2).
Definition garden48 : World :=
  default initialWorld (play ([2; 1; 0] ++ replicate 45 3) gardenStart).
Definition garden49 : World :=
  default initialWorld (play ([2; 1; 0] ++ replicate 46 3) gardenStart).

(** An oracle and two recipes used as inputs below. The recipes are not in
    the catalogue: the buff of the first lowers hp, the second fills the
    grid. *)
Definition sampleOracle : Oracle :=
  {| walk_draw := λ step, 7 * step + 3;
     hybrid_coin := Nat.even;
     hybrid_draw := λ round pick, round + 2 * pick |}.

Definition spoiled_ration : Recipe :=
  {| recipe_id := "spoiled_ration"; name := "Spoiled Ration";
     sequence := [1; 8]%Z;
     buff := [("hp", -200)]%Z;
     difficulty := None; gridSize := None;
     optimalMoves := None; maxMoves := None |}.

Definition full_platter : Recipe :=
  {| recipe_id := "full_platter"; name := "Full Platter";
     sequence := [1; 2; 3; 4; 5; 6; 7; 8; 9]%Z;
     buff := [];
     difficulty := None; gridSize := Some 3;
     optimalMoves := None; maxMoves := None |}.

(** The world a rating is asked in: [recipe] applied, [moves] moves made. *)
Definition ratedAt (recipe : Recipe) (moves : Z) (w : World) : World :=
  with_pz (set_moveCount moves)
    (with_cfg (RecipeSystem.applyRecipeConfig (Some recipe)) w).

(** ** Notions the properties are stated with *)

(** The logical part of a tile: all but its render coordinates. *)
Definition logical (t : Tile) : Z * nat * nat :=
  (tile_id t, currentRow t, currentCol t).

(** The number of 0-valued cells of a grid. *)
Definition zeroCells (g : list jsarray) : nat :=
  length (filter (λ v : Z, v = 0%Z) (flat g)).

(** The multiset of the nonzero values of a list. *)
Definition nonzeroValues (l : list Z) : gmultiset Z :=
  list_to_set_disj (filter (λ v : Z, v ≠ 0%Z) l).

(** The cell a tile stands on, and the cell [emptyPos] names. *)
Definition cellOf (g : list jsarray) (t : Tile) : option (option Z) :=
  grid_read g (currentRow t) (currentCol t).
Definition emptyCell (p : Puzzle) : option (option Z) :=
  grid_read (gridData p) (emptyPos p).1 (emptyPos p).2.

(** Exactly one orthogonal step between two cells. *)
Definition adjacent (a b : nat * nat) : Prop :=
  (a.1 = b.1 ∧ (a.2 = S b.2 ∨ b.2 = S a.2))
  ∨ (a.2 = b.2 ∧ (a.1 = S b.1 ∨ b.1 = S a.1)).

(** The invariant of the reachable worlds. *)
Record Inv (w : World) : Prop := {
  inv_mode : RECIPE_MODE (cfg w) = true;
  inv_size : GRID_SIZE (cfg w) = 3;
  inv_recipe : ∃ r, r ∈ RECIPES ∧ currentRecipe (gs w) = Some r
                  ∧ tile_id <$> tiles (pz w) = sequence r
                  ∧ flat (gridData (pz w))
                      ≡ₚ sequence r ++ replicate (9 - length (sequence r)) 0%Z
                  ∧ OPTIMAL_MOVES (cfg w)
                      = RecipeSystem.or_default_Z (optimalMoves r) 20
                  ∧ MAX_MOVES (cfg w)
                      = RecipeSystem.or_default_Z (maxMoves r) 50;
  inv_rows : length (gridData (pz w)) = 3;
  inv_cols : Forall (λ rowArr : jsarray, length rowArr = 3) (gridData (pz w));
  inv_empty : emptyCell (pz w) = Some (Some 0%Z);
  inv_tiles : Forall (λ t, cellOf (gridData (pz w)) t = Some (Some (tile_id t)))
                     (tiles (pz w));
  inv_hp : (0 ≤ hp (petStats (gs w)) ≤ maxHp (petStats (gs w)))%Z
}.

(** ** The solved layout of a sequence on a grid of any size *)

(** The value the solved layout has at a cell, by its index in row-major
    order. *)
Definition cellValue (recipeSequence : list Z) (cellIndex : nat) : Z :=
  default 0%Z (recipeSequence !! cellIndex).

Definition solvedRow (recipeSequence : list Z) (n row k : nat) : jsarray :=
  (λ col, Some (cellValue recipeSequence (row * n + col))) <$> seq 0 k.

Definition solvedGrid (recipeSequence : list Z) (n k : nat) : list jsarray :=
  (λ row, solvedRow recipeSequence n row n) <$> seq 0 k.

(** The tile [createGrid] makes for a cell, if it makes one. *)
Definition tileAt (recipeSequence : list Z) (n row col : nat) : option Tile :=
  let v := cellValue recipeSequence (row * n + col) in
  if decide (v = 0%Z) then None
  else Some {| tile_id := v; currentRow := row; currentCol := col;
               container := (tileX col, tileY row) |}.

Definition solvedTilesRow (recipeSequence : list Z) (n row k : nat) : list Tile :=
  omap (tileAt recipeSequence n row) (seq 0 k).

Definition solvedTiles (recipeSequence : list Z) (n k : nat) : list Tile :=
  row ← seq 0 k; solvedTilesRow recipeSequence n row n.

(** A grid whose first [m] cells, in row-major order, hold the values of the
    solved layout. *)
Definition overwritten (recipeSequence : list Z) (n m : nat) (g : list jsarray)
  : list jsarray :=
  imap (λ row, imap (λ col x, if decide (row * n + col < m)
                             then Some (cellValue recipeSequence (row * n + col))
                             else x)) g.

(** ** The rest of the engine: lookups, labels, the reset button *)

(** [RecipeSystem.getRecipesByDifficulty]: [r.difficulty === difficulty]. *)
Definition getRecipesByDifficulty (d : string) : list Recipe :=
  filter (λ r, difficulty r = Some d) RECIPES.

(** [a[i]] for a number [i] that need not be an index: [undefined] below 0
    and past the end. *)
Definition js_index {A : Type} (a : list A) (i : Z) : option A :=
  if decide (0 ≤ i)%Z then a !! Z.to_nat i else None.

Definition INGREDIENTS : list string :=
  ["Bread Top"; "Lettuce"; "Tomato"; "Cheese"; "Patty"; "Onion"; "Pickle";
   "Bread Bottom"].

(** [TILE_COLORS]: the entry of 0 is [null]. *)
Definition TILE_COLORS : list (option Z) :=
  [None; Some 0xF4D03F; Some 0x2ECC71; Some 0xE74C3C; Some 0xF39C12;
   Some 0x8B4513; Some 0xE8DAEF; Some 0x27AE60; Some 0xD4A574]%Z.

(** What [createTile] reads for a value: [INGREDIENTS[value - 1]] and
    [TILE_COLORS[value]]. *)
Definition tileLabel (value : Z) : option string := js_index INGREDIENTS (value - 1).
Definition tileColor (value : Z) : option Z := mjoin (js_index TILE_COLORS value).

(** [recipe.sequence.map(id => INGREDIENTS[id - 1])] of [createRecipeUI]. *)
Definition ingredientList (recipe : Recipe) : list (option string) :=
  (λ id, js_index INGREDIENTS (id - 1)) <$> sequence recipe.

(** The [pointerdown] handler of the reset button. *)
Definition onResetClick (o : Oracle) (w : World) : option World :=
  if negb (isAnimating (pz w)) && negb (isShuffling (pz w))
  then resetPuzzle o w else Some w.

(** Presses of the debug key, one after the other, each with the random
    draws of its own shuffle. *)
Fixpoint cycleTimes (os : list Oracle) (w : World) : option World :=
  match os with
  | [] => Some w
  | o :: os' => w1 ← cycleToNextRecipe o w; cycleTimes os' w1
  end.

(** A recipe of the catalogue by its place, and the place after it. *)
Definition nextRecipe (r : Recipe) : option Recipe :=
  match findIndex (recipe_id r) RECIPES with
  | Some currentIndex => RECIPES !! ((currentIndex + 1) `mod` length RECIPES)
  | None => RECIPES !! 0
  end.

(** The container of a tile is where [createTile] and [moveTile] put the
    container of a tile of that cell. *)
Definition atHome (t : Tile) : Prop :=
  container t = (tileX (currentCol t), tileY (currentRow t)).

(** The part of a world a move reads and writes, without the render
    coordinates. *)
Definition board (w : World) : list jsarray * (nat * nat) * list (Z * nat * nat) :=
  (gridData (pz w), emptyPos (pz w), logical <$> tiles (pz w)).

(** The scene accepts a click: no tween or shuffle runs, and the session is
    neither won nor failed. *)
Definition idle (p : Puzzle) : bool :=
  negb (isAnimating p || isShuffling p || isWon p || hasFailed p).

(** The legacy configuration ([RECIPE_MODE: false]) and the world [create]
    starts from under it. *)
Definition LEGACY_CONFIG : Config := {|
  GRID_SIZE := 3; RECIPE_MODE := false; DEFAULT_RECIPE_ID := "leafy_stack";
  OPTIMAL_MOVES := 20; MAX_MOVES := 50; DIFFICULTY := "Normal";
  SHUFFLE_MOVE_COUNT := 20; ENABLE_HYBRID_SHUFFLE := true;
  HYBRID_SHUFFLE_COUNT := 6
|}.

Definition legacyWorld : World :=
  {| cfg := LEGACY_CONFIG; gs := GameState; pz := initialPuzzle |}.

(** The sequence the legacy layout amounts to: 1 to [gridSize * gridSize - 1]. *)
Definition legacySequence (gridSize : nat) : list Z :=
  Z.of_nat <$> seq 1 (gridSize * gridSize - 1).

(** The value the legacy win check expects at a cell. *)
Definition legacyExpected (gridSize row col : nat) : Z :=
  if bool_decide (row = gridSize - 1) && bool_decide (col = gridSize - 1)
  then 0%Z else Z.of_nat (row * gridSize + col + 1).

(** The sum of the deltas a buff object gives for a stat. *)
Definition buffTotal (stat : string) (buffs : list (string * Z)) : Z :=
  foldr (λ kv acc, if bool_decide (kv.1 = stat) then (kv.2 + acc)%Z else acc)
        0%Z buffs.

(** A failed session, used as an input below: garden_delight after the
    fiftieth move of the player. *)
Definition gardenFailed : World :=
  default initialWorld (GridManager.moveTile 3 true garden49).

(** The start of a legacy session, before its shuffle. *)
Definition legacyStart : World :=
  default legacyWorld (create_setup legacyWorld).

(** A recipe of one ingredient, not in the catalogue, used as an input
    below. *)
Definition lone_crumb : Recipe :=
  {| recipe_id := "lone_crumb"; name := "Lone Crumb";
     sequence := [1]%Z;
     buff := [];
     difficulty := None; gridSize := Some 3;
     optimalMoves := None; maxMoves := None |}.

(** The order of the ratings, from the skull to three stars. *)
Definition stars (rating : Rating) : nat :=
  match rating with Stars3 => 3 | Stars2 => 2 | Stars1 => 1 | Skull => 0 end.

(** leafy_stack one move away from its solved layout: tile 3 moved down. *)
Definition leafyOneOff : World :=
  default initialWorld (GridManager.moveTile 2 false leafyStart).

(** * Proofs

    ** Arrays and grids *)

Section arrays.
Implicit Types (a : jsarray) (g : list jsarray) (v old : Z) (r c : nat).

Lemma js_read_Some_lt a c old : js_read a c = Some old → c < length a.
Proof.
  unfold js_read. intros H. apply lookup_lt_is_Some.
  destruct (a !! c) eqn:E; [eauto | discriminate].
Qed.

Lemma js_write_length a c old v :
  js_read a c = Some old → length (js_write a c (Some v)) = length a.
Proof.
  intros H. unfold js_write. rewrite decide_True by eauto using js_read_Some_lt.
  apply length_insert.
Qed.

Lemma js_read_write_eq a c v :
  c < length a → js_read (js_write a c (Some v)) c = Some v.
Proof.
  intros H. unfold js_read, js_write. rewrite decide_True by done.
  by rewrite list_lookup_insert_eq.
Qed.

Lemma js_read_write_ne a c c' v :
  c < length a → c ≠ c' → js_read (js_write a c (Some v)) c' = js_read a c'.
Proof.
  intros H Hne. unfold js_read, js_write. rewrite decide_True by done.
  by rewrite list_lookup_insert_ne.
Qed.

(** Replacing a number by a number swaps the two in the flattened row. *)
Lemma js_write_values a c old v :
  js_read a c = Some old →
  v :: omap id a ≡ₚ old :: omap id (js_write a c (Some v)).
Proof.
  intros H. unfold js_write. rewrite decide_True by eauto using js_read_Some_lt.
  revert c H. induction a as [|x a IH]; intros [|c] H; try discriminate.
  - unfold js_read in H. simpl in H. subst x. simpl. apply Permutation_swap.
  - specialize (IH c H). simpl. destruct x as [x|]; simpl; [|done].
    etrans; [apply Permutation_swap|].
    etrans; [apply Permutation_skip, IH|]. apply Permutation_swap.
Qed.

Lemma grid_write_Some g r c old v :
  grid_read g r c = Some (Some old) →
  ∃ g', grid_write g r c (Some v) = Some g'
    ∧ length g' = length g
    ∧ (∀ n, Forall (λ rowArr : jsarray, length rowArr = n) g →
            Forall (λ rowArr : jsarray, length rowArr = n) g')
    ∧ grid_read g' r c = Some (Some v)
    ∧ (∀ r' c', (r', c') ≠ (r, c) → grid_read g' r' c' = grid_read g r' c')
    ∧ v :: flat g ≡ₚ old :: flat g'.
Proof.
  unfold grid_read, grid_write. intros H.
  destruct (g !! r) as [rowArr|] eqn:Hrow; simpl in *; [|discriminate].
  injection H as H.
  assert (Hr : r < length g) by eauto using lookup_lt_Some.
  assert (Hc : c < length rowArr) by eauto using js_read_Some_lt.
  eexists; split; [reflexivity|]. split; [apply length_insert|].
  split; [|split; [|split]].
  - intros n Hall. apply Forall_insert; [done|].
    erewrite js_write_length by done.
    by eapply (Forall_lookup_1 _ _ _ _ Hall).
  - rewrite list_lookup_insert_eq by done. simpl.
    by rewrite js_read_write_eq.
  - intros r' c' Hne. destruct (decide (r = r')) as [<-|Hr'].
    + rewrite list_lookup_insert_eq by done. rewrite Hrow. simpl.
      rewrite js_read_write_ne; [done|done|congruence].
    + by rewrite list_lookup_insert_ne.
  - unfold flat.
    rewrite <- (take_drop_middle g r rowArr Hrow) at 1.
    rewrite insert_take_drop by done.
    rewrite !concat_app, !omap_app. simpl. rewrite !omap_app.
    pose proof (js_write_values rowArr c old v H) as HP.
    etrans; [apply Permutation_middle|].
    symmetry; etrans; [apply Permutation_middle|]; symmetry.
    apply Permutation_app_head.
    exact (Permutation_app HP (Permutation_refl _)).
Qed.
End arrays.

(** ** The catalogue, and the move primitive on a consistent board *)

Lemma elem_of_RECIPES r :
  r ∈ RECIPES →
  r = classic_stack ∨ r = leafy_stack ∨ r = cheesy_beast ∨ r = protein_power
  ∨ r = garden_delight ∨ r = deluxe_combo.
Proof. unfold RECIPES. rewrite !elem_of_cons, elem_of_nil. tauto. Qed.

Ltac catalogue H :=
  apply elem_of_RECIPES in H;
  destruct H as [->|[->|[->|[->|[->| ->]]]]].

Lemma catalogue_sequence r :
  r ∈ RECIPES →
  NoDup (sequence r) ∧ Forall (λ v : Z, v ≠ 0%Z) (sequence r)
  ∧ length (sequence r) < 9.
Proof.
  intros H. catalogue H; (split; [|split]);
    solve [ apply (bool_decide_unpack _); by vm_compute
          | vm_compute; lia ].
Qed.

Lemma tile_id_nonzero (ts : list Tile) (ids : list Z) j t :
  Forall (λ v : Z, v ≠ 0%Z) ids → tile_id <$> ts = ids →
  ts !! j = Some t → tile_id t ≠ 0%Z.
Proof.
  intros Hnz <- Hj. eapply (Forall_lookup_1 _ _ j _ Hnz).
  by rewrite list_lookup_fmap, Hj.
Qed.

Lemma moveTile_apply_Inv w i t :
  Inv w → tiles (pz w) !! i = Some t →
  ∃ w', GridManager.moveTile_apply i w = Some w'
    ∧ Inv w'
    ∧ cfg w' = cfg w ∧ gs w' = gs w
    ∧ emptyPos (pz w') = (currentRow t, currentCol t)
    ∧ cellOf (gridData (pz w')) t = Some (Some 0%Z)
    ∧ grid_read (gridData (pz w')) (emptyPos (pz w)).1 (emptyPos (pz w)).2
        = Some (Some (tile_id t))
    ∧ flat (gridData (pz w')) ≡ₚ flat (gridData (pz w))
    ∧ logical <$> tiles (pz w')
        = <[i := (tile_id t, (emptyPos (pz w)).1, (emptyPos (pz w)).2)]>
            (logical <$> tiles (pz w))
    ∧ moveCount (pz w') = moveCount (pz w)
    ∧ isShuffling (pz w') = isShuffling (pz w)
    ∧ isWon (pz w') = isWon (pz w)
    ∧ hasFailed (pz w') = hasFailed (pz w).
Proof.
  intros [Hmode Hsize (r & Hr & Hcur & Hids & Hperm & Hopt & Hmax)
          Hrows Hcols Hempty Htiles Hhp] Hi.
  destruct (catalogue_sequence r Hr) as (Hnd & Hnz & Hlen).
  pose proof (proj1 (Forall_lookup _ _) Htiles i t Hi) as Hcell.
  assert (Hid : tile_id t ≠ 0%Z).
  { eauto using tile_id_nonzero. }
  unfold cellOf in Hcell. unfold emptyCell in Hempty.
  destruct (emptyPos (pz w)) as [er ec] eqn:Hep. simpl in *.
  destruct (grid_write_Some _ _ _ _ 0%Z Hcell)
    as (g1 & Hw1 & Hl1 & Hc1 & Hr1 & Ho1 & Hp1).
  assert (Hne : (er, ec) ≠ (currentRow t, currentCol t)).
  { intros [= -> ->]. congruence. }
  assert (He1 : grid_read g1 er ec = Some (Some 0%Z)) by (by rewrite Ho1).
  destruct (grid_write_Some _ _ _ _ (tile_id t) He1)
    as (g2 & Hw2 & Hl2 & Hc2 & Hr2 & Ho2 & Hp2).
  eexists. split.
  { unfold GridManager.moveTile_apply. rewrite Hi. simpl.
    rewrite Hw1. simpl. rewrite Hep. simpl. rewrite Hw2. simpl. reflexivity. }
  assert (HP : flat g2 ≡ₚ flat (gridData (pz w))).
  { apply (Permutation_cons_inv (a := 0%Z)).
    etrans; [symmetry; exact Hp2 | symmetry; exact Hp1]. }
  assert (Hids' : tile_id <$> <[i := {| tile_id := tile_id t; currentRow := er;
      currentCol := ec; container := (tileX ec, tileY er) |}]> (tiles (pz w))
      = tile_id <$> tiles (pz w)).
  { rewrite list_fmap_insert. simpl. apply list_insert_id.
    by rewrite list_lookup_fmap, Hi. }
  split; [|simpl; split_and!; try done].
  - constructor; simpl; try done.
    + exists r. split_and!; try done; [congruence | by rewrite HP].
    + congruence.
    + by apply Hc2, Hc1.
    + unfold emptyCell. simpl. rewrite Ho2 by congruence. done.
    + apply Forall_lookup. intros j t' Hj.
      destruct (decide (i = j)) as [<-|Hij].
      * rewrite list_lookup_insert_eq in Hj by eauto using lookup_lt_Some.
        injection Hj as <-. done.
      * rewrite list_lookup_insert_ne in Hj by done.
        pose proof (proj1 (Forall_lookup _ _) Htiles j t' Hj) as Hcell'.
        unfold cellOf in *.
        rewrite Ho2, Ho1; [done| |].
        -- intros [= E1 E2]. rewrite E1, E2 in Hcell'.
           assert (tile_id t' = tile_id t) as E by congruence.
           apply Hij. apply (NoDup_lookup (sequence r) i j (tile_id t) Hnd).
           ++ by rewrite <- Hids, list_lookup_fmap, Hi.
           ++ rewrite <- Hids, list_lookup_fmap, Hj. simpl. by rewrite E.
        -- intros [= E1 E2]. rewrite E1, E2 in Hcell'.
           assert (tile_id t' = 0%Z) as E by congruence.
           by apply (tile_id_nonzero _ _ j t' Hnz Hids Hj).
  - unfold cellOf. by rewrite Ho2.
  - by rewrite list_fmap_insert.
Qed.

(** ** The layout of a recipe *)

Lemma grid_shape (g : list jsarray) :
  length g = 3 → Forall (λ rowArr : jsarray, length rowArr = 3) g →
  ∃ a b c d e f h i j, g = [[a; b; c]; [d; e; f]; [h; i; j]].
Proof.
  intros Hl Hc.
  destruct g as [|r0 [|r1 [|r2 [|]]]]; try discriminate.
  inversion_clear Hc as [|? ? H0 Hc0]. inversion_clear Hc0 as [|? ? H1 Hc1].
  inversion_clear Hc1 as [|? ? H2 _].
  destruct r0 as [|? [|? [|? [|]]]]; try discriminate.
  destruct r1 as [|? [|? [|? [|]]]]; try discriminate.
  destruct r2 as [|? [|? [|? [|]]]]; try discriminate.
  by repeat eexists.
Qed.

Lemma createGrid_recipe_catalogue r ep :
  r ∈ RECIPES →
  ∃ g ts ep',
    GridManager.createGrid_recipe (sequence r) 3 ep = Some (g, ts, ep')
    ∧ length g = 3
    ∧ Forall (λ rowArr : jsarray, length rowArr = 3) g
    ∧ grid_read g ep'.1 ep'.2 = Some (Some 0%Z)
    ∧ Forall (λ t, cellOf g t = Some (Some (tile_id t))) ts
    ∧ tile_id <$> ts = sequence r
    ∧ flat g = sequence r ++ replicate (9 - length (sequence r)) 0%Z.
Proof.
  intros H. catalogue H;
    (eexists _, _, _; split; [vm_compute; reflexivity|]);
    split_and!; try reflexivity; repeat constructor.
Qed.

Ltac in_catalogue :=
  unfold RECIPES; rewrite !elem_of_cons; tauto.

Lemma createGrid_Inv w r :
  r ∈ RECIPES →
  RECIPE_MODE (cfg w) = true → GRID_SIZE (cfg w) = 3 →
  currentRecipe (gs w) = Some r →
  OPTIMAL_MOVES (cfg w) = RecipeSystem.or_default_Z (optimalMoves r) 20 →
  MAX_MOVES (cfg w) = RecipeSystem.or_default_Z (maxMoves r) 50 →
  (0 ≤ hp (petStats (gs w)) ≤ maxHp (petStats (gs w)))%Z →
  ∃ w', GridManager.createGrid 3 w = Some w' ∧ Inv w'
        ∧ cfg w' = cfg w ∧ gs w' = gs w.
Proof.
  intros Hr Hmode Hsize Hcur Hopt Hmax Hhp.
  destruct (createGrid_recipe_catalogue r (emptyPos (pz w)) Hr)
    as (g & ts & ep & Hc & Hl & Hcols & He & Hts & Hids & Hflat).
  unfold GridManager.createGrid. rewrite Hmode, Hcur, Hc. simpl.
  eexists. split; [reflexivity|]. split; [|done].
  constructor; simpl; try done.
  exists r. split_and!; try done. by rewrite Hflat.
Qed.

Lemma create_setup_Inv w : create_setup initialWorld = Some w → Inv w.
Proof.
  unfold create_setup. simpl.
  change (RecipeSystem.getRecipeById "leafy_stack") with (Some leafy_stack).
  simpl. intros H.
  match type of H with
  | GridManager.createGrid 3 ?w0 = _ =>
      destruct (createGrid_Inv w0 leafy_stack) as (w' & Hw' & HI & _);
        [in_catalogue | reflexivity .. | simpl; lia | ]
  end.
  rewrite Hw' in H. by injection H as <-.
Qed.

Lemma create_setup_Some : ∃ w, create_setup initialWorld = Some w.
Proof. eexists. vm_compute. reflexivity. Qed.

(** ** Reset and recipe cycle *)

Lemma resetGridToSolved_Inv w :
  Inv w →
  ∃ w', ShuffleSystem.resetGridToSolved w = Some w' ∧ Inv w'
        ∧ cfg w' = cfg w ∧ gs w' = gs w
        ∧ moveCount (pz w') = moveCount (pz w)
        ∧ isAnimating (pz w') = isAnimating (pz w)
        ∧ isShuffling (pz w') = isShuffling (pz w)
        ∧ isWon (pz w') = isWon (pz w)
        ∧ hasFailed (pz w') = hasFailed (pz w).
Proof.
  intros [Hmode Hsize (r & Hr & Hcur & Hids & Hperm & Hopt & Hmax)
          Hrows Hcols Hempty Htiles Hhp].
  destruct (grid_shape _ Hrows Hcols)
    as (c00 & c01 & c02 & c10 & c11 & c12 & c20 & c21 & c22 & Hg).
  destruct w as [c g [ts gd ep mc an sh won fl]]; simpl in *. subst gd.
  unfold ShuffleSystem.resetGridToSolved. simpl. rewrite Hmode, Hsize, Hcur.
  clear Hperm Hempty Htiles Hrows Hcols.
  catalogue Hr; simpl in Hids;
    repeat (destruct ts as [|[? ? ? ?] ts]; simplify_eq/=);
    (eexists; split; [vm_compute; reflexivity|]);
    (split; [|done]);
    (constructor; simpl; try done;
     [ eexists; split_and!; [| exact Hcur | ..];
       [in_catalogue | by vm_compute ..]
     | repeat constructor | repeat constructor ]).
Qed.

Lemma cycle_setup_Inv w :
  Inv w → ∃ w', cycle_setup w = Some w' ∧ Inv w'.
Proof.
  intros [Hmode Hsize (r & Hr & Hcur & Hids & Hperm & Hopt & Hmax)
          Hrows Hcols Hempty Htiles Hhp].
  unfold cycle_setup. rewrite Hmode, Hcur. simpl.
  catalogue Hr;
    match goal with
    | |- context [findIndex ?a ?b] =>
        let v := eval vm_compute in (findIndex a b) in
        change (findIndex a b) with v
    end; simpl;
    match goal with
    | |- ∃ w', GridManager.createGrid 3 ?w0 = Some w' ∧ _ =>
        match w0 with
        | context [RecipeSystem.applyRecipeConfig (Some ?r')] =>
            destruct (createGrid_Inv w0 r') as (w' & Hw' & HI & _);
              [in_catalogue | done .. | exists w'; by split]
        end
    end.
Qed.

(** ** What the invariant reads *)

(** The invariant reads the configuration, the current recipe, the bounds of
    hp, the logical part of the tiles, the grid and the empty position. *)
Lemma Inv_ext w w' :
  cfg w' = cfg w →
  currentRecipe (gs w') = currentRecipe (gs w) →
  (0 ≤ hp (petStats (gs w')) ≤ maxHp (petStats (gs w')))%Z →
  logical <$> tiles (pz w') = logical <$> tiles (pz w) →
  gridData (pz w') = gridData (pz w) →
  emptyPos (pz w') = emptyPos (pz w) →
  Inv w → Inv w'.
Proof.
  intros Hc Hr Hhp' Hts Hg He
    [Hmode Hsize (r & Hin & Hcur & Hids & Hperm & Hopt & Hmax)
     Hrows Hcols Hempty Htiles _].
  assert (Hids' : tile_id <$> tiles (pz w') = tile_id <$> tiles (pz w)).
  { change tile_id with ((λ x : Z * nat * nat, x.1.1) ∘ logical).
    by rewrite !list_fmap_compose, Hts. }
  constructor; rewrite ?Hc, ?Hg; try done.
  - exists r. rewrite Hr, Hids'. by split_and!.
  - unfold emptyCell in *. by rewrite Hg, He.
  - change (λ t, cellOf (gridData (pz w)) t = Some (Some (tile_id t)))
      with ((λ x : Z * nat * nat,
               grid_read (gridData (pz w)) x.1.2 x.2 = Some (Some x.1.1))
            ∘ logical) in *.
    apply Forall_fmap. rewrite Hts. by apply Forall_fmap.
Qed.

Section hybrid.
Import ShuffleSystem.

Lemma tween_container_logical i xy ts :
  logical <$> tween_container i xy ts = logical <$> ts.
Proof.
  unfold tween_container. destruct (ts !! i) as [t|] eqn:E; [|done].
  rewrite list_fmap_insert. apply list_insert_id.
  by rewrite list_lookup_fmap, E.
Qed.

Lemma settle_container_logical i ts :
  logical <$> settle_container i ts = logical <$> ts.
Proof.
  unfold settle_container. destruct (ts !! i) as [t|] eqn:E; [|done].
  rewrite list_fmap_insert. apply list_insert_id.
  by rewrite list_lookup_fmap, E.
Qed.

Lemma foldl_tween_logical (moves : list (nat * (Z * Z))) ts :
  logical <$> foldl (λ acc it, tween_container it.1 it.2 acc) ts moves
  = logical <$> ts.
Proof.
  revert ts. induction moves as [|m moves IH]; intros ts; simpl; [done|].
  by rewrite IH, tween_container_logical.
Qed.

Lemma hybrid_swap_logical (picked : list nat) ts :
  logical <$> hybrid_swap picked ts = logical <$> ts.
Proof. apply foldl_tween_logical. Qed.

Lemma hybrid_settle_logical (picked : list nat) ts :
  logical <$> hybrid_settle picked ts = logical <$> ts.
Proof.
  unfold hybrid_settle. revert ts.
  induction picked as [|i picked IH]; intros ts; simpl; [done|].
  by rewrite IH, settle_container_logical.
Qed.

Lemma makeHybridMove_round_frame coin draw w :
  let w' := (makeHybridMove_round coin draw w).1 in
  cfg w' = cfg w ∧ gs w' = gs w
  ∧ logical <$> tiles (pz w') = logical <$> tiles (pz w)
  ∧ gridData (pz w') = gridData (pz w)
  ∧ emptyPos (pz w') = emptyPos (pz w)
  ∧ moveCount (pz w') = moveCount (pz w)
  ∧ isAnimating (pz w') = isAnimating (pz w)
  ∧ isShuffling (pz w') = isShuffling (pz w)
  ∧ isWon (pz w') = isWon (pz w)
  ∧ hasFailed (pz w') = hasFailed (pz w).
Proof.
  unfold makeHybridMove_round. simpl. split_and!; try done.
  by rewrite hybrid_settle_logical, hybrid_swap_logical.
Qed.
End hybrid.

(** ** Buffs and the win check *)

Lemma applyBuff_nonneg p stat delta :
  (0 ≤ delta)%Z → (0 ≤ hp p ≤ maxHp p)%Z →
  (0 ≤ hp (applyBuff p (stat, delta)) ≤ maxHp (applyBuff p (stat, delta)))%Z.
Proof.
  intros Hd Hp. unfold applyBuff, pet_get, pet_set.
  repeat (case_bool_decide; simplify_eq/=); lia.
Qed.

Lemma foldl_applyBuff_nonneg (buffs : list (string * Z)) p :
  Forall (λ kv, 0 ≤ kv.2)%Z buffs → (0 ≤ hp p ≤ maxHp p)%Z →
  (0 ≤ hp (foldl applyBuff p buffs) ≤ maxHp (foldl applyBuff p buffs))%Z.
Proof.
  intros Hall. revert p. induction Hall as [|[stat delta] buffs Hd _ IH];
    intros p Hp; simpl; [done|].
  apply IH. by apply applyBuff_nonneg.
Qed.

Lemma catalogue_buffs r :
  r ∈ RECIPES → Forall (λ kv : string * Z, 0 ≤ kv.2)%Z (buff r).
Proof. intros H. catalogue H; repeat constructor; by vm_compute. Qed.

Lemma onPuzzleFail_hp g :
  (0 ≤ hp (petStats g) ≤ maxHp (petStats g))%Z →
  hp (petStats (onPuzzleFail g)) = Z.max 0 (hp (petStats g) - 10)
  ∧ maxHp (petStats (onPuzzleFail g)) = maxHp (petStats g)
  ∧ (0 ≤ hp (petStats (onPuzzleFail g)) ≤ maxHp (petStats (onPuzzleFail g)))%Z.
Proof. simpl. lia. Qed.

Lemma checkWinCondition_Inv w r :
  Inv w → currentRecipe (gs w) = Some r →
  ∃ w', GridManager.checkWinCondition w = Some w' ∧ Inv w'
    ∧ cfg w' = cfg w
    ∧ pz w' = (if GridManager.recipe_solved (gridData (pz w)) (sequence r)
               then set_isWon true (pz w) else pz w)
    ∧ gs w' = (if GridManager.recipe_solved (gridData (pz w)) (sequence r)
               then onPuzzleComplete r (moveCount (pz w))
                      (calculateRating w) (gs w)
               else gs w).
Proof.
  intros HI Hcur.
  unfold GridManager.checkWinCondition. rewrite (inv_mode _ HI), Hcur.
  destruct (GridManager.recipe_solved _ _); [|by eexists].
  unfold onPuzzleSolved. simpl. rewrite Hcur. simpl.
  eexists. split; [reflexivity|]. split; [|done].
  destruct (inv_recipe _ HI) as (r' & Hin & Hcur' & _).
  assert (r' = r) as -> by congruence.
  eapply Inv_ext; [..|exact HI]; try done.
  simpl. apply foldl_applyBuff_nonneg; [by apply catalogue_buffs|].
  apply (inv_hp _ HI).
Qed.

(** ** Moves *)

Import GridManager ShuffleSystem.

Ltac inv_ext HI :=
  eapply Inv_ext; [..|exact HI]; try done; try apply (inv_hp _ HI).

(** The tween's callback on a consistent board: it returns, and leaves the
    board as it is. For a move of the player it counts the move, then fails
    the session or runs the win check. *)
Lemma moveTile_settled_Inv isPlayerMove w :
  Inv w →
  ∃ w' k, moveTile_settled isPlayerMove w = Some (w', k) ∧ Inv w'
    ∧ cfg w' = cfg w
    ∧ gridData (pz w') = gridData (pz w)
    ∧ tiles (pz w') = tiles (pz w)
    ∧ emptyPos (pz w') = emptyPos (pz w)
    ∧ currentRecipe (gs w') = currentRecipe (gs w)
    ∧ (isPlayerMove = false →
         gs w' = gs w ∧ moveCount (pz w') = moveCount (pz w)
         ∧ isWon (pz w') = isWon (pz w) ∧ hasFailed (pz w') = hasFailed (pz w))
    ∧ (isPlayerMove = true →
         moveCount (pz w') = (moveCount (pz w) + 1)%Z
         ∧ ((MAX_MOVES (cfg w) ≤ moveCount (pz w) + 1)%Z → isWon (pz w) = false →
              hasFailed (pz w') = true ∧ isWon (pz w') = false
              ∧ gs w' = onPuzzleFail (gs w))
         ∧ (((moveCount (pz w) + 1 < MAX_MOVES (cfg w))%Z ∨ isWon (pz w) = true) →
              hasFailed (pz w') = hasFailed (pz w)
              ∧ puzzlesFailed (gs w') = puzzlesFailed (gs w)
              ∧ ∃ r, currentRecipe (gs w) = Some r
                  ∧ isWon (pz w')
                    = isWon (pz w)
                      || recipe_solved (gridData (pz w)) (sequence r))).
Proof.
  intros HI. unfold moveTile_settled.
  destruct isPlayerMove; simpl.
  2:{ eexists _, _. split; [reflexivity|]. split; [inv_ext HI|].
      by split_and!. }
  destruct (inv_recipe _ HI) as (r & Hin & Hcur & _).
  set (w2 := with_pz (λ p, set_moveCount (moveCount p + 1)%Z p)
               (with_pz (set_isAnimating false) w)).
  assert (HI2 : Inv w2) by inv_ext HI.
  destruct (bool_decide (MAX_MOVES (cfg w) ≤ moveCount (pz w) + 1)%Z
            && negb (isWon (pz w))) eqn:Hfail; simpl.
  - apply andb_true_iff in Hfail as [Hmax Hnw].
    apply bool_decide_eq_true in Hmax. apply negb_true_iff in Hnw.
    eexists _, _. split; [reflexivity|]. split.
    { eapply Inv_ext; [..|exact HI2]; try done.
      apply onPuzzleFail_hp, (inv_hp _ HI2). }
    split_and!; simpl; try done.
    intros _. split_and!; [done|by intros _ _|].
    intros [Hlt|Hw]; [lia|congruence].
  - destruct (checkWinCondition_Inv w2 r HI2 Hcur)
      as (w3 & Hw3 & HI3 & Hc3 & Hp3 & Hg3).
    rewrite Hw3. simpl. eexists _, _. split; [reflexivity|]. split; [done|].
    simpl in Hp3, Hg3.
    split_and!; try done;
      try (rewrite Hp3; by destruct (recipe_solved _ _)).
    + rewrite Hg3. by destruct (recipe_solved _ _).
    + intros _. split_and!.
      * rewrite Hp3. by destruct (recipe_solved _ _).
      * intros Hmax Hnw. apply andb_false_iff in Hfail as [Hfail|Hfail].
        -- apply bool_decide_eq_false in Hfail. lia.
        -- rewrite Hnw in Hfail. discriminate.
      * intros _. split_and!.
        -- rewrite Hp3. by destruct (recipe_solved _ _).
        -- rewrite Hg3. by destruct (recipe_solved _ _).
        -- exists r. split; [done|]. rewrite Hp3.
           destruct (recipe_solved _ _); simpl; by destruct (isWon (pz w)).
Qed.

(** A move of the shuffle: the primitive, then [isAnimating] is cleared. *)
Lemma moveTile_shuffle_Inv w i t :
  Inv w → tiles (pz w) !! i = Some t →
  ∃ w', moveTile i false w = Some w' ∧ Inv w'
    ∧ cfg w' = cfg w ∧ gs w' = gs w
    ∧ flat (gridData (pz w')) ≡ₚ flat (gridData (pz w))
    ∧ moveCount (pz w') = moveCount (pz w)
    ∧ isWon (pz w') = isWon (pz w)
    ∧ hasFailed (pz w') = hasFailed (pz w).
Proof.
  intros HI Hi.
  destruct (moveTile_apply_Inv w i t HI Hi)
    as (w1 & Hw1 & HI1 & Hc & Hg & _ & _ & _ & Hp & _ & Hm & _ & Hwon & Hf).
  destruct (moveTile_settled_Inv false w1 HI1)
    as (w' & k & E & HI' & Hc' & Hgd & _ & _ & _ & Hs & _).
  destruct (Hs eq_refl) as (Hg' & Hm' & Hwon' & Hf').
  unfold moveTile. rewrite Hw1. unfold mbind, option_bind. rewrite E. simpl.
  exists w'. split_and!; try done; try congruence.
Qed.

(** A move of the player: the primitive, then the count, the fail check and,
    unless the session failed, the win check. *)
Lemma moveTile_player_Inv w i t :
  Inv w → tiles (pz w) !! i = Some t →
  ∃ w', moveTile i true w = Some w' ∧ Inv w'
    ∧ cfg w' = cfg w
    ∧ flat (gridData (pz w')) ≡ₚ flat (gridData (pz w))
    ∧ currentRecipe (gs w') = currentRecipe (gs w)
    ∧ moveCount (pz w') = (moveCount (pz w) + 1)%Z
    ∧ ((MAX_MOVES (cfg w) ≤ moveCount (pz w) + 1)%Z → isWon (pz w) = false →
         hasFailed (pz w') = true ∧ isWon (pz w') = false
         ∧ gs w' = onPuzzleFail (gs w))
    ∧ (((moveCount (pz w) + 1 < MAX_MOVES (cfg w))%Z ∨ isWon (pz w) = true) →
         hasFailed (pz w') = hasFailed (pz w)
         ∧ puzzlesFailed (gs w') = puzzlesFailed (gs w)
         ∧ ∃ r, currentRecipe (gs w) = Some r
             ∧ isWon (pz w')
               = isWon (pz w) || recipe_solved (gridData (pz w')) (sequence r)).
Proof.
  intros HI Hi.
  destruct (moveTile_apply_Inv w i t HI Hi)
    as (w1 & Hw1 & HI1 & Hc & Hg & _ & _ & _ & Hp & _ & Hm & _ & Hwon & Hf).
  destruct (moveTile_settled_Inv true w1 HI1)
    as (w' & k & E & HI' & Hc' & Hgd & _ & _ & Hr & _ & Hs).
  destruct (Hs eq_refl) as (Hm' & Hfail & Hok).
  unfold moveTile. rewrite Hw1. unfold mbind, option_bind. rewrite E. simpl.
  rewrite Hc, Hm, Hwon, Hf, Hg in *.
  exists w'. split_and!; try done; try congruence.
  by rewrite Hgd.
Qed.

(** ** Steps of the shuffle and the invariant of the reachable worlds *)

Lemma legalTiles_spec p i :
  i ∈ legalTiles p ↔ ∃ t, tiles p !! i = Some t ∧ canTileMove t p = true.
Proof.
  unfold legalTiles, tile_can_move. rewrite list_elem_of_filter, elem_of_seq.
  split.
  - intros [H _]. destruct (tiles p !! i) as [t|]; [|done].
    exists t. split; [done|]. by apply Is_true_true.
  - intros (t & Ht & Hm). rewrite Ht. split; [by apply Is_true_true|].
    apply lookup_lt_Some in Ht. lia.
Qed.

Lemma movableTiles_legal lastMovedTile p i :
  i ∈ movableTiles lastMovedTile p → i ∈ legalTiles p.
Proof.
  unfold movableTiles. destruct lastMovedTile as [l|]; [|done].
  case_bool_decide; [|done]. rewrite list_elem_of_filter. tauto.
Qed.

Lemma random_index_lt r len : 0 < len → random_index r len < len.
Proof. intros H. unfold random_index. apply Nat.mod_upper_bound. lia. Qed.

(** A step of the walk moves a tile that can move, or no tile when none is
    a candidate. *)
Lemma makeShuffleMove_step_cases r lastMovedTile w :
  Inv w →
  (movableTiles lastMovedTile (pz w) = []
   ∧ makeShuffleMove_step r lastMovedTile w = Some (w, None))
  ∨ (∃ i t w', i ∈ movableTiles lastMovedTile (pz w)
       ∧ tiles (pz w) !! i = Some t ∧ canTileMove t (pz w) = true
       ∧ moveTile i false w = Some w'
       ∧ makeShuffleMove_step r lastMovedTile w = Some (w', Some i)).
Proof.
  intros HI. unfold makeShuffleMove_step.
  destruct (movableTiles lastMovedTile (pz w)) as [|c cs] eqn:Hcs.
  { left. by rewrite bool_decide_false by (simpl; lia). }
  right. rewrite bool_decide_true by (simpl; lia).
  destruct (lookup_lt_is_Some_2 (c :: cs) (random_index r (length (c :: cs))))
    as [i Hi]; [apply random_index_lt; simpl; lia|].
  rewrite Hi. simpl.
  assert (Hin : i ∈ movableTiles lastMovedTile (pz w)).
  { rewrite Hcs. eauto using list_elem_of_lookup_2. }
  destruct (proj1 (legalTiles_spec _ _) (movableTiles_legal _ _ _ Hin))
    as (t & Ht & Hm).
  destruct (moveTile_shuffle_Inv w i t HI Ht) as (w' & Hw' & _).
  exists i, t, w'. rewrite Hw'. simpl. by rewrite <- Hcs.
Qed.

Lemma shuffle_start_Inv w :
  Inv w → ∃ w', shuffle_start w = Some w' ∧ Inv w'
                ∧ cfg w' = cfg w ∧ gs w' = gs w.
Proof.
  intros HI. unfold shuffle_start.
  destruct (resetGridToSolved_Inv (with_pz (set_isShuffling true) w))
    as (w' & Hw' & HI' & Hc & Hg & _); [inv_ext HI|].
  by exists w'.
Qed.

(** Every reachable world satisfies the invariant. *)
Lemma reachable_Inv w : reachable w → Inv w.
Proof.
  induction 1 as [w H|w w' _ IH H|w i w' _ IH Hm H|w b w' k _ IH H
                 |w picked _ IH|w picked _ IH|w _ IH|w _ IH|w w' _ IH H].
  - by apply create_setup_Inv.
  - destruct (shuffle_start_Inv w IH) as (w1 & Hw1 & HI1 & _). congruence.
  - unfold tile_can_move in Hm.
    destruct (tiles (pz w) !! i) as [t|] eqn:Ht; [|done].
    destruct (moveTile_apply_Inv w i t IH Ht) as (w1 & Hw1 & HI1 & _).
    congruence.
  - destruct (moveTile_settled_Inv b w IH) as (w1 & k1 & Hw1 & HI1 & _).
    congruence.
  - eapply Inv_ext; [..|exact IH]; try done; [apply (inv_hp _ IH)|].
    apply hybrid_swap_logical.
  - eapply Inv_ext; [..|exact IH]; try done; [apply (inv_hp _ IH)|].
    apply hybrid_settle_logical.
  - inv_ext IH.
  - inv_ext IH.
  - destruct (cycle_setup_Inv w IH) as (w1 & Hw1 & HI1). congruence.
Qed.

(** ** The runs of the program stay among the reachable worlds *)

Lemma moveTile_reachable w i isPlayerMove w' :
  reachable w → tile_can_move (pz w) i = true →
  moveTile i isPlayerMove w = Some w' → reachable w'.
Proof.
  intros Hw Hm. unfold moveTile.
  destruct (moveTile_apply i w) as [w1|] eqn:E1; simpl; [|done].
  destruct (moveTile_settled isPlayerMove w1) as [[w2 k]|] eqn:E2; simpl; [|done].
  intros [= <-]. eapply reach_move_settled; [|exact E2].
  by eapply reach_move_apply.
Qed.

Lemma makeShuffleMove_step_reachable r lastMovedTile w w' moved :
  reachable w → makeShuffleMove_step r lastMovedTile w = Some (w', moved) →
  reachable w'.
Proof.
  intros Hw H.
  destruct (makeShuffleMove_step_cases r lastMovedTile w (reachable_Inv _ Hw))
    as [[_ E]|(i & t & w1 & _ & Ht & Hm & Hmv & E)];
    rewrite E in H; injection H as <- <-; [done|].
  eapply moveTile_reachable; [done| |exact Hmv].
  unfold tile_can_move. by rewrite Ht.
Qed.

Lemma onTileClick_reachable w i w' :
  reachable w → onTileClick i w = Some w' → reachable w'.
Proof.
  intros Hw. unfold onTileClick.
  destruct (isAnimating (pz w) || isShuffling (pz w) || isWon (pz w)
            || hasFailed (pz w)); [by intros [= <-]|].
  destruct (tiles (pz w) !! i) as [t|] eqn:Ht; simpl; [|done].
  destruct (canTileMove t (pz w)) eqn:Hm; simpl; [|by intros [= <-]].
  apply moveTile_reachable; [done|]. unfold tile_can_move. by rewrite Ht.
Qed.

Lemma makeHybridMove_round_reachable coin draw w :
  reachable w → reachable (makeHybridMove_round coin draw w).1.
Proof.
  intros Hw. unfold makeHybridMove_round. simpl.
  set (picked := hybrid_pick coin draw (tiles (pz w))).
  exact (reach_hybrid_settle _ picked (reach_hybrid_swap _ picked Hw)).
Qed.

Lemma makeHybridMove_reachable o n k w :
  reachable w → reachable (makeHybridMove o n k w).
Proof.
  revert k w. induction n as [|n IH]; intros k w Hw; cbn [makeHybridMove].
  - by apply reach_shuffle_end.
  - pose proof (makeHybridMove_round_reachable (hybrid_coin o k)
                  (hybrid_draw o k) w Hw) as H1.
    destruct (makeHybridMove_round (hybrid_coin o k) (hybrid_draw o k) w)
      as [w1 next]. simpl in H1. destruct next; [by apply IH|done].
Qed.

Lemma shuffle_finish_reachable o w :
  reachable w → reachable (shuffle_finish o w).
Proof.
  intros Hw. unfold shuffle_finish, performHybridShuffle.
  destruct (ENABLE_HYBRID_SHUFFLE (cfg w));
    [by apply makeHybridMove_reachable | by apply reach_shuffle_end].
Qed.

Lemma makeShuffleMove_step_total r lastMovedTile w :
  Inv w → ∃ w' moved, makeShuffleMove_step r lastMovedTile w = Some (w', moved).
Proof.
  intros HI.
  destruct (makeShuffleMove_step_cases r lastMovedTile w HI)
    as [[_ E]|(i & t & w1 & _ & _ & _ & _ & E)]; eauto.
Qed.

Lemma shuffleWalk_total o n c lastMovedTile w :
  reachable w →
  ∃ steps wEnd, shuffleWalk o n c lastMovedTile w = Some (steps, wEnd)
                ∧ length steps = n ∧ reachable wEnd.
Proof.
  revert c lastMovedTile w.
  induction n as [|n IH]; intros c l w Hw; simpl; [by eexists _, _|].
  destruct (makeShuffleMove_step_total (walk_draw o c) l w (reachable_Inv _ Hw))
    as (w1 & moved & E).
  rewrite E. simpl.
  destruct (IH (S c) (next_last l moved) w1) as (steps & wEnd & E' & Hl & Hr);
    [by eapply makeShuffleMove_step_reachable|].
  rewrite E'. simpl. eexists _, _. split; [reflexivity|]. simpl. by rewrite Hl.
Qed.

(** [makeShuffleMove] is the recorded walk followed by the last branch. *)
Lemma makeShuffleMove_walk o n c lastMovedTile w :
  makeShuffleMove o n c lastMovedTile w
  = '(_, wEnd) ← shuffleWalk o n c lastMovedTile w;
    Some (shuffle_finish o wEnd).
Proof.
  revert c lastMovedTile w. induction n as [|n IH]; intros c l w; simpl; [done|].
  destruct (makeShuffleMove_step (walk_draw o c) l w) as [[w1 moved]|];
    simpl; [|done].
  rewrite IH.
  by destruct (shuffleWalk o n (S c) (next_last l moved) w1) as [[steps wEnd]|].
Qed.

Lemma makeShuffleMove_reachable o n c lastMovedTile w :
  reachable w →
  ∃ w', makeShuffleMove o n c lastMovedTile w = Some w' ∧ reachable w'.
Proof.
  intros Hw. rewrite makeShuffleMove_walk.
  destruct (shuffleWalk_total o n c lastMovedTile w Hw)
    as (steps & wEnd & E & _ & Hr).
  rewrite E. simpl. eexists. split; [reflexivity|].
  by apply shuffle_finish_reachable.
Qed.

Lemma performAnimatedShuffle_reachable o w :
  reachable w →
  ∃ w', performAnimatedShuffle o w = Some w' ∧ reachable w'.
Proof.
  intros Hw. unfold performAnimatedShuffle.
  destruct (shuffle_start_Inv w (reachable_Inv _ Hw)) as (w1 & E & _).
  rewrite E. simpl. apply makeShuffleMove_reachable.
  by eapply reach_shuffle_start.
Qed.

Lemma create_reachable o : ∃ w, create o = Some w ∧ reachable w.
Proof.
  unfold create. destruct create_setup_Some as [w0 E]. rewrite E. simpl.
  apply performAnimatedShuffle_reachable. by apply reach_create.
Qed.

Lemma resetPuzzle_reachable o w :
  reachable w → ∃ w', resetPuzzle o w = Some w' ∧ reachable w'.
Proof.
  intros Hw. apply performAnimatedShuffle_reachable.
  by apply reach_reset_fields.
Qed.

Lemma cycleToNextRecipe_reachable o w :
  reachable w → ∃ w', cycleToNextRecipe o w = Some w' ∧ reachable w'.
Proof.
  intros Hw. unfold cycleToNextRecipe.
  rewrite (inv_mode _ (reachable_Inv _ Hw)). simpl.
  destruct (cycle_setup_Inv w (reachable_Inv _ Hw)) as (w1 & E & _).
  rewrite E. simpl.
  destruct (performAnimatedShuffle_reachable o w1) as (w2 & E2 & Hr);
    [by eapply reach_cycle|].
  rewrite E2. simpl. eexists. split; [reflexivity|].
  by apply reach_reset_fields.
Qed.

Lemma play_reachable clicks w w' :
  reachable w → play clicks w = Some w' → reachable w'.
Proof.
  unfold play. revert w. induction clicks as [|i clicks IH]; intros w Hw; simpl.
  - by intros [= <-].
  - destruct (onTileClick i w) as [w1|] eqn:E; simpl.
    + apply IH. by eapply onTileClick_reachable.
    + assert (∀ l, foldl (λ acc i, acc ≫= onTileClick i) None l = None) as ->;
        [|done].
      induction l; simpl; auto.
Qed.

Lemma leafyStart_reachable : reachable leafyStart.
Proof. apply reach_create. by vm_compute. Qed.

Lemma gardenStart_reachable : reachable gardenStart.
Proof.
  assert (∃ w1 w2, cycle_setup leafyStart = Some w1
                   ∧ cycle_setup w1 = Some w2
                   ∧ cycle_setup w2 = Some gardenStart) as (w1 & w2 & E1 & E2 & E3).
  { eexists _, _. split_and!; vm_compute; reflexivity. }
  eapply reach_cycle; [|exact E3]. eapply reach_cycle; [|exact E2].
  eapply reach_cycle; [|exact E1]. apply leafyStart_reachable.
Qed.

Lemma garden48_reachable : reachable garden48.
Proof.
  apply (play_reachable ([2; 1; 0] ++ replicate 45 3) gardenStart);
    [apply gardenStart_reachable | by vm_compute].
Qed.

Lemma garden49_reachable : reachable garden49.
Proof.
  apply (play_reachable ([2; 1; 0] ++ replicate 46 3) gardenStart);
    [apply gardenStart_reachable | by vm_compute].
Qed.

(** ** The win check *)

Lemma every_prefix (flatGrid targetSequence : list Z) :
  forallb (λ b : bool, b)
    (imap (λ index targetId, bool_decide (flatGrid !! index = Some targetId))
          targetSequence) = true
  ↔ take (length targetSequence) flatGrid = targetSequence.
Proof.
  revert flatGrid. induction targetSequence as [|x s IH]; intros l.
  - by rewrite take_0.
  - rewrite imap_cons. simpl. rewrite andb_true_iff, bool_decide_eq_true.
    destruct l as [|a l]; simpl.
    + split; [intros [[=] _] | intros [=]].
    + specialize (IH l). unfold compose. simpl.
      split.
      * intros [[= ->] H]. f_equal. by apply IH.
      * intros [= -> H]. split; [done|]. by apply IH.
Qed.

Lemma recipe_solved_spec g targetSequence :
  recipe_solved g targetSequence = true
  ↔ take (length targetSequence) (flat g) = targetSequence.
Proof. apply every_prefix. Qed.

(** C1: in recipe mode the win check compares the first
    [targetSequence.length] cells of the flattened grid with the recipe's
    sequence and nothing else: when they agree the puzzle is reported won
    ([isWon] set, a completion recorded), when they differ the check changes
    nothing. For leafy_stack a board that starts 1,2,3,8 is won whatever the
    other cells hold, one that starts 1,2,8,3 is not. *)
Theorem C1_win_check_prefix (w : World) (r : Recipe) :
  RECIPE_MODE (cfg w) = true → currentRecipe (gs w) = Some r →
  (take (length (sequence r)) (flat (gridData (pz w))) = sequence r →
     ∃ w', checkWinCondition w = Some w' ∧ isWon (pz w') = true
           ∧ lastResult (gs w') = Some win)
  ∧ (take (length (sequence r)) (flat (gridData (pz w))) ≠ sequence r →
       checkWinCondition w = Some w)
  ∧ (r = leafy_stack → ∀ rest,
       flat (gridData (pz w)) = [1; 2; 3; 8]%Z ++ rest →
       ∃ w', checkWinCondition w = Some w' ∧ isWon (pz w') = true)
  ∧ (r = leafy_stack → ∀ rest,
       flat (gridData (pz w)) = [1; 2; 8; 3]%Z ++ rest →
       checkWinCondition w = Some w).
Proof.
  intros Hmode Hcur.
  assert (Hyes : take (length (sequence r)) (flat (gridData (pz w))) = sequence r →
     ∃ w', checkWinCondition w = Some w' ∧ isWon (pz w') = true
           ∧ lastResult (gs w') = Some win).
  { intros H. apply recipe_solved_spec in H.
    unfold checkWinCondition. rewrite Hmode, Hcur, H.
    unfold onPuzzleSolved. simpl. rewrite Hcur. simpl. by eexists. }
  assert (Hno : take (length (sequence r)) (flat (gridData (pz w))) ≠ sequence r →
     checkWinCondition w = Some w).
  { intros H. unfold checkWinCondition. rewrite Hmode, Hcur.
    destruct (recipe_solved _ _) eqn:E; [|done].
    by apply recipe_solved_spec in E. }
  split_and!; try done.
  - intros -> rest Hflat.
    destruct Hyes as (w' & E & Hwon & _); [by rewrite Hflat|]. eauto.
  - intros -> rest Hflat. apply Hno. by rewrite Hflat.
Qed.

Lemma C1_win_check_prefix_witness :
  ∃ w', checkWinCondition leafyStart = Some w' ∧ isWon (pz w') = true.
Proof.
  destruct (C1_win_check_prefix leafyStart leafy_stack eq_refl eq_refl)
    as (_ & _ & H & _).
  apply (H eq_refl [0; 0; 0; 0; 0]%Z). reflexivity.
Defined.

(** ** The fail check *)

(** C2: a move of the player counts the move, then checks the budget before
    the win check. When the new count reaches [MAX_MOVES] and the puzzle is
    not won, the session fails, [onPuzzleFail] is the only event and the win
    check is not run ([isWon] stays false and [GameState] is exactly what the
    failure hook leaves, whatever the grid holds). Below the budget nothing
    fails and the win check decides [isWon]. With [MAX_MOVES] = 50 the move
    from 49 fails, the move from 48 does not. *)
Theorem C2_fail_check_first (w : World) (i : nat) (t : Tile) :
  reachable w → tiles (pz w) !! i = Some t →
  ∃ w', moveTile i true w = Some w'
    ∧ moveCount (pz w') = (moveCount (pz w) + 1)%Z
    ∧ ((MAX_MOVES (cfg w) ≤ moveCount (pz w) + 1)%Z → isWon (pz w) = false →
         hasFailed (pz w') = true ∧ isWon (pz w') = false
         ∧ gs w' = onPuzzleFail (gs w))
    ∧ (((moveCount (pz w) + 1 < MAX_MOVES (cfg w))%Z ∨ isWon (pz w) = true) →
         hasFailed (pz w') = hasFailed (pz w)
         ∧ puzzlesFailed (gs w') = puzzlesFailed (gs w)
         ∧ ∃ r, currentRecipe (gs w) = Some r
             ∧ isWon (pz w')
               = isWon (pz w) || recipe_solved (gridData (pz w')) (sequence r))
    ∧ (MAX_MOVES (cfg w) = 50%Z → moveCount (pz w) = 49%Z →
         isWon (pz w) = false → hasFailed (pz w') = true)
    ∧ (MAX_MOVES (cfg w) = 50%Z → moveCount (pz w) = 48%Z →
         hasFailed (pz w') = hasFailed (pz w)).
Proof.
  intros Hw Hi.
  destruct (moveTile_player_Inv w i t (reachable_Inv _ Hw) Hi)
    as (w' & E & _ & _ & _ & _ & Hm & Hfail & Hok).
  exists w'. split_and!; try done.
  - intros Hmax Hmc Hwon. apply Hfail; [lia|done].
  - intros Hmax Hmc. apply Hok. left. lia.
Qed.

Lemma C2_fail_check_first_witness :
  (∃ w', moveTile 3 true garden49 = Some w' ∧ hasFailed (pz w') = true)
  ∧ (∃ w', moveTile 3 true garden48 = Some w' ∧ hasFailed (pz w') = false).
Proof.
  split.
  - destruct (C2_fail_check_first garden49 3
                {| tile_id := 7; currentRow := 1; currentCol := 0;
                   container := (105, 370)%Z |}
                garden49_reachable eq_refl)
      as (w' & E & _ & _ & _ & H49 & _).
    exists w'. split; [exact E|]. apply H49; reflexivity.
  - destruct (C2_fail_check_first garden48 3
                {| tile_id := 7; currentRow := 0; currentCol := 0;
                   container := (105, 240)%Z |}
                garden48_reachable eq_refl)
      as (w' & E & _ & _ & _ & _ & H48).
    exists w'. split; [exact E|]. rewrite H48; reflexivity.
Defined.

(** ** The rating *)

Lemma Qle_bool_inject (a b : Z) : Qle_bool (inject_Z a) (inject_Z b) = (a <=? b)%Z.
Proof. unfold Qle_bool, inject_Z. simpl. by rewrite !Z.mul_1_r. Qed.

Lemma Qle_bool_times_1_5 (a b : Z) :
  Qle_bool (inject_Z a) (times_1_5 b) = (2 * a <=? round53 (3 * b))%Z.
Proof.
  unfold Qle_bool, times_1_5, inject_Z. cbn [Qnum Qden].
  apply eq_true_iff_eq. rewrite !Z.leb_le. lia.
Qed.

Lemma Qle_bool_inject_2 (a b : Z) :
  Qle_bool (inject_Z a) (inject_Z b * 2) = (a <=? 2 * b)%Z.
Proof.
  unfold Qle_bool, inject_Z. simpl.
  apply eq_true_iff_eq. rewrite !Z.leb_le. lia.
Qed.

(** An integer of at most 53 bits is a double: the product is exact. *)
Lemma round53_exact (n : Z) : (Z.abs n < 2 ^ 53)%Z → round53 n = n.
Proof.
  intros Hn. unfold round53. cbv zeta.
  destruct (Z.leb_spec (Z.log2 (Z.abs n) - 52) 0) as [|Hs]; [done|].
  exfalso. assert (0 < Z.abs n)%Z as Hpos.
  { destruct (Z.abs n) eqn:E; [by vm_compute in Hs|lia|lia]. }
  pose proof (Z.log2_lt_pow2 (Z.abs n) 53 Hpos) as [H _]. specialize (H Hn). lia.
Qed.

(** Rounded or not, [x * 1.5] is at most [x * 2] for a threshold that is not
    negative. *)
Lemma round53_le (x : Z) : (0 ≤ x)%Z → (round53 (3 * x) ≤ 4 * x)%Z.
Proof.
  intros Hx. unfold round53. cbv zeta.
  destruct (Z.leb_spec (Z.log2 (Z.abs (3 * x)) - 52) 0) as [|Hs]; [lia|].
  rewrite (Z.abs_eq (3 * x)) in * by lia.
  set (m := (3 * x)%Z) in *. set (s := (Z.log2 m - 52)%Z) in *.
  assert (0 < m)%Z as Hm.
  { destruct (Z.eq_dec m 0%Z) as [E|]; [|lia]. subst s. rewrite E in Hs.
    by vm_compute in Hs. }
  assert (0 < 2 ^ s)%Z as HP by (apply Z.pow_pos_nonneg; lia).
  assert (2 ^ 52 * 2 ^ s ≤ m)%Z as Hlow.
  { rewrite <- Z.pow_add_r by lia. replace (52 + s)%Z with (Z.log2 m) by lia.
    apply Z.log2_spec. lia. }
  assert (2 ^ 52 ≤ m / 2 ^ s)%Z as Hq
    by (apply Z.div_le_lower_bound; lia).
  pose proof (Z.mul_div_le m (2 ^ s) HP) as Hdiv.
  rewrite Z.sgn_pos by lia.
  set (q := (m / 2 ^ s)%Z) in *.
  assert (2 ^ 52 = 4503599627370496)%Z as E52 by reflexivity.
  destruct (_ || _); nia.
Qed.

Lemma calculateRating_cases w :
  calculateRating w
  = if (moveCount (pz w) <=? OPTIMAL_MOVES (cfg w))%Z then Stars3
    else if (2 * moveCount (pz w) <=? round53 (3 * OPTIMAL_MOVES (cfg w)))%Z
         then Stars2
    else if (moveCount (pz w) <=? 2 * OPTIMAL_MOVES (cfg w))%Z then Stars1
    else Skull.
Proof.
  unfold calculateRating. cbv zeta.
  by rewrite Qle_bool_inject, Qle_bool_times_1_5, Qle_bool_inject_2.
Qed.

Lemma reachable_optimal w :
  reachable w → (15 ≤ OPTIMAL_MOVES (cfg w) ≤ 35)%Z.
Proof.
  intros Hw. destruct (inv_recipe _ (reachable_Inv _ Hw))
    as (r & Hr & _ & _ & _ & -> & _).
  catalogue Hr; by vm_compute.
Qed.

(** C3: the rating is a cascade of inclusive comparisons of the move count
    with the effective optimal value (the recipe's, or 20 when the recipe has
    none): at most optimal, three stars; else at most optimal × 1.5, two;
    else at most optimal × 2, one; else the skull. The product
    [optimal * 1.5] is computed in doubles: it is the exact one for every
    threshold below 2^53 / 3, those of all reachable worlds among them, and
    the nearest double beyond. With optimal = 20: 20 moves give three stars,
    30 two, 31 one, 40 one and 41 the skull. *)
Theorem C3_rating_thresholds :
  (∀ w, (3 * Z.abs (OPTIMAL_MOVES (cfg w)) < 2 ^ 53)%Z →
        calculateRating w =
        let optimal := OPTIMAL_MOVES (cfg w) in
        let moves := moveCount (pz w) in
        if decide (moves ≤ optimal)%Z then Stars3
        else if decide (2 * moves ≤ 3 * optimal)%Z then Stars2
        else if decide (moves ≤ 2 * optimal)%Z then Stars1
        else Skull)
  ∧ (∀ w, reachable w →
        calculateRating w =
        let optimal := OPTIMAL_MOVES (cfg w) in
        let moves := moveCount (pz w) in
        if decide (moves ≤ optimal)%Z then Stars3
        else if decide (2 * moves ≤ 3 * optimal)%Z then Stars2
        else if decide (moves ≤ 2 * optimal)%Z then Stars1
        else Skull)
  ∧ (∀ w, calculateRating w =
        let optimal := OPTIMAL_MOVES (cfg w) in
        let moves := moveCount (pz w) in
        if decide (moves ≤ optimal)%Z then Stars3
        else if decide (2 * moves ≤ round53 (3 * optimal))%Z then Stars2
        else if decide (moves ≤ 2 * optimal)%Z then Stars1
        else Skull)
  ∧ (∀ w, OPTIMAL_MOVES (cfg w) = (2 ^ 52 + 1)%Z →
          moveCount (pz w) = 6755399441055746%Z →
          calculateRating w = Stars2
          ∧ ¬ (2 * moveCount (pz w) ≤ 3 * OPTIMAL_MOVES (cfg w))%Z)
  ∧ (∀ recipe moves w,
       OPTIMAL_MOVES (cfg (ratedAt recipe moves w))
       = match optimalMoves recipe with
         | Some 0%Z | None => 20%Z
         | Some v => v
         end
       ∧ moveCount (pz (ratedAt recipe moves w)) = moves)
  ∧ (∀ w, optimalMoves garden_delight = Some 20%Z
          ∧ calculateRating (ratedAt garden_delight 20 w) = Stars3
          ∧ calculateRating (ratedAt garden_delight 21 w) = Stars2
          ∧ calculateRating (ratedAt garden_delight 30 w) = Stars2
          ∧ calculateRating (ratedAt garden_delight 31 w) = Stars1
          ∧ calculateRating (ratedAt garden_delight 40 w) = Stars1
          ∧ calculateRating (ratedAt garden_delight 41 w) = Skull).
Proof.
  assert (∀ w, calculateRating w =
            if decide (moveCount (pz w) ≤ OPTIMAL_MOVES (cfg w))%Z then Stars3
            else if decide (2 * moveCount (pz w)
                            ≤ round53 (3 * OPTIMAL_MOVES (cfg w)))%Z then Stars2
            else if decide (moveCount (pz w) ≤ 2 * OPTIMAL_MOVES (cfg w))%Z
                 then Stars1
            else Skull) as Hcases.
  { intros w. rewrite calculateRating_cases.
    repeat case_decide;
      repeat match goal with
             | |- context [(?a <=? ?b)%Z] => destruct (Z.leb_spec a b)
             end; try done; lia. }
  assert (∀ w, (3 * Z.abs (OPTIMAL_MOVES (cfg w)) < 2 ^ 53)%Z →
            round53 (3 * OPTIMAL_MOVES (cfg w)) = (3 * OPTIMAL_MOVES (cfg w))%Z)
    as Hexact by (intros w Hb; apply round53_exact; lia).
  split_and!.
  - intros w Hb. cbv zeta. by rewrite Hcases, (Hexact w Hb).
  - intros w Hw. cbv zeta. rewrite Hcases, Hexact; [done|].
    pose proof (reachable_optimal w Hw). lia.
  - intros w. apply Hcases.
  - intros w Hopt Hm. split; [|rewrite Hopt, Hm; by vm_compute].
    rewrite calculateRating_cases, Hopt, Hm. reflexivity.
  - intros recipe moves w. split; [|done]. simpl.
    unfold RecipeSystem.or_default_Z. by destruct (optimalMoves recipe) as [[]|].
  - intros w. split_and!; reflexivity.
Qed.

Lemma C3_rating_thresholds_witness :
  (3 * Z.abs (OPTIMAL_MOVES (cfg (ratedAt garden_delight 30 initialWorld)))
   < 2 ^ 53)%Z
  ∧ calculateRating (ratedAt garden_delight 30 initialWorld) = Stars2.
Proof.
  assert (3 * Z.abs (OPTIMAL_MOVES (cfg (ratedAt garden_delight 30 initialWorld)))
          < 2 ^ 53)%Z as Hb by (by vm_compute).
  split; [exact Hb|].
  destruct C3_rating_thresholds as [H _].
  rewrite (H (ratedAt garden_delight 30 initialWorld) Hb). reflexivity.
Defined.

(** ** The move primitive and its callers *)

Lemma canTileMove_adjacent t p :
  canTileMove t p = true ↔ adjacent (currentRow t, currentCol t) (emptyPos p).
Proof.
  unfold canTileMove, adjacent. simpl.
  rewrite orb_true_iff, !andb_true_iff, !bool_decide_eq_true. lia.
Qed.

(** What the tween's callback leaves alone. *)
Lemma moveTile_settled_board isPlayerMove w w' k :
  moveTile_settled isPlayerMove w = Some (w', k) →
  gridData (pz w') = gridData (pz w) ∧ tiles (pz w') = tiles (pz w)
  ∧ emptyPos (pz w') = emptyPos (pz w).
Proof.
  unfold moveTile_settled.
  destruct isPlayerMove; [|intros; simplify_eq/=; by split_and!].
  destruct (_ && _); [intros; simplify_eq/=; by split_and!|].
  unfold checkWinCondition, onPuzzleSolved. simpl.
  destruct (RECIPE_MODE (cfg w)), (currentRecipe (gs w)); simpl;
    try destruct (recipe_solved _ _); simpl;
    try (destruct (legacy_solved _ _) as [[]|]; simpl);
    intros; simplify_eq/=; by split_and!.
Qed.

(** C4 (amended): [moveTile] has no InvalidMove condition. On a reachable
    board it applies the swap to any tile, adjacent to the empty cell or not:
    the tile's cell becomes 0, the former empty cell takes its id and
    [emptyPos] its former cell. A tile that cannot move is kept away by the
    callers: [onTileClick] leaves the world as it is, and a step of the
    shuffle only moves a tile for which [canTileMove] holds. *)
Theorem C4_moveTile_unguarded (w : World) (i : nat) (t : Tile) :
  reachable w → tiles (pz w) !! i = Some t →
  (canTileMove t (pz w) = true
   ↔ adjacent (currentRow t, currentCol t) (emptyPos (pz w)))
  ∧ (∀ isPlayerMove, ∃ w',
       moveTile i isPlayerMove w = Some w'
       ∧ cellOf (gridData (pz w')) t = Some (Some 0%Z)
       ∧ grid_read (gridData (pz w')) (emptyPos (pz w)).1 (emptyPos (pz w)).2
           = Some (Some (tile_id t))
       ∧ emptyPos (pz w') = (currentRow t, currentCol t))
  ∧ (canTileMove t (pz w) = false → onTileClick i w = Some w)
  ∧ (∀ r lastMovedTile w' j,
       makeShuffleMove_step r lastMovedTile w = Some (w', Some j) →
       tile_can_move (pz w) j = true).
Proof.
  intros Hw Hi. pose proof (reachable_Inv _ Hw) as HI.
  split_and!.
  - apply canTileMove_adjacent.
  - intros b.
    destruct (moveTile_apply_Inv w i t HI Hi)
      as (w1 & E1 & HI1 & _ & _ & He & Hc & Hr & _).
    assert (∃ w', moveTile i b w = Some w') as [w' E].
    { destruct b.
      - destruct (moveTile_player_Inv w i t HI Hi) as (w' & E & _). eauto.
      - destruct (moveTile_shuffle_Inv w i t HI Hi) as (w' & E & _). eauto. }
    exists w'. split; [done|].
    unfold moveTile in E. rewrite E1 in E. simpl in E.
    destruct (moveTile_settled b w1) as [[w2 k]|] eqn:E2; [|done].
    injection E as <-. simpl.
    destruct (moveTile_settled_board _ _ _ _ E2) as (Hg & _ & Hep).
    unfold cellOf in *. by rewrite Hg, Hep.
  - intros Hno. unfold onTileClick. rewrite Hi. simpl. rewrite Hno. simpl.
    by destruct (_ || _).
  - intros r l w' j E.
    destruct (makeShuffleMove_step_cases r l w HI)
      as [[_ E']|(j' & t' & w1 & _ & Ht & Hm & _ & E')];
      rewrite E' in E; [done|]. injection E as <- <-.
    unfold tile_can_move. by rewrite Ht.
Qed.

Lemma C4_moveTile_unguarded_witness :
  ∃ w', moveTile 0 false leafyStart = Some w'
        ∧ emptyPos (pz w') = (0, 0).
Proof.
  destruct (C4_moveTile_unguarded leafyStart 0
              {| tile_id := 1; currentRow := 0; currentCol := 0;
                 container := (105, 240)%Z |}
              leafyStart_reachable eq_refl) as (_ & H & _).
  destruct (H false) as (w' & E & _ & _ & Hep). exists w'. by split.
Defined.

(** The claim as it stands fails: tile 1 of the start of leafy_stack stands
    on (0,0), two steps from the empty cell (1,2); [moveTile] returns a world
    all the same, with the tile's id written over the empty cell. *)
Lemma C4_counterexample :
  let t := {| tile_id := 1; currentRow := 0; currentCol := 0;
              container := (105, 240)%Z |} in
  tiles (pz leafyStart) !! 0 = Some t
  ∧ emptyPos (pz leafyStart) = (1, 2)
  ∧ canTileMove t (pz leafyStart) = false
  ∧ ¬ adjacent (currentRow t, currentCol t) (emptyPos (pz leafyStart))
  ∧ ∃ w', moveTile 0 true leafyStart = Some w'
      ∧ gridData (pz w')
        = [[Some 0; Some 2; Some 3]; [Some 8; Some 0; Some 1];
           [Some 0; Some 0; Some 0]]%Z
      ∧ gridData (pz w') ≠ gridData (pz leafyStart).
Proof.
  simpl. split_and!; try reflexivity.
  - intros Hadj.
    apply (canTileMove_adjacent
             {| tile_id := 1; currentRow := 0; currentCol := 0;
                container := (105, 240)%Z |} (pz leafyStart)) in Hadj.
    by vm_compute in Hadj.
  - eexists. split_and!; [vm_compute; reflexivity|reflexivity|by vm_compute].
Qed.

(** ** What the empty-cell search returns *)

Section empty_search.
Implicit Types (rowArr : jsarray) (g : list jsarray) (ep : nat * nat).

(** A row without a 0 among its first [n] cells leaves [emptyPos] alone. *)
Lemma scan_empty_cols_miss rowArr row n ep :
(∀ c, c < n → js_read rowArr c ≠ Some 0%Z) →
scan_empty_cols rowArr row n ep = ep.
Proof.
induction n as [|n IH]; intros Hno; simpl; [done|].
rewrite bool_decide_false by (apply Hno; lia).
apply IH. intros c Hc. apply Hno. lia.
Qed.

(** A row with one sets it to its rightmost 0. *)
Lemma scan_empty_cols_hit rowArr row n ep c :
c < n → js_read rowArr c = Some 0%Z →
(∀ c', c < c' < n → js_read rowArr c' ≠ Some 0%Z) →
scan_empty_cols rowArr row n ep = (row, c).
Proof.
induction n as [|n IH]; intros Hc Hz Hright; simpl; [lia|].
destruct (decide (c = n)) as [->|Hne].
- by rewrite bool_decide_true.
- rewrite bool_decide_false by (apply Hright; lia).
  apply IH; [lia|done|]. intros c' Hc'. apply Hright. lia.
Qed.

Lemma scan_empty_rows_miss g n k ep :
(∀ r, r < k → ∃ rowArr, g !! r = Some rowArr
               ∧ ∀ c, c < n → js_read rowArr c ≠ Some 0%Z) →
scan_empty_rows g n k ep = Some ep.
Proof.
induction k as [|k IH]; intros Hno; simpl; [done|].
destruct (Hno k) as (rowArr & -> & Hrow); [lia|]. simpl.
rewrite scan_empty_cols_miss by done. apply IH. intros r Hr. apply Hno. lia.
Qed.

(** The search does not stop at its first hit: of the rows that hold a 0 the
  topmost one decides, and [emptyPos] is its rightmost 0. *)
Lemma scan_empty_rows_topmost g n k ep r rowArr c :
r < k → (∀ r', r' < k → is_Some (g !! r')) →
g !! r = Some rowArr →
c < n → js_read rowArr c = Some 0%Z →
(∀ c', c < c' < n → js_read rowArr c' ≠ Some 0%Z) →
(∀ r' rowArr' c', r' < r → g !! r' = Some rowArr' → c' < n →
                  js_read rowArr' c' ≠ Some 0%Z) →
scan_empty_rows g n k ep = Some (r, c).
Proof.
revert ep. induction k as [|k IH]; intros ep Hr Hrows Hrow Hc Hz Hright Habove;
  simpl; [lia|].
destruct (decide (r = k)) as [->|Hne].
- rewrite Hrow. simpl. rewrite (scan_empty_cols_hit _ _ _ _ c) by done.
  apply scan_empty_rows_miss. intros r' Hr'.
  destruct (Hrows r') as [rowArr' Hrow']; [lia|].
  exists rowArr'. split; [done|]. intros c' Hc'. by eapply Habove.
- destruct (Hrows k) as [rowArr' ->]; [lia|]. simpl.
  apply IH; [lia| |done..]. intros r' Hr'. apply Hrows. lia.
Qed.

End empty_search.

(** ** The layout of any sequence on a grid of any size *)

Section loops.
Context {St : Type}.

Lemma for_loop_0 (body : nat → St → option St) s : for_loop 0 body s = Some s.
Proof. done. Qed.

Lemma for_loop_S n (body : nat → St → option St) s :
  for_loop (S n) body s = for_loop n body s ≫= body n.
Proof. unfold for_loop. by rewrite seq_S, foldl_app. Qed.
End loops.

Lemma js_write_snoc (a : jsarray) k v : length a = k → js_write a k v = a ++ [v].
Proof.
  intros <-. unfold js_write. rewrite decide_False by lia.
  by rewrite Nat.sub_diag.
Qed.

Lemma js_read_snoc (a : jsarray) k v : length a = k → js_read (a ++ [v]) k = v.
Proof.
  intros <-. unfold js_read. rewrite lookup_app_r by lia.
  by rewrite Nat.sub_diag.
Qed.

Section layout.
Import GridManager.
Variables (recipeSequence : list Z) (n : nat).

Let index (cellIndex : nat) : nat := cellIndex `min` length recipeSequence.

Lemma solvedRow_length row k : length (solvedRow recipeSequence n row k) = k.
Proof. unfold solvedRow. by rewrite length_fmap, length_seq. Qed.

Lemma createGrid_recipe_cells row k ts :
  for_loop k (createGrid_recipe_cell recipeSequence n row)
           ([], ts, index (row * n))
  = Some (solvedRow recipeSequence n row k,
          ts ++ solvedTilesRow recipeSequence n row k,
          index (row * n + k)).
Proof.
  induction k as [|k IH].
  - rewrite for_loop_0, Nat.add_0_r. unfold solvedTilesRow. simpl.
    by rewrite app_nil_r.
  - rewrite for_loop_S, IH. cbn [mbind option_bind].
    unfold createGrid_recipe_cell.
    pose proof (solvedRow_length row k) as Hlen.
    assert (Hrow : solvedRow recipeSequence n row (S k)
                   = solvedRow recipeSequence n row k
                     ++ [Some (cellValue recipeSequence (row * n + k))]).
    { unfold solvedRow. by rewrite seq_S, fmap_app. }
    assert (Hts : solvedTilesRow recipeSequence n row (S k)
                  = solvedTilesRow recipeSequence n row k
                    ++ option_list (tileAt recipeSequence n row k)).
    { unfold solvedTilesRow. rewrite seq_S, omap_app. simpl.
      by destruct (tileAt recipeSequence n row k). }
    rewrite Hrow, Hts. unfold tileAt, cellValue, index.
    destruct (decide (row * n + k < length recipeSequence)) as [Hlt|Hge].
    + rewrite Nat.min_l by lia.
      destruct (lookup_lt_is_Some_2 recipeSequence (row * n + k) Hlt) as [v Hv].
      rewrite Hv. simpl.
      rewrite js_write_snoc by done. rewrite js_read_snoc by done.
      replace ((row * n + S k) `min` length recipeSequence)
        with (S (row * n + k)) by lia.
      destruct v; simpl; unfold createTile;
        by rewrite ?app_nil_r, ?app_assoc.
    + rewrite (lookup_ge_None_2 recipeSequence (row * n + k)) by lia.
      simpl. rewrite js_write_snoc by done. rewrite js_read_snoc by done.
      rewrite app_nil_r. do 2 f_equal. lia.
Qed.

Lemma createGrid_recipe_rows k :
  for_loop k (createGrid_recipe_row recipeSequence n) ([], [], 0)
  = Some (solvedGrid recipeSequence n k, solvedTiles recipeSequence n k,
          index (k * n)).
Proof.
  induction k as [|k IH]; [done|].
  rewrite for_loop_S, IH. cbn [mbind option_bind].
  unfold createGrid_recipe_row.
  rewrite createGrid_recipe_cells. simpl.
  unfold solvedGrid, solvedTiles. rewrite !seq_S, fmap_app, bind_app. simpl.
  rewrite app_nil_r. do 2 f_equal. f_equal. lia.
Qed.
End layout.

Section solved.
Variables (recipeSequence : list Z) (n : nat).

Lemma solvedGrid_length k : length (solvedGrid recipeSequence n k) = k.
Proof. unfold solvedGrid. by rewrite length_fmap, length_seq. Qed.

Lemma solvedGrid_lookup k row :
  row < k →
  solvedGrid recipeSequence n k !! row = Some (solvedRow recipeSequence n row n).
Proof.
  intros H. unfold solvedGrid. rewrite list_lookup_fmap, lookup_seq_lt by done.
  done.
Qed.

Lemma solvedGrid_cols k :
  Forall (λ rowArr : jsarray, length rowArr = n) (solvedGrid recipeSequence n k).
Proof.
  apply Forall_lookup. intros row rowArr H.
  assert (row < k) as Hlt.
  { apply lookup_lt_Some in H. by rewrite solvedGrid_length in H. }
  rewrite solvedGrid_lookup in H by done. injection H as <-.
  apply solvedRow_length.
Qed.

Lemma solvedGrid_read k row col :
  row < k → col < n →
  grid_read (solvedGrid recipeSequence n k) row col
  = Some (Some (cellValue recipeSequence (row * n + col))).
Proof.
  intros Hr Hc. unfold grid_read. rewrite solvedGrid_lookup by done. simpl.
  unfold js_read, solvedRow.
  by rewrite list_lookup_fmap, lookup_seq_lt.
Qed.

Lemma flat_app g1 g2 : flat (g1 ++ g2) = flat g1 ++ flat g2.
Proof. unfold flat. by rewrite concat_app, omap_app. Qed.

Lemma solvedGrid_flat k :
  flat (solvedGrid recipeSequence n k)
  = cellValue recipeSequence <$> seq 0 (k * n).
Proof.
  induction k as [|k IH]; [done|].
  unfold solvedGrid in *. rewrite seq_S, fmap_app, flat_app, IH. simpl.
  replace (n + k * n) with (k * n + n) by lia.
  rewrite seq_app, fmap_app. f_equal.
  unfold flat, solvedRow. simpl. rewrite app_nil_r.
  replace (seq (k * n) n) with (Nat.add (k * n) <$> seq 0 n)
    by (rewrite fmap_add_seq; f_equal; lia).
  generalize (seq 0 n). intros l. induction l as [|x l IHl]; simpl; [done|].
  f_equal. apply IHl.
Qed.

Lemma solvedTiles_ids k :
  tile_id <$> solvedTiles recipeSequence n k
  = filter (λ v : Z, v ≠ 0%Z) (cellValue recipeSequence <$> seq 0 (k * n)).
Proof.
  induction k as [|k IH]; [done|].
  unfold solvedTiles in *. rewrite seq_S, bind_app, fmap_app, IH. simpl.
  replace (n + k * n) with (k * n + n) by lia.
  rewrite app_nil_r, seq_app, fmap_app. rewrite list.filter_app. f_equal.
  unfold solvedTilesRow. simpl.
  replace (seq (k * n) n) with (Nat.add (k * n) <$> seq 0 n)
    by (rewrite fmap_add_seq; f_equal; lia).
  generalize (seq 0 n). intros l. induction l as [|x l IHl]; [done|].
  rewrite !fmap_cons, filter_cons. cbn [omap list_omap]. unfold tileAt at 1.
  destruct (decide (cellValue recipeSequence (k * n + x) = 0%Z)) as [E|E].
  - rewrite decide_False by tauto. apply IHl.
  - rewrite decide_True by done. rewrite fmap_cons. simpl. f_equal. apply IHl.
Qed.

Lemma solvedTiles_cells k :
  k ≤ n →
  Forall (λ t, cellOf (solvedGrid recipeSequence n n) t = Some (Some (tile_id t)))
         (solvedTiles recipeSequence n k).
Proof.
  intros Hk. apply list.Forall_forall. intros t Ht.
  unfold solvedTiles in Ht. apply list_elem_of_bind in Ht as (row & Ht & Hrow).
  apply elem_of_seq in Hrow.
  unfold solvedTilesRow in Ht. apply list_elem_of_omap in Ht as (col & Hcol & Ht).
  apply elem_of_seq in Hcol. unfold tileAt in Ht.
  case_decide; [done|]. injection Ht as <-. unfold cellOf. simpl.
  apply solvedGrid_read; lia.
Qed.

(** The cells of the solved layout: the sequence, then zeros. *)
Lemma solved_cells m :
  length recipeSequence ≤ m →
  cellValue recipeSequence <$> seq 0 m
  = recipeSequence ++ replicate (m - length recipeSequence) 0%Z.
Proof.
  intros Hlen. apply list_eq. intros i.
  rewrite list_lookup_fmap. unfold cellValue.
  destruct (decide (i < length recipeSequence)) as [Hi|Hi].
  - rewrite lookup_seq_lt by lia. rewrite lookup_app_l by done. simpl.
    by destruct (lookup_lt_is_Some_2 recipeSequence i Hi) as [v ->].
  - rewrite lookup_app_r by lia.
    destruct (decide (i < m)) as [Hm|Hm].
    + rewrite lookup_seq_lt by done. simpl.
      rewrite (lookup_ge_None_2 recipeSequence i) by lia.
      by rewrite lookup_replicate_2 by lia.
    + rewrite lookup_seq_ge by lia. simpl. symmetry.
      apply lookup_ge_None_2. rewrite length_replicate. lia.
Qed.

Lemma nonzero_cells m :
  Forall (λ v : Z, v ≠ 0%Z) recipeSequence →
  filter (λ v : Z, v ≠ 0%Z)
    (recipeSequence ++ replicate m 0%Z) = recipeSequence.
Proof.
  intros Hnz. rewrite list.filter_app.
  assert (filter (λ v : Z, v ≠ 0%Z) (replicate m 0%Z) = []) as ->.
  { induction m as [|m IH]; [done|]. simpl. by rewrite filter_cons_False by tauto. }
  rewrite app_nil_r. induction Hnz as [|v l Hv _ IH]; [done|].
  by rewrite filter_cons_True, IH.
Qed.
End solved.

Section zero_search.
Implicit Types (rowArr : jsarray) (g : list jsarray) (ep : nat * nat).

(** The inner loop either leaves [emptyPos] alone or sets it to a 0 of the
    row. *)
Lemma scan_empty_cols_cases rowArr row n ep :
  (scan_empty_cols rowArr row n ep = ep
   ∧ ∀ c, c < n → js_read rowArr c ≠ Some 0%Z)
  ∨ ∃ c, c < n ∧ scan_empty_cols rowArr row n ep = (row, c)
         ∧ js_read rowArr c = Some 0%Z.
Proof.
  induction n as [|n IH]; simpl.
  - left. split; [done|]. intros c Hc. lia.
  - case_bool_decide as Hz.
    + right. exists n. split_and!; [lia|done|done].
    + destruct IH as [[-> Hno]|(c & Hc & -> & Hc0)].
      * left. split; [done|]. intros c Hc.
        destruct (decide (c = n)) as [->|]; [done|]. apply Hno. lia.
      * right. exists c. split_and!; [lia|done|done].
Qed.

(** On a grid with its rows in place the search returns, and it returns a
    0-valued cell as soon as the grid has one (or [emptyPos] named one
    before). *)
Lemma scan_empty_rows_zero g n k ep :
  (∀ r, r < k → is_Some (g !! r)) →
  grid_read g ep.1 ep.2 = Some (Some 0%Z)
  ∨ (∃ r c, r < k ∧ c < n ∧ grid_read g r c = Some (Some 0%Z)) →
  ∃ ep', scan_empty_rows g n k ep = Some ep'
         ∧ grid_read g ep'.1 ep'.2 = Some (Some 0%Z).
Proof.
  revert ep. induction k as [|k IH]; intros ep Hrows Hz; simpl.
  - destruct Hz as [Hz|(r & c & Hr & _)]; [|lia]. by exists ep.
  - destruct (Hrows k) as [rowArr Hrow]; [lia|]. rewrite Hrow. simpl.
    apply IH; [intros r Hr; apply Hrows; lia|].
    destruct (scan_empty_cols_cases rowArr k n ep)
      as [[-> Hno]|(c & Hc & -> & Hc0)].
    + destruct Hz as [Hz|(r & c & Hr & Hc & Hz)]; [by left|].
      destruct (decide (r = k)) as [->|Hne].
      * unfold grid_read in Hz. rewrite Hrow in Hz. simpl in Hz.
        injection Hz as Hz. by destruct (Hno c Hc).
      * right. exists r, c. split_and!; [lia|done|done].
    + left. simpl. unfold grid_read. rewrite Hrow. simpl. by rewrite Hc0.
Qed.

Lemma scan_empty_rows_Some g n k ep :
  (∀ r, r < k → is_Some (g !! r)) → is_Some (scan_empty_rows g n k ep).
Proof.
  revert ep. induction k as [|k IH]; intros ep Hrows; simpl; [done|].
  destruct (Hrows k) as [rowArr ->]; [lia|]. simpl.
  apply IH. intros r Hr. apply Hrows. lia.
Qed.
End zero_search.

Section recipe_layout.
Variables (recipeSequence : list Z) (n : nat).

Lemma solvedGrid_rows r : r < n → is_Some (solvedGrid recipeSequence n n !! r).
Proof. intros Hr. rewrite solvedGrid_lookup by done. done. Qed.

(** [createGrid] in recipe mode returns for every sequence and every size:
    the grid is the solved layout and one tile is made per nonzero cell. *)
Lemma createGrid_recipe_total ep :
  ∃ ep1, createGrid_recipe recipeSequence n ep
         = Some (solvedGrid recipeSequence n n,
                 solvedTiles recipeSequence n n, ep1).
Proof.
  unfold createGrid_recipe. rewrite createGrid_recipe_rows.
  cbn [mbind option_bind]. unfold findEmptyPosition.
  destruct (scan_empty_rows_Some (solvedGrid recipeSequence n n) n n ep)
    as [ep1 ->]; [apply solvedGrid_rows|].
  by exists ep1.
Qed.

(** A sequence of nonzero ids that leaves a cell free: the cells are the
    sequence followed by zeros, the tiles are the ids of the sequence in
    order, each at its cell, and [emptyPos] is a 0-valued cell. *)
Lemma createGrid_recipe_layout ep :
  length recipeSequence < n * n →
  Forall (λ v : Z, v ≠ 0%Z) recipeSequence →
  ∃ g ts ep1,
    createGrid_recipe recipeSequence n ep = Some (g, ts, ep1)
    ∧ length g = n
    ∧ Forall (λ rowArr : jsarray, length rowArr = n) g
    ∧ flat g = recipeSequence
               ++ replicate (n * n - length recipeSequence) 0%Z
    ∧ tile_id <$> ts = recipeSequence
    ∧ Forall (λ t, cellOf g t = Some (Some (tile_id t))) ts
    ∧ grid_read g ep1.1 ep1.2 = Some (Some 0%Z).
Proof.
  intros Hlen Hnz.
  assert (0 < n) as Hn by (destruct n; lia).
  unfold createGrid_recipe. rewrite createGrid_recipe_rows.
  cbn [mbind option_bind]. unfold findEmptyPosition.
  destruct (scan_empty_rows_zero (solvedGrid recipeSequence n n) n n ep)
    as (ep1 & -> & Hep); [apply solvedGrid_rows| |].
  { right. exists (n - 1), (n - 1). split_and!; [lia..|].
    rewrite solvedGrid_read by lia. do 2 f_equal. unfold cellValue.
    rewrite lookup_ge_None_2; [done|]. nia. }
  eexists _, _, ep1. split; [done|].
  split_and!.
  - apply solvedGrid_length.
  - apply solvedGrid_cols.
  - rewrite solvedGrid_flat. apply solved_cells. lia.
  - rewrite solvedTiles_ids, solved_cells by lia. by apply nonzero_cells.
  - by apply solvedTiles_cells.
  - done.
Qed.
End recipe_layout.

(** ** The reset of a grid of any size *)

Section reset_layout.
Variables (recipeSequence : list Z) (n : nat).

Lemma overwritten_0 g : overwritten recipeSequence n 0 g = g.
Proof.
  unfold overwritten. apply list_eq. intros r.
  rewrite list_lookup_imap. destruct (g !! r) as [rowArr|]; [|done]. simpl.
  f_equal. apply list_eq. intros c. rewrite list_lookup_imap.
  by destruct (rowArr !! c).
Qed.

Lemma overwritten_length m g : length (overwritten recipeSequence n m g) = length g.
Proof. unfold overwritten. apply length_imap. Qed.

Lemma overwritten_all g :
  length g = n → Forall (λ rowArr : jsarray, length rowArr = n) g →
  overwritten recipeSequence n (n * n) g = solvedGrid recipeSequence n n.
Proof.
  intros Hrows Hcols. unfold overwritten, solvedGrid. apply list_eq. intros r.
  rewrite list_lookup_imap, list_lookup_fmap.
  destruct (decide (r < n)) as [Hr|Hr].
  - rewrite lookup_seq_lt by done.
    destruct (lookup_lt_is_Some_2 g r) as [rowArr Hrow]; [lia|].
    rewrite Hrow. simpl. f_equal.
    assert (length rowArr = n) as Hlen
      by apply (Forall_lookup_1 _ _ _ _ Hcols Hrow).
    unfold solvedRow. apply list_eq. intros c.
    rewrite list_lookup_imap, list_lookup_fmap.
    destruct (decide (c < n)) as [Hc|Hc].
    + rewrite lookup_seq_lt by done.
      destruct (lookup_lt_is_Some_2 rowArr c) as [x ->]; [lia|]. simpl.
      rewrite decide_True by nia. done.
    + rewrite lookup_seq_ge by lia. by rewrite lookup_ge_None_2 by lia.
  - rewrite lookup_seq_ge by lia. by rewrite lookup_ge_None_2 by lia.
Qed.

(** One write of the reset loop, on a grid of the right shape. *)
Lemma overwritten_step g row col :
  length g = n → Forall (λ rowArr : jsarray, length rowArr = n) g →
  row < n → col < n →
  grid_write (overwritten recipeSequence n (row * n + col) g) row col
             (Some (cellValue recipeSequence (row * n + col)))
  = Some (overwritten recipeSequence n (S (row * n + col)) g).
Proof.
  intros Hrows Hcols Hr Hc. unfold grid_write, overwritten.
  rewrite list_lookup_imap.
  destruct (lookup_lt_is_Some_2 g row) as [rowArr Hrow]; [lia|].
  rewrite Hrow. simpl. f_equal. apply list_eq. intros r.
  destruct (decide (r = row)) as [->|Hne].
  - rewrite list_lookup_insert_eq by (rewrite length_imap; lia).
    rewrite list_lookup_imap, Hrow. simpl. f_equal.
    assert (length rowArr = n) as Hlen
      by apply (Forall_lookup_1 _ _ _ _ Hcols Hrow).
    unfold js_write. rewrite decide_True by (rewrite length_imap; lia).
    apply list_eq. intros c. rewrite list_lookup_imap.
    destruct (decide (c = col)) as [->|Hcne].
    + rewrite list_lookup_insert_eq by (rewrite length_imap; lia).
      destruct (lookup_lt_is_Some_2 rowArr col) as [x ->]; [lia|]. simpl.
      by rewrite decide_True by lia.
    + rewrite list_lookup_insert_ne by done. rewrite list_lookup_imap.
      destruct (rowArr !! c) as [x|]; [|done]. simpl.
      destruct (decide (row * n + c < row * n + col));
        [by rewrite decide_True by lia|by rewrite decide_False by lia].
  - rewrite list_lookup_insert_ne by done. rewrite !list_lookup_imap.
    destruct (g !! r) as [rowArr'|] eqn:Hrow'; [|done]. simpl. f_equal.
    assert (length rowArr' = n) as Hlen
      by apply (Forall_lookup_1 _ _ _ _ Hcols Hrow').
    apply list_eq. intros c. rewrite !list_lookup_imap.
    destruct (rowArr' !! c) as [x|] eqn:Hx; [|done]. simpl.
    apply lookup_lt_Some in Hx.
    destruct (decide (r * n + c < row * n + col));
      [by rewrite decide_True by lia|rewrite decide_False by nia; done].
Qed.

Let index cellIndex := cellIndex `min` length recipeSequence.

Lemma reset_recipe_cells g row k :
  length g = n → Forall (λ rowArr : jsarray, length rowArr = n) g →
  row < n → k ≤ n →
  for_loop k (reset_recipe_cell recipeSequence n row)
           (overwritten recipeSequence n (row * n) g, index (row * n))
  = Some (overwritten recipeSequence n (row * n + k) g, index (row * n + k)).
Proof.
  intros Hrows Hcols Hr. induction k as [|k IH]; intros Hk.
  - rewrite for_loop_0, Nat.add_0_r. done.
  - rewrite for_loop_S, IH by lia. cbn [mbind option_bind].
    unfold reset_recipe_cell, index.
    destruct (decide (row * n + k < length recipeSequence)) as [Hlt|Hge].
    + rewrite Nat.min_l by lia.
      destruct (lookup_lt_is_Some_2 recipeSequence (row * n + k) Hlt)
        as [v Hv].
      pose proof (overwritten_step g row k Hrows Hcols Hr) as Hw.
      unfold cellValue in Hw. rewrite Hv in Hw. simpl in Hw.
      rewrite Hv, Hw by lia. simpl. do 2 f_equal; [f_equal; lia|lia].
    + pose proof (overwritten_step g row k Hrows Hcols Hr) as Hw.
      unfold cellValue in Hw.
      rewrite (lookup_ge_None_2 recipeSequence (row * n + k)) in Hw by lia.
      simpl in Hw. rewrite Hw by lia. simpl. do 2 f_equal; [f_equal; lia|lia].
Qed.

Lemma reset_recipe_rows g k :
  length g = n → Forall (λ rowArr : jsarray, length rowArr = n) g →
  k ≤ n →
  for_loop k (λ row, for_loop n (reset_recipe_cell recipeSequence n row)) (g, 0)
  = Some (overwritten recipeSequence n (k * n) g, index (k * n)).
Proof.
  intros Hrows Hcols. induction k as [|k IH]; intros Hk.
  - rewrite for_loop_0. simpl. by rewrite overwritten_0.
  - rewrite for_loop_S, IH by lia. cbn [mbind option_bind].
    rewrite reset_recipe_cells by (done || lia).
    do 3 f_equal; lia.
Qed.

(** The recipe branch of [resetGridToSolved] on a grid of the right shape:
    whatever the cells held, the grid is the solved layout afterwards. *)
Lemma reset_recipe_total g ep :
  length g = n → Forall (λ rowArr : jsarray, length rowArr = n) g →
  ∃ ep1, reset_recipe recipeSequence n g ep
         = Some (solvedGrid recipeSequence n n, ep1).
Proof.
  intros Hrows Hcols. unfold reset_recipe.
  rewrite reset_recipe_rows by done. cbn [mbind option_bind].
  rewrite overwritten_all by done. unfold findEmptyPosition.
  destruct (scan_empty_rows_Some (solvedGrid recipeSequence n n) n n ep)
    as [ep1 ->]; [apply solvedGrid_rows|].
  by exists ep1.
Qed.
End reset_layout.

Section tile_search.
Implicit Types (rowArr : jsarray) (g : list jsarray)
               (target : option (nat * nat)).

(** The inner loop of the tile search either leaves the target alone or
    sets it to a cell of the row that holds the id. *)
Lemma scan_id_cols_cases rowArr id row col k target :
  (scan_id_cols rowArr id row col k target = target
   ∧ ∀ c, col ≤ c < col + k → js_read rowArr c ≠ Some id)
  ∨ ∃ c, col ≤ c < col + k
         ∧ scan_id_cols rowArr id row col k target = Some (row, c)
         ∧ js_read rowArr c = Some id.
Proof.
  revert col. induction k as [|k IH]; intros col; simpl.
  - left. split; [done|]. intros c Hc. lia.
  - case_bool_decide as Hid.
    + right. exists col. split_and!; (done || lia).
    + destruct (IH (S col)) as [[-> Hno]|(c & Hc & -> & Hc0)].
      * left. split; [done|]. intros c Hc.
        destruct (decide (c = col)) as [->|]; [done|]. apply Hno. lia.
      * right. exists c. split_and!; (done || lia).
Qed.

(** The search over the rows returns, and finds a cell that holds the id
    whenever the grid has one. *)
Lemma reset_tile_target g n id k :
  (∀ r, r < k → is_Some (g !! r)) →
  ∃ target,
    for_loop k (λ row target, rowArr ← g !! row;
                  Some (scan_id_cols rowArr id row 0 n target)) None
    = Some target
    ∧ match target with
      | Some (r, c) => r < k ∧ c < n ∧ grid_read g r c = Some (Some id)
      | None => ∀ r c, r < k → c < n → grid_read g r c ≠ Some (Some id)
      end.
Proof.
  induction k as [|k IH]; intros Hrows.
  - exists None. split; [done|]. intros r c Hr. lia.
  - destruct IH as (target & Hloop & Htarget);
      [intros r Hr; apply Hrows; lia|].
    rewrite for_loop_S, Hloop. cbn [mbind option_bind].
    destruct (Hrows k) as [rowArr Hrow]; [lia|]. rewrite Hrow.
    cbn [mbind option_bind]. eexists. split; [done|].
    destruct (scan_id_cols_cases rowArr id k 0 n target)
      as [[-> Hno]|(c & Hc & -> & Hc0)].
    + destruct target as [[r c]|].
      * destruct Htarget as (Hr & Hc & Hread). split_and!; (done || lia).
      * intros r c Hr Hc. destruct (decide (r = k)) as [->|Hne].
        -- unfold grid_read. rewrite Hrow. simpl. intros [= Hread].
           by apply (Hno c); [lia|].
        -- apply Htarget; [lia|done].
    + split_and!; [lia..|]. unfold grid_read. rewrite Hrow. simpl.
      by rewrite Hc0.
Qed.

(** A tile whose id is in the grid is placed on a cell that holds it. *)
Lemma reset_tile_placed g n t r c :
  (∀ r, r < n → is_Some (g !! r)) →
  r < n → c < n → grid_read g r c = Some (Some (tile_id t)) →
  ∃ t', reset_tile g n t = Some t'
        ∧ tile_id t' = tile_id t
        ∧ cellOf g t' = Some (Some (tile_id t'))
        ∧ currentRow t' < n ∧ currentCol t' < n.
Proof.
  intros Hrows Hr Hc Hread. unfold reset_tile.
  destruct (reset_tile_target g n (tile_id t) n Hrows)
    as (target & -> & Htarget).
  cbn [mbind option_bind]. eexists. split; [done|].
  destruct target as [[r' c']|].
  - destruct Htarget as (Hr' & Hc' & Hread'). by split_and!.
  - by destruct (Htarget r c Hr Hc).
Qed.
End tile_search.

Section reset_world.
Variables (recipeSequence : list Z) (n : nat).

Lemma solvedGrid_holds v :
  length recipeSequence ≤ n * n → v ∈ recipeSequence →
  ∃ r c, r < n ∧ c < n
         ∧ grid_read (solvedGrid recipeSequence n n) r c = Some (Some v).
Proof.
  intros Hlen Hv. apply list_elem_of_lookup in Hv as [i Hi].
  assert (i < length recipeSequence) as Hlt by by eapply lookup_lt_Some.
  assert (0 < n) as Hn by (destruct n; lia).
  exists (i / n), (i `mod` n).
  assert (i = i / n * n + i `mod` n) as Hdiv
    by (rewrite Nat.mul_comm; apply Nat.div_mod_eq).
  assert (i `mod` n < n) as Hmod by (apply Nat.mod_upper_bound; lia).
  assert (i / n < n) as Hquot by (apply Nat.Div0.div_lt_upper_bound; lia).
  split_and!; [done..|].
  rewrite solvedGrid_read by done. rewrite <- Hdiv. unfold cellValue.
  by rewrite Hi.
Qed.

(** The tiles after a reset: every tile whose id is in the sequence keeps
    its id and stands on a cell of the solved layout that holds it. *)
Lemma reset_tiles_placed ts :
  length recipeSequence ≤ n * n →
  Forall (λ t, tile_id t ∈ recipeSequence) ts →
  ∃ ts', mapM (reset_tile (solvedGrid recipeSequence n n) n) ts = Some ts'
         ∧ tile_id <$> ts' = tile_id <$> ts
         ∧ Forall (λ t, cellOf (solvedGrid recipeSequence n n) t
                        = Some (Some (tile_id t))) ts'.
Proof.
  intros Hlen. induction 1 as [|t ts Ht _ (ts' & Hts' & Hids & Hcells)].
  - by exists [].
  - destruct (solvedGrid_holds _ Hlen Ht) as (r & c & Hr & Hc & Hread).
    destruct (reset_tile_placed _ n t r c (solvedGrid_rows _ _) Hr Hc Hread)
      as (t' & Ht' & Hid & Hcell & _).
    exists (t' :: ts'). split_and!.
    + simpl. rewrite Ht'. simpl. by rewrite Hts'.
    + rewrite !fmap_cons. by f_equal.
    + by constructor.
Qed.

(** [resetGridToSolved] in recipe mode, for any sequence of nonzero ids
    that leaves a cell free and any grid of the configured size whose
    tiles are those of the recipe: it returns, the cells are the sequence
    followed by zeros, [emptyPos] is a 0-valued cell and every tile stands
    on the cell that holds its id. *)
Lemma resetGridToSolved_layout w recipe :
  RECIPE_MODE (cfg w) = true → currentRecipe (gs w) = Some recipe →
  sequence recipe = recipeSequence → GRID_SIZE (cfg w) = n →
  length recipeSequence < n * n →
  Forall (λ v : Z, v ≠ 0%Z) recipeSequence →
  length (gridData (pz w)) = n →
  Forall (λ rowArr : jsarray, length rowArr = n) (gridData (pz w)) →
  Forall (λ t, tile_id t ∈ recipeSequence) (tiles (pz w)) →
  ∃ w', resetGridToSolved w = Some w'
        ∧ cfg w' = cfg w ∧ gs w' = gs w
        ∧ moveCount (pz w') = moveCount (pz w)
        ∧ gridData (pz w') = solvedGrid recipeSequence n n
        ∧ flat (gridData (pz w'))
          = recipeSequence ++ replicate (n * n - length recipeSequence) 0%Z
        ∧ tile_id <$> tiles (pz w') = tile_id <$> tiles (pz w)
        ∧ Forall (λ t, cellOf (gridData (pz w')) t = Some (Some (tile_id t)))
                 (tiles (pz w'))
        ∧ emptyCell (pz w') = Some (Some 0%Z).
Proof.
  intros Hmode Hcur Hseq Hsize Hlen Hnz Hrows Hcols Hts.
  assert (0 < n) as Hn by (destruct n; lia).
  unfold resetGridToSolved. rewrite Hmode, Hcur, Hseq, Hsize.
  unfold reset_recipe. rewrite reset_recipe_rows by done.
  cbn [mbind option_bind]. rewrite overwritten_all by done.
  unfold findEmptyPosition.
  destruct (scan_empty_rows_zero (solvedGrid recipeSequence n n) n n
              (emptyPos (pz w)))
    as (ep1 & -> & Hep); [apply solvedGrid_rows| |].
  { right. exists (n - 1), (n - 1). split_and!; [lia..|].
    rewrite solvedGrid_read by lia. do 2 f_equal. unfold cellValue.
    rewrite lookup_ge_None_2; [done|]. nia. }
  cbn [mbind option_bind].
  destruct (reset_tiles_placed (tiles (pz w))) as (ts' & -> & Hids & Hcells);
    [lia|done|].
  cbn [mbind option_bind]. eexists. split; [done|]. simpl.
  split_and!; try done.
  rewrite solvedGrid_flat. apply solved_cells. lia.
Qed.
End reset_world.

(** ** The empty position after initialization *)

(** C5 (the code at the stated input): on leafy_stack the layout is
    1 2 3 / 8 0 0 / 0 0 0. The backward scan meets the 0 of the last cell
    first, but its [break] leaves the column loop only: rows 1 and 0 are
    still scanned and row 1 overwrites the hit, so [emptyPos] ends as row 1,
    col 2, after [createGrid] and after every reset to the solved layout.
    Over the catalogue the result is the last cell only for the recipes of
    eight ingredients. *)
Theorem C5_leafy_empty_position :
  create_setup initialWorld = Some leafyStart
  ∧ currentRecipe (gs leafyStart) = Some leafy_stack
  ∧ gridData (pz leafyStart)
    = [[Some 1; Some 2; Some 3]; [Some 8; Some 0; Some 0];
       [Some 0; Some 0; Some 0]]%Z
  ∧ grid_read (gridData (pz leafyStart)) 2 2 = Some (Some 0%Z)
  ∧ scan_empty_cols [Some 0; Some 0; Some 0]%Z 2 3 (2, 2) = (2, 2)
  ∧ scan_empty_cols [Some 8; Some 0; Some 0]%Z 1 3 (2, 2) = (1, 2)
  ∧ scan_empty_cols [Some 1; Some 2; Some 3]%Z 0 3 (1, 2) = (1, 2)
  ∧ emptyPos (pz leafyStart) = (1, 2)
  ∧ emptyPos (pz leafyStart) ≠ (2, 2)
  ∧ (∀ ep, findEmptyPosition (gridData (pz leafyStart)) 3 ep = Some (1, 2))
  ∧ (∃ w', shuffle_start leafyStart = Some w' ∧ emptyPos (pz w') = (1, 2))
  ∧ (∀ r ep, r ∈ RECIPES →
       ∃ g ts, createGrid_recipe (sequence r) 3 ep
               = Some (g, ts, if bool_decide (length (sequence r) = 8)
                              then (2, 2) else (1, 2))).
Proof.
  split_and!; try reflexivity.
  - by vm_compute.
  - eexists. split; [vm_compute; reflexivity|reflexivity].
  - intros r ep H. catalogue H; eexists _, _; vm_compute; reflexivity.
Qed.

(** With the empty position on the last cell no tile of that layout could
    move: both neighbours of the last cell are cells without a tile. *)
Lemma leafy_last_cell_has_no_legal_tile :
  legalTiles (set_emptyPos (2, 2) (pz leafyStart)) = []
  ∧ legalTiles (pz leafyStart) = [2].
Proof. split; reflexivity. Qed.

(** ** The zero cells and the nonzero values *)

Lemma zeroCells_perm g1 g2 : flat g1 ≡ₚ flat g2 → zeroCells g1 = zeroCells g2.
Proof. intros H. unfold zeroCells. by rewrite H. Qed.

Lemma nonzeroValues_perm l1 l2 : l1 ≡ₚ l2 → nonzeroValues l1 = nonzeroValues l2.
Proof. intros H. unfold nonzeroValues. by rewrite H. Qed.

Lemma catalogue_zeros r :
  r ∈ RECIPES →
  length (filter (λ v : Z, v = 0%Z)
            (sequence r ++ replicate (9 - length (sequence r)) 0%Z))
  = 9 - length (sequence r)
  ∧ filter (λ v : Z, v ≠ 0%Z)
      (sequence r ++ replicate (9 - length (sequence r)) 0%Z)
    = filter (λ v : Z, v ≠ 0%Z) (sequence r).
Proof. intros H. catalogue H; split; reflexivity. Qed.

(** Any move, of the shuffle or of the player, returns and permutes the
    cells. *)
Lemma moveTile_perm w i t isPlayerMove :
  Inv w → tiles (pz w) !! i = Some t →
  ∃ w', moveTile i isPlayerMove w = Some w' ∧ Inv w'
        ∧ currentRecipe (gs w') = currentRecipe (gs w)
        ∧ cfg w' = cfg w
        ∧ flat (gridData (pz w')) ≡ₚ flat (gridData (pz w)).
Proof.
  intros HI Hi. destruct isPlayerMove.
  - destruct (moveTile_player_Inv w i t HI Hi)
      as (w' & E & HI' & Hc & Hp & Hr & _).
    by exists w'.
  - destruct (moveTile_shuffle_Inv w i t HI Hi)
      as (w' & E & HI' & Hc & Hg & Hp & _).
    exists w'. split_and!; try done. by rewrite Hg.
Qed.

(** C6 (amended): in every reachable world the cell at [emptyPos] holds 0,
    and the grid has as many 0-valued cells as the recipe's sequence leaves
    free, [GRID_SIZE]² minus its length: at least one, and exactly one only
    for the recipes of eight ingredients. No move changes that number, and
    after a move [emptyPos] again names a 0-valued cell. *)
Theorem C6_zero_cells (w : World) :
  reachable w →
  ∃ r, r ∈ RECIPES ∧ currentRecipe (gs w) = Some r
    ∧ emptyCell (pz w) = Some (Some 0%Z)
    ∧ zeroCells (gridData (pz w))
      = GRID_SIZE (cfg w) * GRID_SIZE (cfg w) - length (sequence r)
    ∧ 1 ≤ zeroCells (gridData (pz w))
    ∧ (zeroCells (gridData (pz w)) = 1 ↔ length (sequence r) = 8)
    ∧ ∀ i t isPlayerMove, tiles (pz w) !! i = Some t →
        ∃ w', moveTile i isPlayerMove w = Some w'
          ∧ zeroCells (gridData (pz w')) = zeroCells (gridData (pz w))
          ∧ emptyCell (pz w') = Some (Some 0%Z).
Proof.
  intros Hw. pose proof (reachable_Inv _ Hw) as HI.
  destruct (inv_recipe _ HI) as (r & Hr & Hcur & _ & Hperm & _).
  destruct (catalogue_sequence r Hr) as (_ & _ & Hlen).
  destruct (catalogue_zeros r Hr) as [Hz _].
  assert (Hcount : zeroCells (gridData (pz w)) = 9 - length (sequence r)).
  { unfold zeroCells. by rewrite Hperm. }
  exists r. rewrite (inv_size _ HI), Hcount.
  split_and!; try done; try lia; [apply (inv_empty _ HI)|].
  intros i t b Hi.
  destruct (moveTile_perm w i t b HI Hi) as (w' & E & HI' & _ & _ & Hp).
  exists w'. split_and!; [done| |apply (inv_empty _ HI')].
  rewrite <- Hcount. by apply zeroCells_perm.
Qed.

Lemma C6_zero_cells_witness :
  ∃ r, currentRecipe (gs leafyStart) = Some r
       ∧ zeroCells (gridData (pz leafyStart)) = 3 * 3 - length (sequence r).
Proof.
  destruct (C6_zero_cells leafyStart leafyStart_reachable)
    as (r & _ & Hcur & _ & Hz & _).
  exists r. split; [exact Hcur | exact Hz].
Defined.

(** The claim as it stands fails: the start of leafy_stack is reachable and
    its grid has five 0-valued cells. *)
Lemma C6_counterexample :
  reachable leafyStart
  ∧ gridData (pz leafyStart)
    = [[Some 1; Some 2; Some 3]; [Some 8; Some 0; Some 0];
       [Some 0; Some 0; Some 0]]%Z
  ∧ zeroCells (gridData (pz leafyStart)) = 5
  ∧ zeroCells (gridData (pz leafyStart)) ≠ 1.
Proof.
  split_and!; [apply leafyStart_reachable|reflexivity|reflexivity|by vm_compute].
Qed.

(** C7: in every reachable world the multiset of the nonzero values of the
    grid is the multiset of the nonzero values of the current recipe's
    sequence, and a move of a tile that can move, by the shuffle or by the
    player, returns a world with the same multiset and the same recipe. *)
Theorem C7_nonzero_multiset (w : World) :
  reachable w →
  ∃ r, currentRecipe (gs w) = Some r
    ∧ nonzeroValues (flat (gridData (pz w))) = nonzeroValues (sequence r)
    ∧ ∀ i t isPlayerMove,
        tiles (pz w) !! i = Some t → canTileMove t (pz w) = true →
        ∃ w', moveTile i isPlayerMove w = Some w'
          ∧ currentRecipe (gs w') = Some r
          ∧ nonzeroValues (flat (gridData (pz w')))
            = nonzeroValues (flat (gridData (pz w))).
Proof.
  intros Hw. pose proof (reachable_Inv _ Hw) as HI.
  destruct (inv_recipe _ HI) as (r & Hr & Hcur & _ & Hperm & _).
  destruct (catalogue_zeros r Hr) as [_ Hnz].
  exists r. split_and!; [done| |].
  - rewrite (nonzeroValues_perm _ _ Hperm). unfold nonzeroValues. by rewrite Hnz.
  - intros i t b Hi _.
    destruct (moveTile_perm w i t b HI Hi) as (w' & E & _ & Hr' & _ & Hp).
    exists w'. split_and!; [done|congruence|by apply nonzeroValues_perm].
Qed.

Lemma C7_nonzero_multiset_witness :
  ∃ w', moveTile 2 false leafyStart = Some w'
        ∧ nonzeroValues (flat (gridData (pz w')))
          = nonzeroValues (flat (gridData (pz leafyStart))).
Proof.
  destruct (C7_nonzero_multiset leafyStart leafyStart_reachable)
    as (r & _ & _ & H).
  destruct (H 2 {| tile_id := 3; currentRow := 0; currentCol := 2;
                   container := (365, 240)%Z |} false eq_refl eq_refl)
    as (w' & E & _ & Hn).
  exists w'. split; [exact E | exact Hn].
Defined.

(** The invariant rests on the free cell every catalogue recipe leaves. A
    recipe that fills the grid leaves no 0 for the search, [emptyPos] keeps
    the value it had, and the first move writes a tile's id over another
    one's: here tile 6 over tile 9, whose id is gone from the grid. *)
Lemma full_grid_first_move_overwrites :
  ∃ w0 w1,
    createGrid 3 (with_gs (set_currentRecipe (Some full_platter)) initialWorld)
    = Some w0
    ∧ emptyPos (pz w0) = (2, 2)
    ∧ emptyCell (pz w0) = Some (Some 9%Z)
    ∧ legalTiles (pz w0) = [5; 7]
    ∧ moveTile 5 false w0 = Some w1
    ∧ gridData (pz w1)
      = [[Some 1; Some 2; Some 3]; [Some 4; Some 5; Some 0];
         [Some 7; Some 8; Some 6]]%Z.
Proof.
  eexists _, _. split; [vm_compute; reflexivity|].
  split_and!; try reflexivity.
Qed.

(** ** The walk of the shuffle *)

Lemma other_id_ne p l i : other_id p l i = true → i ≠ l.
Proof.
  unfold other_id. rewrite negb_true_iff, bool_decide_eq_false.
  intros H ->. by apply H.
Qed.

(** With more than one legal tile, no candidate bears the id of the tile
    moved last. *)
Lemma movableTiles_excludes l p i :
  1 < length (legalTiles p) → i ∈ movableTiles (Some l) p →
  other_id p l i = true.
Proof.
  intros Hlen. unfold movableTiles. rewrite bool_decide_true by done.
  rewrite list_elem_of_filter. intros [H _]. by apply Is_true_true.
Qed.

Lemma makeShuffleMove_step_moved r lastMovedTile w w' i :
  makeShuffleMove_step r lastMovedTile w = Some (w', Some i) →
  i ∈ movableTiles lastMovedTile (pz w).
Proof.
  unfold makeShuffleMove_step. case_bool_decide; [|done].
  destruct (_ !! _) as [j|] eqn:Hj; simpl; [|done].
  destruct (moveTile j false w); simpl; [|done].
  intros [= _ <-]. eauto using list_elem_of_lookup_2.
Qed.

Lemma shuffleWalk_head o n c l w steps wEnd x :
  shuffleWalk o n c l w = Some (steps, wEnd) → steps !! 0 = Some x →
  x.1 = (w, l).
Proof.
  destruct n as [|n]; simpl; [by intros [= <- _]|].
  destruct (makeShuffleMove_step _ _ _) as [[w1 moved]|]; simpl; [|done].
  destruct (shuffleWalk _ _ _ _ _) as [[steps' wEnd']|]; simpl; [|done].
  by intros [= <- _] [= <-].
Qed.

(** Every recorded step is a step of [makeShuffleMove], and the next one
    starts from its result with its tile as [lastMovedTile]. *)
Lemma shuffleWalk_lookup o n c l w steps wEnd k wk lk mk :
  shuffleWalk o n c l w = Some (steps, wEnd) →
  steps !! k = Some (wk, lk, mk) →
  ∃ w', makeShuffleMove_step (walk_draw o (c + k)) lk wk = Some (w', mk)
        ∧ ∀ x, steps !! S k = Some x → x.1 = (w', next_last lk mk).
Proof.
  revert c l w steps wEnd k.
  induction n as [|n IH]; intros c l w steps wEnd k; simpl.
  { by intros [= <- _]. }
  destruct (makeShuffleMove_step _ _ _) as [[w1 moved]|] eqn:E; simpl; [|done].
  destruct (shuffleWalk _ _ _ _ _) as [[steps' wEnd']|] eqn:E'; simpl; [|done].
  intros [= <- <-]. destruct k as [|k]; simpl.
  - intros [= <- <- <-]. rewrite Nat.add_0_r. exists w1. split; [done|].
    intros x Hx. by eapply shuffleWalk_head.
  - intros Hk. destruct (IH _ _ _ _ _ _ E' Hk) as (w' & Hs & Hn).
    exists w'. split; [|done]. by replace (c + S k) with (S c + k) by lia.
Qed.

(** C8: the walk of the shuffle returns from every reachable world, and for
    two consecutive steps that both move a tile, the second starts with the
    first one's tile as [lastMovedTile]; when more than one tile can move at
    the second step, that tile is not among the candidates of the draw, and
    the tile moved is another tile with another id. *)
Theorem C8_no_backtrack (o : Oracle) (n c : nat) (lastMovedTile : option nat)
    (w : World) :
  reachable w →
  ∃ steps wEnd,
    shuffleWalk o n c lastMovedTile w = Some (steps, wEnd)
    ∧ length steps = n
    ∧ makeShuffleMove o n c lastMovedTile w = Some (shuffle_finish o wEnd)
    ∧ ∀ k wa la a wb lb b,
        steps !! k = Some (wa, la, Some a) →
        steps !! S k = Some (wb, lb, Some b) →
        lb = Some a
        ∧ (1 < length (legalTiles (pz wb)) →
             (a ∉ movableTiles lb (pz wb))
             ∧ b ≠ a
             ∧ (tile_id <$> tiles (pz wb) !! b)
               ≠ (tile_id <$> tiles (pz wb) !! a)).
Proof.
  intros Hw.
  destruct (shuffleWalk_total o n c lastMovedTile w Hw)
    as (steps & wEnd & E & Hlen & _).
  exists steps, wEnd. split_and!; [done|done|by rewrite makeShuffleMove_walk, E|].
  intros k wa la a wb lb b Ha Hb.
  destruct (shuffleWalk_lookup _ _ _ _ _ _ _ _ _ _ _ E Ha) as (wa' & _ & Hn).
  specialize (Hn _ Hb). simpl in Hn. injection Hn as -> ->.
  destruct (shuffleWalk_lookup _ _ _ _ _ _ _ _ _ _ _ E Hb) as (wb' & Hs & _).
  split; [done|]. intros Hmany.
  pose proof (makeShuffleMove_step_moved _ _ _ _ _ Hs) as Hin.
  pose proof (movableTiles_excludes _ _ _ Hmany Hin) as Hid.
  split_and!.
  - intros Ha'. by apply (other_id_ne _ _ _ (movableTiles_excludes _ _ _ Hmany Ha')).
  - by eapply other_id_ne.
  - unfold other_id in Hid. by rewrite negb_true_iff, bool_decide_eq_false in Hid.
Qed.

Lemma C8_no_backtrack_witness :
  ∃ steps wEnd wa wb,
    shuffleWalk sampleOracle 2 0 None leafyStart = Some (steps, wEnd)
    ∧ steps !! 0 = Some (wa, None, Some 2)
    ∧ steps !! 1 = Some (wb, Some 2, Some 1)
    ∧ 1 < length (legalTiles (pz wb))
    ∧ 2 ∉ movableTiles (Some 2) (pz wb).
Proof.
  destruct (C8_no_backtrack sampleOracle 2 0 None leafyStart
              leafyStart_reachable) as (steps & wEnd & E & _ & _ & H).
  vm_compute in E. injection E as <- <-.
  eexists _, _, _, _. split; [vm_compute; reflexivity|].
  split; [reflexivity|]. split; [reflexivity|].
  split; [vm_compute; lia|].
  eapply (H 0); [reflexivity|reflexivity|vm_compute; lia].
Defined.

(** The number of legal tiles that counts is that of the step that draws.
    When that step has a single legal tile the rule does not apply and the
    tile comes back: on leafy_stack, whatever the oracle draws, the walk
    moves tile 8 (the fourth tile) at its fourth and at its fifth step, though
    two tiles could move at the fourth. *)
Lemma shuffle_dead_end_backtrack (o : Oracle) :
  ∃ w0 steps wEnd w3 w4,
    shuffle_start leafyStart = Some w0
    ∧ shuffleWalk o 5 0 None w0 = Some (steps, wEnd)
    ∧ steps !! 3 = Some (w3, Some 0, Some 3)
    ∧ steps !! 4 = Some (w4, Some 3, Some 3)
    ∧ legalTiles (pz w3) = [0; 3]
    ∧ legalTiles (pz w4) = [3].
Proof.
  eexists _, _, _, _, _. split; [vm_compute; reflexivity|].
  split; [vm_compute; reflexivity|].
  split_and!; reflexivity.
Qed.

(** ** The decorative pass *)

Lemma makeHybridMove_frame o n k w :
  let w' := makeHybridMove o n k w in
  cfg w' = cfg w ∧ gs w' = gs w
  ∧ logical <$> tiles (pz w') = logical <$> tiles (pz w)
  ∧ gridData (pz w') = gridData (pz w)
  ∧ emptyPos (pz w') = emptyPos (pz w)
  ∧ moveCount (pz w') = moveCount (pz w)
  ∧ isWon (pz w') = isWon (pz w)
  ∧ hasFailed (pz w') = hasFailed (pz w).
Proof.
  revert k w. induction n as [|n IH]; intros k w; cbn [makeHybridMove].
  - by split_and!.
  - pose proof (makeHybridMove_round_frame (hybrid_coin o k) (hybrid_draw o k) w)
      as (Hc & Hg & Ht & Hgd & He & Hm & _ & _ & Hw & Hf).
    destruct (makeHybridMove_round _ _ w) as [w1 next]. simpl in *.
    destruct next; [|by split_and!].
    destruct (IH (S k) w1) as (Hc' & Hg' & Ht' & Hgd' & He' & Hm' & Hw' & Hf').
    split_and!; congruence.
Qed.

(** C9: the decorative pass leaves the grid, the empty position and every
    tile's id, row and column as they were, whatever the oracle draws; so do
    the two stages of each round, the tweens to the swapped positions and the
    tweens back. Only the containers' render coordinates (and, at the end,
    [isShuffling]) are written. *)
Theorem C9_hybrid_pass_frame :
  (∀ o w,
     let w' := performHybridShuffle o w in
     gridData (pz w') = gridData (pz w)
     ∧ emptyPos (pz w') = emptyPos (pz w)
     ∧ logical <$> tiles (pz w') = logical <$> tiles (pz w)
     ∧ length (tiles (pz w')) = length (tiles (pz w))
     ∧ moveCount (pz w') = moveCount (pz w)
     ∧ cfg w' = cfg w ∧ gs w' = gs w)
  ∧ (∀ picked ts,
       logical <$> hybrid_swap picked ts = logical <$> ts
       ∧ logical <$> hybrid_settle picked (hybrid_swap picked ts)
         = logical <$> ts)
  ∧ (∀ coin draw w,
       let w' := (makeHybridMove_round coin draw w).1 in
       gridData (pz w') = gridData (pz w)
       ∧ emptyPos (pz w') = emptyPos (pz w)
       ∧ logical <$> tiles (pz w') = logical <$> tiles (pz w)).
Proof.
  split_and!.
  - intros o w. unfold performHybridShuffle.
    destruct (makeHybridMove_frame o (HYBRID_SHUFFLE_COUNT (cfg w)) 0 w)
      as (Hc & Hg & Ht & Hgd & He & Hm & _).
    simpl. split_and!; try done.
    by rewrite <- (length_fmap logical), Ht, length_fmap.
  - intros picked ts. split; [apply hybrid_swap_logical|].
    by rewrite hybrid_settle_logical, hybrid_swap_logical.
  - intros coin draw w.
    destruct (makeHybridMove_round_frame coin draw w)
      as (_ & _ & Ht & Hgd & He & _).
    by split_and!.
Qed.

(** ** The pet's health *)

Lemma catalogue_buffs_hp r p :
  r ∈ RECIPES →
  hp (foldl applyBuff p (buff r)) = hp p
  ∧ maxHp (foldl applyBuff p (buff r)) = maxHp p.
Proof. intros H. destruct p. catalogue H; split; reflexivity. Qed.

Lemma applyBuff_bounds p stat delta :
  (stat = "hp"%string ∨ stat = "maxHp"%string → (0 ≤ delta)%Z) →
  (0 ≤ hp p ≤ maxHp p)%Z →
  (0 ≤ hp (applyBuff p (stat, delta)) ≤ maxHp (applyBuff p (stat, delta)))%Z.
Proof.
  intros Hd Hp. unfold applyBuff, pet_get, pet_set.
  repeat (case_bool_decide; simplify_eq/=); try lia.
  - assert (0 ≤ delta)%Z by (apply Hd; by left). lia.
  - assert (0 ≤ delta)%Z by (apply Hd; by right). lia.
Qed.

Lemma foldl_applyBuff_bounds (buffs : list (string * Z)) p :
  Forall (λ kv : string * Z,
            kv.1 = "hp"%string ∨ kv.1 = "maxHp"%string → (0 ≤ kv.2)%Z) buffs →
  (0 ≤ hp p ≤ maxHp p)%Z →
  (0 ≤ hp (foldl applyBuff p buffs) ≤ maxHp (foldl applyBuff p buffs))%Z.
Proof.
  intros Hall. revert p. induction Hall as [|[stat delta] buffs Hd _ IH];
    intros p Hp; simpl; [done|].
  apply IH. by apply applyBuff_bounds.
Qed.

(** C10: [petStats.hp] stays within [0, maxHp] across the completion and
    failure events of the program: it is so in every reachable world.
    [onPuzzleFail] takes 10 from hp and stops at 0. [onPuzzleComplete] skips
    a buff on a key that [petStats] lacks ('health' is one) and after a buff
    on 'hp' leaves hp at the smaller of the sum and maxHp; it is only called
    with the current recipe, a recipe of the catalogue, and none of those
    writes hp or maxHp at all. The hook keeps the bound for any buff whose
    'hp' and 'maxHp' deltas are not negative. *)
Theorem C10_hp_bounds :
  (∀ w, reachable w →
     (0 ≤ hp (petStats (gs w)) ≤ maxHp (petStats (gs w)))%Z
     ∧ ∃ r, currentRecipe (gs w) = Some r ∧ r ∈ RECIPES)
  ∧ (∀ g,
       hp (petStats (onPuzzleFail g)) = Z.max 0 (hp (petStats g) - 10)
       ∧ maxHp (petStats (onPuzzleFail g)) = maxHp (petStats g)
       ∧ ((0 ≤ hp (petStats g) ≤ maxHp (petStats g))%Z →
          (0 ≤ hp (petStats (onPuzzleFail g))
             ≤ maxHp (petStats (onPuzzleFail g)))%Z))
  ∧ (∀ g recipe moves rating,
       (0 ≤ hp (petStats g) ≤ maxHp (petStats g))%Z →
       Forall (λ kv : string * Z,
                 kv.1 = "hp"%string ∨ kv.1 = "maxHp"%string → (0 ≤ kv.2)%Z)
              (buff recipe) →
       let g' := onPuzzleComplete recipe moves rating g in
       (0 ≤ hp (petStats g') ≤ maxHp (petStats g'))%Z)
  ∧ (∀ g recipe moves rating,
       recipe ∈ RECIPES →
       hp (petStats (onPuzzleComplete recipe moves rating g)) = hp (petStats g)
       ∧ maxHp (petStats (onPuzzleComplete recipe moves rating g))
         = maxHp (petStats g))
  ∧ (∀ stat delta p, pet_get stat p = None → applyBuff p (stat, delta) = p)
  ∧ (∀ p, pet_get "health" p = None)
  ∧ (∀ delta p,
       hp (applyBuff p ("hp", delta)) = Z.min (hp p + delta) (maxHp p)
       ∧ maxHp (applyBuff p ("hp", delta)) = maxHp p).
Proof.
  split_and!.
  - intros w Hw. pose proof (reachable_Inv _ Hw) as HI.
    split; [apply (inv_hp _ HI)|].
    destruct (inv_recipe _ HI) as (r & Hr & Hcur & _). by exists r.
  - intros g. simpl. lia.
  - intros g recipe moves rating Hg Hall. simpl.
    by apply foldl_applyBuff_bounds.
  - intros g recipe moves rating Hr. simpl. by apply catalogue_buffs_hp.
  - intros stat delta p H. unfold applyBuff. by rewrite H.
  - done.
  - intros delta p. by destruct p.
Qed.

Lemma C10_hp_bounds_witness :
  hp (petStats (onPuzzleFail GameState)) = 90%Z
  ∧ (0 ≤ hp (petStats (gs leafyStart)) ≤ maxHp (petStats (gs leafyStart)))%Z
  ∧ (0 ≤ hp (petStats (onPuzzleComplete classic_stack 12 Stars3 GameState))
       ≤ maxHp (petStats (onPuzzleComplete classic_stack 12 Stars3 GameState)))%Z.
Proof.
  assert (H0 : (0 ≤ hp (petStats GameState) ≤ maxHp (petStats GameState))%Z)
    by (simpl; lia).
  destruct C10_hp_bounds as (Hreach & Hf & Hc & _).
  split; [exact (proj1 (Hf GameState))|].
  split; [exact (proj1 (Hreach leafyStart leafyStart_reachable))|].
  apply (Hc GameState classic_stack 12%Z Stars3 H0).
  repeat (apply Forall_cons_2; [intros [H|H]; discriminate H|]).
  apply Forall_nil_2.
Defined.

(** The hook alone has no floor: a buff that lowers hp by 200 would leave
    hp at -100. No call of the program passes such a recipe. *)
Lemma onPuzzleComplete_no_floor :
  let g' := onPuzzleComplete spoiled_ration 0 Skull GameState in
  (spoiled_ration ∉ RECIPES)
  ∧ hp (petStats g') = (-100)%Z
  ∧ maxHp (petStats g') = 100%Z.
Proof.
  simpl. split_and!; try reflexivity.
  intros H. apply elem_of_RECIPES in H.
  repeat (destruct H as [H|H]; [discriminate H|]). discriminate H.
Qed.

(** ** The recipe catalogue and its lookups *)

Lemma catalogue_valid r : r ∈ RECIPES → RecipeSystem.validateRecipe (Some r) = true.
Proof. intros H. catalogue H; reflexivity. Qed.

Lemma getRecipeById_Some id r :
  RecipeSystem.getRecipeById id = Some r → r ∈ RECIPES ∧ recipe_id r = id.
Proof.
  unfold RecipeSystem.getRecipeById. intros H.
  apply find_some in H as [Hin Hid]. split.
  - by apply list_elem_of_In.
  - by apply bool_decide_eq_true in Hid.
Qed.

Lemma getRecipeById_None id r :
  RecipeSystem.getRecipeById id = None → r ∈ RECIPES → recipe_id r ≠ id.
Proof.
  unfold RecipeSystem.getRecipeById. intros H Hin.
  apply list_elem_of_In in Hin.
  pose proof (find_none _ _ H r Hin) as Hne. simpl in Hne.
  by apply bool_decide_eq_false in Hne.
Qed.

(** X1: [getRecipeById] is exact: the recipe returned is the one of the
    catalogue with that id, it passes [validateRecipe], and [null] is
    returned only for an id no recipe has. Ids are unique, so a recipe is
    found again by its own id. *)
Theorem getRecipeById_exact (id : string) :
  match RecipeSystem.getRecipeById id with
  | Some r => r ∈ RECIPES ∧ recipe_id r = id
              ∧ RecipeSystem.validateRecipe (Some r) = true
              ∧ ∀ r', r' ∈ RECIPES → recipe_id r' = id → r' = r
  | None => RecipeSystem.validateRecipe (RecipeSystem.getRecipeById id) = false
            ∧ ∀ r, r ∈ RECIPES → recipe_id r ≠ id
  end.
Proof.
  destruct (RecipeSystem.getRecipeById id) as [r|] eqn:E.
  - destruct (getRecipeById_Some id r E) as [Hin Hid].
    split_and!; [done|done|by apply catalogue_valid|].
    intros r' Hin' Hid'. subst id.
    catalogue Hin; catalogue Hin'; try reflexivity; by vm_compute in Hid'.
  - split; [by rewrite ?E|]. intros r Hin. by eapply getRecipeById_None.
Qed.

(** X2: [getRecipesByDifficulty] returns recipes of the catalogue of that
    difficulty, in catalogue order; the three difficulties the catalogue
    uses split it, and any other difficulty gives the empty array. *)
Theorem getRecipesByDifficulty_split :
  (∀ d r, r ∈ getRecipesByDifficulty d ↔ r ∈ RECIPES ∧ difficulty r = Some d)
  ∧ (∀ d, getRecipesByDifficulty d `sublist_of` RECIPES)
  ∧ getRecipesByDifficulty "Easy" ++ getRecipesByDifficulty "Medium"
      ++ getRecipesByDifficulty "Hard" ≡ₚ RECIPES
  ∧ (∀ d, d ≠ "Easy"%string → d ≠ "Medium"%string → d ≠ "Hard"%string →
          getRecipesByDifficulty d = []).
Proof.
  split_and!.
  - intros d r. unfold getRecipesByDifficulty. rewrite list_elem_of_filter. tauto.
  - intros d. apply sublist_filter.
  - change (getRecipesByDifficulty "Easy")
      with [leafy_stack; cheesy_beast; protein_power].
    change (getRecipesByDifficulty "Medium") with [classic_stack; garden_delight].
    change (getRecipesByDifficulty "Hard") with [deluxe_combo].
    symmetry.
    apply (Permutation_middle [leafy_stack; cheesy_beast; protein_power]
             [garden_delight; deluxe_combo] classic_stack).
  - intros d H1 H2 H3. unfold getRecipesByDifficulty, RECIPES.
    repeat (rewrite filter_cons_False by (simpl; congruence)).
    done.
Qed.

(** ** The configuration a recipe applies *)

(** X3: [applyRecipeConfig] never leaves a zero behind: a missing or zero
    [gridSize], [optimalMoves] or [maxMoves] is replaced by 3, 20 and 50 (a
    zero is falsy for [||]), a value that is set and not zero is taken as it
    is. The other settings are kept, a second application changes nothing,
    and without a recipe the configuration is left alone. *)
Theorem applyRecipeConfig_defaults (recipe : Recipe) (c : Config) :
  let c' := RecipeSystem.applyRecipeConfig (Some recipe) c in
  0 < GRID_SIZE c' ∧ OPTIMAL_MOVES c' ≠ 0%Z ∧ MAX_MOVES c' ≠ 0%Z
  ∧ (∀ n, gridSize recipe = Some n → GRID_SIZE c' = if decide (n = 0) then 3 else n)
  ∧ (∀ v, optimalMoves recipe = Some v →
          OPTIMAL_MOVES c' = if decide (v = 0)%Z then 20%Z else v)
  ∧ (∀ v, maxMoves recipe = Some v →
          MAX_MOVES c' = if decide (v = 0)%Z then 50%Z else v)
  ∧ (gridSize recipe = None → GRID_SIZE c' = 3)
  ∧ (optimalMoves recipe = None → OPTIMAL_MOVES c' = 20%Z)
  ∧ (maxMoves recipe = None → MAX_MOVES c' = 50%Z)
  ∧ RECIPE_MODE c' = RECIPE_MODE c
  ∧ DEFAULT_RECIPE_ID c' = DEFAULT_RECIPE_ID c
  ∧ SHUFFLE_MOVE_COUNT c' = SHUFFLE_MOVE_COUNT c
  ∧ ENABLE_HYBRID_SHUFFLE c' = ENABLE_HYBRID_SHUFFLE c
  ∧ HYBRID_SHUFFLE_COUNT c' = HYBRID_SHUFFLE_COUNT c
  ∧ RecipeSystem.applyRecipeConfig (Some recipe) c' = c'
  ∧ RecipeSystem.applyRecipeConfig None c = c.
Proof.
  simpl. split_and!; try done.
  - destruct (gridSize recipe) as [[|n]|]; simpl; lia.
  - by destruct (optimalMoves recipe) as [[| |]|].
  - by destruct (maxMoves recipe) as [[| |]|].
  - intros n ->. by destruct n.
  - intros v ->. by destruct v.
  - intros v ->. by destruct v.
  - by intros ->.
  - by intros ->.
  - by intros ->.
Qed.

(** ** The recipe [create] starts with *)

Lemma createGrid_frame n w w' :
  createGrid n w = Some w' →
  cfg w' = cfg w ∧ gs w' = gs w
  ∧ isAnimating (pz w') = isAnimating (pz w)
  ∧ isShuffling (pz w') = isShuffling (pz w)
  ∧ moveCount (pz w') = 0%Z ∧ isWon (pz w') = false ∧ hasFailed (pz w') = false.
Proof.
  unfold createGrid. intros H.
  destruct (match RECIPE_MODE (cfg w) with true => _ | false => _ end)
    as [[[g ts] ep]|]; simpl in H; [|done].
  by injection H as <-.
Qed.

Lemma createGrid_recipe_mode n w r :
  RECIPE_MODE (cfg w) = true → currentRecipe (gs w) = Some r →
  ∃ w', createGrid n w = Some w'
        ∧ gridData (pz w') = solvedGrid (sequence r) n n
        ∧ tiles (pz w') = solvedTiles (sequence r) n n.
Proof.
  intros Hmode Hcur. unfold createGrid. rewrite Hmode, Hcur.
  destruct (createGrid_recipe_total (sequence r) n (emptyPos (pz w))) as [ep1 ->].
  simpl. by eexists.
Qed.

(** X4: [create] in recipe mode, for any configured default id: the session
    starts on the recipe of that id when the catalogue has one and on the
    first recipe of the catalogue otherwise; the recipe's limits are the
    configured ones and the grid is its solved layout, with no move counted. *)
Theorem create_setup_recipe (w : World) :
  RECIPE_MODE (cfg w) = true →
  ∃ w' r, create_setup w = Some w'
    ∧ currentRecipe (gs w') = Some r ∧ r ∈ RECIPES
    ∧ (DEFAULT_RECIPE_ID (cfg w) ∈ recipe_id <$> RECIPES →
         recipe_id r = DEFAULT_RECIPE_ID (cfg w))
    ∧ (DEFAULT_RECIPE_ID (cfg w) ∉ recipe_id <$> RECIPES → r = classic_stack)
    ∧ cfg w' = RecipeSystem.applyRecipeConfig (Some r) (cfg w)
    ∧ gridData (pz w') = solvedGrid (sequence r) (GRID_SIZE (cfg w')) (GRID_SIZE (cfg w'))
    ∧ moveCount (pz w') = 0%Z.
Proof.
  intros Hmode. unfold create_setup. rewrite Hmode.
  destruct (RecipeSystem.getRecipeById (DEFAULT_RECIPE_ID (cfg w))) as [r|] eqn:E.
  - destruct (getRecipeById_Some _ _ E) as (Hin & Hr).
    rewrite (catalogue_valid r Hin).
    match goal with |- context [createGrid ?n ?w0] =>
      destruct (createGrid_recipe_mode n w0 r) as (w' & Hw' & Hg & _);
        [done..|]; destruct (createGrid_frame n w0 w' Hw') as (Hc & Hgs & _ & _ & Hm & _)
    end.
    exists w', r. rewrite Hw'. split_and!; try done.
    + by rewrite Hgs.
    + intros Hnot. destruct Hnot. rewrite <- Hr. by apply list_elem_of_fmap_2.
    + by rewrite Hg, Hc.
  - cbn [RecipeSystem.validateRecipe].
    change (head RECIPES) with (Some classic_stack).
    match goal with |- context [createGrid ?n ?w0] =>
      destruct (createGrid_recipe_mode n w0 classic_stack) as (w' & Hw' & Hg & _);
        [done..|]; destruct (createGrid_frame n w0 w' Hw') as (Hc & Hgs & _ & _ & Hm & _)
    end.
    exists w', classic_stack. rewrite Hw'. split_and!; try done.
    + by rewrite Hgs.
    + unfold RECIPES. rewrite elem_of_cons. by left.
    + intros Hin. apply list_elem_of_fmap in Hin as (r & Hr & Hin).
      by destruct (getRecipeById_None _ r E Hin).
    + by rewrite Hg, Hc.
Qed.

Lemma create_setup_recipe_witness :
  ∃ w', create_setup initialWorld = Some w'
        ∧ currentRecipe (gs w') = Some leafy_stack.
Proof.
  destruct (create_setup_recipe initialWorld eq_refl)
    as (w' & r & Hw' & Hcur & Hin & Hid & _).
  exists w'. split; [exact Hw'|]. rewrite Hcur. f_equal.
  assert (recipe_id r = "leafy_stack"%string) as Hr.
  { apply Hid. apply (bool_decide_unpack _). by vm_compute. }
  clear -Hin Hr. catalogue Hin; try reflexivity; by vm_compute in Hr.
Defined.

(** ** The event hooks and [GameState] *)

(** X5: [onPuzzleComplete] keeps [completedRecipes] free of duplicates: the id
    of the recipe is in it afterwards, the ids that were there stay in their
    order, a recipe completed again is not added again, and the counters
    move by one puzzle and by the moves of this one. *)
Theorem onPuzzleComplete_completedRecipes (recipe : Recipe) (moves : Z)
    (rating : Rating) (g : GameStateT) :
  NoDup (completedRecipes g) →
  let g' := onPuzzleComplete recipe moves rating g in
  NoDup (completedRecipes g')
  ∧ recipe_id recipe ∈ completedRecipes g'
  ∧ completedRecipes g `prefix_of` completedRecipes g'
  ∧ (∀ moves' rating',
       completedRecipes (onPuzzleComplete recipe moves' rating' g')
       = completedRecipes g')
  ∧ puzzlesCompleted g' = (puzzlesCompleted g + 1)%Z
  ∧ totalMoves g' = (totalMoves g + moves)%Z
  ∧ puzzlesFailed g' = puzzlesFailed g
  ∧ lastResult g' = Some win ∧ currentRecipe g' = Some recipe.
Proof.
  intros Hnd. simpl.
  destruct (bool_decide (recipe_id recipe ∈ completedRecipes g)) eqn:Hc.
  - apply bool_decide_eq_true in Hc. split_and!; try done.
    intros _ _. by rewrite bool_decide_true.
  - apply bool_decide_eq_false in Hc.
    assert (recipe_id recipe ∈ completedRecipes g ++ [recipe_id recipe]) as Hin.
    { rewrite elem_of_app, list_elem_of_singleton. by right. }
    split_and!; try done.
    + apply list.NoDup_app. split_and!; [done| |apply NoDup_singleton].
      intros x Hx Hx'. apply list_elem_of_singleton in Hx'. by subst.
    + by apply prefix_app_r.
    + intros _ _. by rewrite bool_decide_true.
Qed.

Lemma onPuzzleComplete_completedRecipes_witness :
  completedRecipes
    (onPuzzleComplete leafy_stack 12 Stars3
       (onPuzzleComplete leafy_stack 9 Stars3 GameState))
  = ["leafy_stack"%string].
Proof.
  pose proof (onPuzzleComplete_completedRecipes leafy_stack 9 Stars3 GameState
                (NoDup_nil_2 : NoDup (completedRecipes GameState)))
    as (_ & _ & _ & Hagain & _).
  rewrite Hagain. reflexivity.
Defined.

Lemma applyBuff_stats p stat delta :
  stat ≠ "hp"%string → stat ≠ "maxHp"%string →
  let p' := applyBuff p (stat, delta) in
  hp p' = hp p ∧ maxHp p' = maxHp p
  ∧ hunger p' = (hunger p + buffTotal "hunger" [(stat, delta)])%Z
  ∧ attack p' = (attack p + buffTotal "attack" [(stat, delta)])%Z
  ∧ defense p' = (defense p + buffTotal "defense" [(stat, delta)])%Z
  ∧ stamina p' = (stamina p + buffTotal "stamina" [(stat, delta)])%Z.
Proof.
  intros Hhp Hmax. unfold applyBuff, pet_get, pet_set, buffTotal. simpl.
  repeat (case_bool_decide; simplify_eq/=); split_and!; lia.
Qed.

(** X6: The buffs of a recipe whose keys are not [hp] or [maxHp]: each of
    [hunger], [attack], [defense] and [stamina] grows by the sum of its
    deltas, without a cap, and [hp] and [maxHp] are left alone. A key
    [petStats] does not have is skipped: [health] is one, so the [health]
    buffs of the catalogue change nothing. *)
Theorem onPuzzleComplete_buffs (recipe : Recipe) (moves : Z) (rating : Rating)
    (g : GameStateT) :
  Forall (λ kv : string * Z, kv.1 ≠ "hp"%string ∧ kv.1 ≠ "maxHp"%string)
         (buff recipe) →
  let p := petStats g in
  let p' := petStats (onPuzzleComplete recipe moves rating g) in
  hp p' = hp p ∧ maxHp p' = maxHp p
  ∧ hunger p' = (hunger p + buffTotal "hunger" (buff recipe))%Z
  ∧ attack p' = (attack p + buffTotal "attack" (buff recipe))%Z
  ∧ defense p' = (defense p + buffTotal "defense" (buff recipe))%Z
  ∧ stamina p' = (stamina p + buffTotal "stamina" (buff recipe))%Z.
Proof.
  simpl. generalize (petStats g) as p. generalize (buff recipe) as buffs.
  induction buffs as [|[stat delta] buffs IH]; intros p Hkeys; simpl.
  - split_and!; lia.
  - inversion_clear Hkeys as [|? ? [Hhp Hmax] Hrest]. simpl in *.
    destruct (applyBuff_stats p stat delta Hhp Hmax) as (E1 & E2 & E3 & E4 & E5 & E6).
    destruct (IH (applyBuff p (stat, delta)) Hrest) as (F1 & F2 & F3 & F4 & F5 & F6).
    unfold buffTotal in *. simpl in *.
    rewrite F1, F2, F3, F4, F5, F6, E1, E2, E3, E4, E5, E6.
    repeat case_bool_decide; split_and!; lia.
Qed.

Lemma onPuzzleComplete_buffs_witness :
  petStats (onPuzzleComplete classic_stack 30 Stars3 GameState)
  = {| hp := 100; maxHp := 100; hunger := 100; attack := 10; defense := 15;
       stamina := 100 |}.
Proof.
  assert (Forall (λ kv : string * Z, kv.1 ≠ "hp"%string ∧ kv.1 ≠ "maxHp"%string)
                 (buff classic_stack)) as Hkeys.
  { repeat constructor; by vm_compute. }
  pose proof (onPuzzleComplete_buffs classic_stack 30 Stars3 GameState Hkeys)
    as (E1 & E2 & E3 & E4 & E5 & E6).
  reflexivity.
Defined.

(** X7: Failures add up: after [n + 1] calls of [onPuzzleFail] the pet has lost
    ten points of health per call, down to 0 and no further; the failures
    are counted and the lifetime move counter and the recipes completed are
    not touched. *)
Theorem onPuzzleFail_repeated (n : nat) (g : GameStateT) :
  let g' := Nat.iter (S n) onPuzzleFail g in
  hp (petStats g') = Z.max 0 (hp (petStats g) - 10 * Z.of_nat (S n))
  ∧ maxHp (petStats g') = maxHp (petStats g)
  ∧ puzzlesFailed g' = (puzzlesFailed g + Z.of_nat (S n))%Z
  ∧ lastResult g' = Some fail
  ∧ totalMoves g' = totalMoves g
  ∧ puzzlesCompleted g' = puzzlesCompleted g
  ∧ completedRecipes g' = completedRecipes g
  ∧ currentRecipe g' = currentRecipe g.
Proof.
  induction n as [|n IH].
  - simpl. split_and!; try done; lia.
  - destruct IH as (E1 & E2 & E3 & E4 & E5 & E6 & E7 & E8).
    change (Nat.iter (S (S n)) onPuzzleFail g)
      with (onPuzzleFail (Nat.iter (S n) onPuzzleFail g)).
    cbn [onPuzzleFail hp maxHp petStats set_hp puzzlesFailed lastResult totalMoves
         puzzlesCompleted completedRecipes currentRecipe].
    rewrite E1, E2, E3, E5, E6, E7, E8. split_and!; try done; lia.
Qed.

(** ** Writes to a grid, in and out of range *)

Section writes.
Implicit Types (a : jsarray) (g : list jsarray) (v : option Z).

Lemma js_read_write a c v : js_read (js_write a c v) c = v.
Proof.
  unfold js_read, js_write. case_decide as Hc.
  - by rewrite list_lookup_insert_eq.
  - rewrite lookup_app_r by lia. rewrite lookup_app_r by (rewrite length_replicate; lia).
    rewrite length_replicate. by replace (c - length a - (c - length a)) with 0 by lia.
Qed.

Lemma js_read_write_other a c c' v :
  c ≠ c' → js_read (js_write a c v) c' = js_read a c'.
Proof.
  intros Hne. unfold js_read, js_write. case_decide as Hc.
  - by rewrite list_lookup_insert_ne.
  - destruct (decide (c' < length a)) as [Hlt|Hge].
    + by rewrite lookup_app_l.
    + rewrite (lookup_ge_None_2 a c') by lia. rewrite lookup_app_r by lia.
      destruct (decide (c' < c)) as [Hlt'|Hge'].
      * rewrite lookup_app_l by (rewrite length_replicate; lia).
        by rewrite lookup_replicate_2 by lia.
      * rewrite lookup_ge_None_2; [done|].
        rewrite length_app, length_replicate. simpl. lia.
Qed.

Lemma grid_write_read g r c v g' :
  grid_write g r c v = Some g' → grid_read g' r c = Some v.
Proof.
  unfold grid_write, grid_read. intros H.
  destruct (g !! r) as [rowArr|] eqn:E; simplify_eq/=.
  rewrite list_lookup_insert_eq by eauto using lookup_lt_Some. simpl.
  by rewrite js_read_write.
Qed.

Lemma grid_write_other g r c v g' r' c' :
  grid_write g r c v = Some g' → (r', c') ≠ (r, c) →
  grid_read g' r' c' = grid_read g r' c'.
Proof.
  unfold grid_write, grid_read. intros H Hne.
  destruct (g !! r) as [rowArr|] eqn:E; simplify_eq/=.
  destruct (decide (r = r')) as [<-|Hr].
  - rewrite list_lookup_insert_eq by eauto using lookup_lt_Some. rewrite E. simpl.
    rewrite js_read_write_other; [done|congruence].
  - by rewrite list_lookup_insert_ne.
Qed.

(** Two grids of the same shape that read the same are the same. *)
Lemma grid_ext g g' n :
  length g = length g' →
  Forall (λ rowArr : jsarray, length rowArr = n) g →
  Forall (λ rowArr : jsarray, length rowArr = n) g' →
  (∀ r c, grid_read g r c = grid_read g' r c) → g = g'.
Proof.
  intros Hlen Hg Hg' Hread. apply list_eq. intros r.
  destruct (g !! r) as [rowArr|] eqn:E.
  - destruct (lookup_lt_is_Some_2 g' r) as [rowArr' E'].
    { rewrite <- Hlen. eauto using lookup_lt_Some. }
    rewrite E'. f_equal. apply list_eq. intros c.
    pose proof (Forall_lookup_1 _ _ _ _ Hg E) as Hl.
    pose proof (Forall_lookup_1 _ _ _ _ Hg' E') as Hl'. simpl in Hl, Hl'.
    specialize (Hread r c). unfold grid_read, js_read in Hread.
    rewrite E, E' in Hread. simpl in Hread. injection Hread as Hread.
    destruct (decide (c < n)) as [Hc|Hc].
    + destruct (lookup_lt_is_Some_2 rowArr c) as [x Hx]; [lia|].
      destruct (lookup_lt_is_Some_2 rowArr' c) as [x' Hx']; [lia|].
      rewrite Hx, Hx' in *. simpl in Hread. by subst.
    + by rewrite !lookup_ge_None_2 by lia.
  - symmetry. apply lookup_ge_None_2. rewrite <- Hlen.
    by apply lookup_ge_None_1.
Qed.
End writes.

(** ** The move primitive, whatever the state *)

Lemma moveTile_apply_Some i w w1 :
  moveTile_apply i w = Some w1 →
  ∃ t g1 g2,
    tiles (pz w) !! i = Some t
    ∧ grid_write (gridData (pz w)) (currentRow t) (currentCol t) (Some 0%Z)
      = Some g1
    ∧ grid_write g1 (emptyPos (pz w)).1 (emptyPos (pz w)).2 (Some (tile_id t))
      = Some g2
    ∧ cfg w1 = cfg w ∧ gs w1 = gs w
    ∧ gridData (pz w1) = g2
    ∧ emptyPos (pz w1) = (currentRow t, currentCol t)
    ∧ tiles (pz w1)
      = <[i := {| tile_id := tile_id t; currentRow := (emptyPos (pz w)).1;
                  currentCol := (emptyPos (pz w)).2;
                  container := (tileX (emptyPos (pz w)).2,
                                tileY (emptyPos (pz w)).1) |}]> (tiles (pz w))
    ∧ moveCount (pz w1) = moveCount (pz w)
    ∧ isAnimating (pz w1) = true
    ∧ isShuffling (pz w1) = isShuffling (pz w)
    ∧ isWon (pz w1) = isWon (pz w)
    ∧ hasFailed (pz w1) = hasFailed (pz w).
Proof.
  unfold moveTile_apply. intros H.
  destruct (tiles (pz w) !! i) as [t|]; simpl in H; [|done].
  destruct (grid_write (gridData (pz w)) _ _ _) as [g1|] eqn:E1; simpl in H; [|done].
  destruct (grid_write g1 _ _ _) as [g2|] eqn:E2; simpl in H; [|done].
  injection H as <-. exists t, g1, g2. by split_and!.
Qed.

Lemma moveTile_Some i isPlayerMove w w' :
  moveTile i isPlayerMove w = Some w' →
  ∃ w1 k, moveTile_apply i w = Some w1
          ∧ moveTile_settled isPlayerMove w1 = Some (w', k).
Proof.
  unfold moveTile. intros H.
  destruct (moveTile_apply i w) as [w1|]; simpl in H; [|done].
  destruct (moveTile_settled isPlayerMove w1) as [[w2 k]|] eqn:E; simpl in H;
    [|done].
  injection H as <-. by exists w1, k.
Qed.

Lemma moveTile_settled_cfg isPlayerMove w w' k :
  moveTile_settled isPlayerMove w = Some (w', k) → cfg w' = cfg w.
Proof.
  unfold moveTile_settled.
  destruct isPlayerMove; [|by intros; simplify_eq/=].
  destruct (_ && _); [by intros; simplify_eq/=|].
  unfold checkWinCondition, onPuzzleSolved. simpl.
  destruct (RECIPE_MODE (cfg w)), (currentRecipe (gs w)); simpl;
    try destruct (recipe_solved _ _); simpl;
    try (destruct (legacy_solved _ _) as [[]|]; simpl);
    by intros; simplify_eq/=.
Qed.

(** X8: A move that returns has changed the grid at two cells at most, the
    tile's and the empty one, and has touched no other tile: every other
    cell reads as before, and the other tiles, the number of tiles and the
    configuration are the same. This holds in any state, for a move of the
    player or of the shuffle, for a tile that is adjacent to the empty cell
    or not. *)
Theorem moveTile_frame (w : World) (i : nat) (t : Tile) (isPlayerMove : bool)
    (w' : World) :
  tiles (pz w) !! i = Some t → moveTile i isPlayerMove w = Some w' →
  (∀ r c, (r, c) ≠ (currentRow t, currentCol t) → (r, c) ≠ emptyPos (pz w) →
          grid_read (gridData (pz w')) r c = grid_read (gridData (pz w)) r c)
  ∧ (∀ j, j ≠ i → tiles (pz w') !! j = tiles (pz w) !! j)
  ∧ length (tiles (pz w')) = length (tiles (pz w))
  ∧ tile_id <$> tiles (pz w') = tile_id <$> tiles (pz w)
  ∧ emptyPos (pz w') = (currentRow t, currentCol t)
  ∧ cfg w' = cfg w.
Proof.
  intros Ht H.
  destruct (moveTile_Some _ _ _ _ H) as (w1 & k & Ha & Hs).
  destruct (moveTile_settled_board _ _ _ _ Hs) as (Hg & Hts & Hep).
  destruct (moveTile_apply_Some _ _ _ Ha)
    as (t' & g1 & g2 & Ht' & E1 & E2 & Hc1 & _ & Hg1 & Hep1 & Hts1 & _).
  assert (t' = t) as -> by congruence.
  rewrite Hg, Hts, Hep, Hg1, Hts1, Hep1.
  split_and!; try done.
  - intros r c Hne1 Hne2.
    rewrite (grid_write_other _ _ _ _ _ r c E2)
      by (by destruct (emptyPos (pz w))).
    by rewrite (grid_write_other _ _ _ _ _ r c E1).
  - intros j Hj. by rewrite list_lookup_insert_ne.
  - apply length_insert.
  - rewrite list_fmap_insert. simpl. apply list_insert_id.
    by rewrite list_lookup_fmap, Ht.
  - rewrite <- Hc1. by eapply moveTile_settled_cfg.
Qed.

Lemma moveTile_frame_witness :
  ∃ w', moveTile 2 true leafyStart = Some w'
        ∧ emptyPos (pz w') = (0, 2)
        ∧ grid_read (gridData (pz w')) 1 0 = Some (Some 8%Z).
Proof.
  assert (∃ w', moveTile 2 true leafyStart = Some w') as [w' Hw'].
  { eexists. vm_compute. reflexivity. }
  assert (∃ t, tiles (pz leafyStart) !! 2 = Some t
               ∧ (currentRow t, currentCol t) = (0, 2)) as (t & Ht & Hcell).
  { eexists. split; reflexivity. }
  destruct (moveTile_frame leafyStart 2 t true w' Ht Hw') as (Hcells & _ & _ & _ & Hep & _).
  exists w'. split; [exact Hw'|]. split; [by rewrite Hep|].
  rewrite Hcells; [reflexivity| |]; rewrite ?Hcell; by vm_compute.
Defined.

(** ** A move and its way back *)

Lemma canTileMove_swap t p t' p' :
  (currentRow t', currentCol t') = emptyPos p →
  emptyPos p' = (currentRow t, currentCol t) →
  canTileMove t' p' = canTileMove t p.
Proof.
  intros H1 H2. unfold canTileMove. rewrite H2, <- H1. simpl.
  f_equal; f_equal; apply bool_decide_ext; lia.
Qed.

Lemma moveTile_shuffle_eq i w :
  moveTile i false w = with_pz (set_isAnimating false) <$> moveTile_apply i w.
Proof. unfold moveTile. by destruct (moveTile_apply i w). Qed.

(** The board of the primitive's result, on a consistent board. *)
Lemma moveTile_apply_board w i t :
  Inv w → tiles (pz w) !! i = Some t →
  ∃ w1, moveTile_apply i w = Some w1 ∧ Inv w1
    ∧ cfg w1 = cfg w ∧ gs w1 = gs w
    ∧ emptyPos (pz w1) = (currentRow t, currentCol t)
    ∧ tiles (pz w1) !! i
      = Some {| tile_id := tile_id t; currentRow := (emptyPos (pz w)).1;
                currentCol := (emptyPos (pz w)).2;
                container := (tileX (emptyPos (pz w)).2,
                              tileY (emptyPos (pz w)).1) |}
    ∧ logical <$> tiles (pz w1)
      = <[i := (tile_id t, (emptyPos (pz w)).1, (emptyPos (pz w)).2)]>
          (logical <$> tiles (pz w))
    ∧ grid_read (gridData (pz w1)) (currentRow t) (currentCol t) = Some (Some 0%Z)
    ∧ grid_read (gridData (pz w1)) (emptyPos (pz w)).1 (emptyPos (pz w)).2
      = Some (Some (tile_id t))
    ∧ (∀ r c, (r, c) ≠ (currentRow t, currentCol t) → (r, c) ≠ emptyPos (pz w) →
              grid_read (gridData (pz w1)) r c = grid_read (gridData (pz w)) r c)
    ∧ moveCount (pz w1) = moveCount (pz w)
    ∧ isShuffling (pz w1) = isShuffling (pz w)
    ∧ isWon (pz w1) = isWon (pz w)
    ∧ hasFailed (pz w1) = hasFailed (pz w).
Proof.
  intros HI Ht.
  destruct (moveTile_apply_Inv w i t HI Ht)
    as (w1 & Hw1 & HI1 & Hc & Hg & Hep & Hcell & Hold & _ & Hlog & Hm & Hsh & Hwon & Hf).
  destruct (moveTile_apply_Some _ _ _ Hw1)
    as (t' & g1 & g2 & Ht' & E1 & E2 & _ & _ & Hg1 & _ & Hts1 & _).
  assert (t' = t) as -> by congruence.
  exists w1. split_and!; try done.
  - rewrite Hts1. apply list_lookup_insert_eq. eauto using lookup_lt_Some.
  - intros r c Hne1 Hne2. rewrite Hg1.
    rewrite (grid_write_other _ _ _ _ _ r c E2)
      by (by destruct (emptyPos (pz w))).
    by rewrite (grid_write_other _ _ _ _ _ r c E1).
Qed.

(** The primitive applied to a tile twice is the identity on the board. *)
Lemma moveTile_apply_twice w i t :
  Inv w → tiles (pz w) !! i = Some t →
  ∃ w1 w2, moveTile_apply i w = Some w1 ∧ moveTile_apply i w1 = Some w2
    ∧ Inv w1 ∧ Inv w2
    ∧ tile_can_move (pz w1) i = canTileMove t (pz w)
    ∧ board w2 = board w.
Proof.
  intros HI Ht.
  destruct (moveTile_apply_board w i t HI Ht)
    as (w1 & Hw1 & HI1 & Hc1 & Hg1 & Hep1 & Ht1 & Hlog1 & Hz1 & Hid1 & Hframe1 & _).
  destruct (moveTile_apply_board w1 i _ HI1 Ht1)
    as (w2 & Hw2 & HI2 & Hc2 & Hg2 & Hep2 & Ht2 & Hlog2 & Hz2 & Hid2 & Hframe2 & _).
  simpl in *. rewrite Hep1 in *. simpl in *.
  exists w1, w2. split_and!; try done.
  - unfold tile_can_move. rewrite Ht1.
    apply canTileMove_swap; [by destruct (emptyPos (pz w))|done].
  - unfold board. f_equal; [f_equal|].
    + apply (grid_ext _ _ 3).
      * by rewrite (inv_rows _ HI2), (inv_rows _ HI).
      * apply (inv_cols _ HI2).
      * apply (inv_cols _ HI).
      * intros r c.
        destruct (decide ((r, c) = (currentRow t, currentCol t))) as [[= -> ->]|Hne1].
        { rewrite Hid2. symmetry.
          apply (Forall_lookup_1 _ _ _ _ (inv_tiles _ HI) Ht). }
        destruct (decide ((r, c) = emptyPos (pz w))) as [Hep|Hne2].
        { rewrite <- Hep in *. simpl in *. rewrite Hz2. symmetry.
          pose proof (inv_empty _ HI) as He. unfold emptyCell in He.
          by rewrite <- Hep in He. }
        rewrite Hframe2, Hframe1; try done.
        by destruct (emptyPos (pz w)).
    + rewrite Hep2. by destruct (emptyPos (pz w)).
    + rewrite Hlog2, Hlog1, list_insert_insert_eq. apply list_insert_id.
      by rewrite list_lookup_fmap, Ht.
Qed.

(** X9: A move is undone by moving the same tile again: on every reachable
    board, two moves of the shuffle on one tile return, the tile can move
    the second time exactly when it could the first time, and the grid, the
    empty position and the cell of every tile are as before. *)
Theorem moveTile_undo (w : World) (i : nat) (t : Tile) :
  reachable w → tiles (pz w) !! i = Some t →
  ∃ w1 w2, moveTile i false w = Some w1 ∧ moveTile i false w1 = Some w2
    ∧ tile_can_move (pz w1) i = canTileMove t (pz w)
    ∧ gridData (pz w2) = gridData (pz w)
    ∧ emptyPos (pz w2) = emptyPos (pz w)
    ∧ logical <$> tiles (pz w2) = logical <$> tiles (pz w).
Proof.
  intros Hw Ht.
  destruct (moveTile_apply_twice w i t (reachable_Inv _ Hw) Ht)
    as (w1 & w2 & Hw1 & Hw2 & HI1 & HI2 & Hcan & Hb).
  exists (with_pz (set_isAnimating false) w1).
  assert (moveTile_apply i (with_pz (set_isAnimating false) w1)
          = Some (with_pz (set_isAnimating true) w2)) as Hw2'.
  { destruct (moveTile_apply_Some _ _ _ Hw2)
      as (t' & g1 & g2 & Ht' & E1 & E2 & _).
    unfold moveTile_apply in *. simpl. rewrite Ht' in *. simpl in *.
    rewrite E1 in *. simpl in *. rewrite E2 in *. simpl in *.
    injection Hw2 as <-. reflexivity. }
  exists (with_pz (set_isAnimating false) (with_pz (set_isAnimating true) w2)).
  rewrite !moveTile_shuffle_eq, Hw1. simpl. rewrite Hw2'. simpl.
  unfold board in Hb. injection Hb as Hg He Hl.
  by split_and!.
Qed.

Lemma moveTile_undo_witness :
  ∃ w1 w2, moveTile 2 false leafyStart = Some w1
    ∧ moveTile 2 false w1 = Some w2
    ∧ gridData (pz w2) = gridData (pz leafyStart)
    ∧ emptyPos (pz w2) = (1, 2).
Proof.
  assert (∃ t, tiles (pz leafyStart) !! 2 = Some t) as [t Ht].
  { eexists. reflexivity. }
  destruct (moveTile_undo leafyStart 2 t leafyStart_reachable Ht)
    as (w1 & w2 & H1 & H2 & _ & Hg & He & _).
  exists w1, w2. split; [exact H1|]. split; [exact H2|].
  split; [exact Hg|]. rewrite He. reflexivity.
Defined.

(** ** Some tile can always move *)

Lemma tile_can_move_logical p p' i :
  logical <$> tiles p' = logical <$> tiles p → emptyPos p' = emptyPos p →
  tile_can_move p' i = tile_can_move p i.
Proof.
  intros Hl He. unfold tile_can_move.
  assert (logical <$> tiles p' !! i = logical <$> tiles p !! i) as Hi
    by (by rewrite <- !list_lookup_fmap, Hl).
  destruct (tiles p' !! i) as [t'|], (tiles p !! i) as [t|]; simplify_eq/=;
    [|done].
  unfold canTileMove. by rewrite He, H, H0.
Qed.

Lemma resetGridToSolved_live w :
  Inv w →
  ∃ w' i, resetGridToSolved w = Some w' ∧ tile_can_move (pz w') i = true.
Proof.
  intros [Hmode Hsize (r & Hr & Hcur & Hids & Hperm & Hopt & Hmax)
          Hrows Hcols Hempty Htiles Hhp].
  destruct (grid_shape _ Hrows Hcols)
    as (c00 & c01 & c02 & c10 & c11 & c12 & c20 & c21 & c22 & Hg).
  destruct w as [c g [ts gd ep mc an sh won fl]]; simpl in *. subst gd.
  unfold resetGridToSolved. simpl. rewrite Hmode, Hsize, Hcur.
  clear Hperm Hempty Htiles Hrows Hcols.
  catalogue Hr; simpl in Hids;
    repeat (destruct ts as [|[? ? ? ?] ts]; simplify_eq/=);
    first [ eexists _, 2; (split; [vm_compute; reflexivity|]); reflexivity
          | eexists _, 5; (split; [vm_compute; reflexivity|]); reflexivity ].
Qed.

Lemma createGrid_live w r w' :
  r ∈ RECIPES → RECIPE_MODE (cfg w) = true → currentRecipe (gs w) = Some r →
  createGrid 3 w = Some w' → ∃ i, tile_can_move (pz w') i = true.
Proof.
  intros Hr Hmode Hcur. unfold createGrid. rewrite Hmode, Hcur.
  catalogue Hr;
    (match goal with
     | |- context [createGrid_recipe ?s ?n ?ep] =>
         let v := eval vm_compute in (createGrid_recipe s n ep) in
         change (createGrid_recipe s n ep) with v
     end);
    simpl; intros [= <-]; first [ exists 2; reflexivity | exists 5; reflexivity ].
Qed.

(** In every reachable world some tile is adjacent to the empty position. *)
Lemma reachable_live w : reachable w → ∃ i, tile_can_move (pz w) i = true.
Proof.
  induction 1 as [w H|w w' Hw IH H|w i w' Hw IH Hm H|w b w' k Hw IH H
                 |w picked Hw IH|w picked Hw IH|w Hw IH|w Hw IH|w w' Hw IH H].
  - exists 2. vm_compute in H. by injection H as <-.
  - unfold shuffle_start in H.
    destruct (resetGridToSolved_live (with_pz (set_isShuffling true) w))
      as (w1 & i & E & Hi).
    { pose proof (reachable_Inv _ Hw) as HI. inv_ext HI. }
    exists i. congruence.
  - exists i. unfold tile_can_move in Hm.
    destruct (tiles (pz w) !! i) as [t|] eqn:Ht; [|done].
    destruct (moveTile_apply_board w i t (reachable_Inv _ Hw) Ht)
      as (w1 & Hw1 & _ & _ & _ & Hep1 & Ht1 & _).
    assert (w1 = w') as -> by congruence.
    unfold tile_can_move. rewrite Ht1, <- Hm.
    apply canTileMove_swap; [by destruct (emptyPos (pz w))|done].
  - destruct IH as [i Hi]. exists i. rewrite <- Hi.
    destruct (moveTile_settled_board _ _ _ _ H) as (_ & Hts & Hep).
    apply tile_can_move_logical; [by rewrite Hts|done].
  - destruct IH as [i Hi]. exists i. rewrite <- Hi.
    apply tile_can_move_logical; [apply hybrid_swap_logical|done].
  - destruct IH as [i Hi]. exists i. rewrite <- Hi.
    apply tile_can_move_logical; [apply hybrid_settle_logical|done].
  - destruct IH as [i Hi]. by exists i.
  - destruct IH as [i Hi]. by exists i.
  - pose proof (reachable_Inv _ Hw) as HI.
    destruct (inv_recipe _ HI) as (r & Hr & Hcur & _).
    unfold cycle_setup in H. rewrite (inv_mode _ HI), Hcur in H. simpl in H.
    destruct (RecipeSystem.getAllRecipes !! _) as [r'|] eqn:Hnext; simpl in H;
      [|done].
    assert (r' ∈ RECIPES) as Hr' by (by eapply list_elem_of_lookup_2).
    match type of H with
    | createGrid ?n ?w0 = _ =>
        assert (n = 3) as Hn by (simpl; clear H Hnext; catalogue Hr'; reflexivity);
        rewrite Hn in H;
        apply (createGrid_live w0 r' w' Hr'); [|done|done];
        clear H Hnext; simpl; rewrite (inv_mode _ HI); catalogue Hr'; reflexivity
    end.
Qed.

Lemma legalTiles_NoDup p : NoDup (legalTiles p).
Proof. unfold legalTiles. apply list.NoDup_filter, NoDup_seq. Qed.

(** With unique ids, leaving out the tile moved last leaves a candidate
    whenever two tiles can move. *)
Lemma movableTiles_nonempty lastMovedTile p :
  NoDup (tile_id <$> tiles p) → legalTiles p ≠ [] →
  movableTiles lastMovedTile p ≠ [].
Proof.
  intros Hnd Hlegal. unfold movableTiles.
  destruct lastMovedTile as [l|]; [|done].
  case_bool_decide as Hlen; [|done].
  pose proof (legalTiles_NoDup p) as Hnd'.
  destruct (legalTiles p) as [|a [|b rest]] eqn:E; simpl in Hlen; try lia.
  assert (a ≠ b) as Hab.
  { inversion_clear Hnd' as [|? ? Ha _]. rewrite elem_of_cons in Ha. tauto. }
  assert (a ∈ legalTiles p ∧ b ∈ legalTiles p) as [Ha Hb].
  { rewrite E, !elem_of_cons. tauto. }
  apply legalTiles_spec in Ha as (ta & Hta & _).
  apply legalTiles_spec in Hb as (tb & Htb & _).
  intros Hnil. rewrite !filter_cons in Hnil.
  destruct (decide (other_id p l a)) as [|Hna]; [done|].
  destruct (decide (other_id p l b)) as [|Hnb]; [done|].
  unfold other_id in Hna, Hnb.
  apply Is_true_false_1, negb_false_iff, bool_decide_eq_true in Hna, Hnb.
  apply Hab, (NoDup_lookup _ a b (tile_id ta) Hnd).
  - by rewrite list_lookup_fmap, Hta.
  - rewrite list_lookup_fmap, Htb. simpl.
    rewrite Hta in Hna. rewrite Htb in Hnb. simpl in *. congruence.
Qed.

Lemma Inv_ids_NoDup w : Inv w → NoDup (tile_id <$> tiles (pz w)).
Proof.
  intros HI. destruct (inv_recipe _ HI) as (r & Hr & _ & Hids & _).
  rewrite Hids. by destruct (catalogue_sequence r Hr).
Qed.

Lemma makeShuffleMove_step_moves r lastMovedTile w :
  reachable w →
  ∃ w' i, makeShuffleMove_step r lastMovedTile w = Some (w', Some i)
          ∧ tile_can_move (pz w) i = true
          ∧ moveTile i false w = Some w'.
Proof.
  intros Hw. pose proof (reachable_Inv _ Hw) as HI.
  destruct (reachable_live _ Hw) as [j Hj].
  assert (legalTiles (pz w) ≠ []) as Hlegal.
  { intros Hnil. assert (j ∈ legalTiles (pz w)) as Hin; [|by rewrite Hnil in Hin;
      apply elem_of_nil in Hin].
    unfold tile_can_move in Hj. destruct (tiles (pz w) !! j) as [t|] eqn:Ht; [|done].
    apply legalTiles_spec. by exists t. }
  pose proof (movableTiles_nonempty lastMovedTile (pz w) (Inv_ids_NoDup _ HI) Hlegal)
    as Hcand.
  destruct (makeShuffleMove_step_cases r lastMovedTile w HI)
    as [[Hnil _]|(i & t & w' & _ & Ht & Hm & Hmv & E)]; [done|].
  exists w', i. split_and!; [done| |done]. unfold tile_can_move. by rewrite Ht.
Qed.

(** X10: The board is never stuck: in every reachable world a tile is adjacent
    to the empty position, so a step of the shuffle always has a candidate
    and moves it, whatever tile was moved last and whatever is drawn. The
    branch of [makeShuffleMove] that skips a step is never taken. *)
Theorem reachable_never_stuck (w : World) :
  reachable w →
  legalTiles (pz w) ≠ []
  ∧ ∀ r lastMovedTile,
      movableTiles lastMovedTile (pz w) ≠ []
      ∧ ∃ w' i, makeShuffleMove_step r lastMovedTile w = Some (w', Some i)
                ∧ i ∈ legalTiles (pz w).
Proof.
  intros Hw.
  assert (∀ i, tile_can_move (pz w) i = true → i ∈ legalTiles (pz w)) as Hin.
  { intros i Hi. unfold tile_can_move in Hi.
    destruct (tiles (pz w) !! i) as [t|] eqn:Ht; [|done].
    apply legalTiles_spec. by exists t. }
  assert (legalTiles (pz w) ≠ []) as Hlegal.
  { destruct (reachable_live _ Hw) as [j Hj]. intros Hnil.
    specialize (Hin j Hj). rewrite Hnil in Hin. by apply elem_of_nil in Hin. }
  split; [done|]. intros r l. split.
  - apply movableTiles_nonempty; [|done].
    apply Inv_ids_NoDup. by apply reachable_Inv.
  - destruct (makeShuffleMove_step_moves r l w Hw) as (w' & i & E & Hi & _).
    exists w', i. split; [done|]. by apply Hin.
Qed.

Lemma reachable_never_stuck_witness :
  legalTiles (pz leafyStart) ≠ []
  ∧ ∃ w' i, makeShuffleMove_step 0 None leafyStart = Some (w', Some i).
Proof.
  destruct (reachable_never_stuck leafyStart leafyStart_reachable) as [Hl Hs].
  split; [exact Hl|].
  destruct (Hs 0 None) as (_ & w' & i & E & _). exists w', i. exact E.
Defined.

(** X11: The walk of the shuffle never skips: from a reachable world it returns,
    and each of its steps moves a tile that could move at that step. *)
Theorem shuffleWalk_never_skips (o : Oracle) (n c : nat)
    (lastMovedTile : option nat) (w : World) :
  reachable w →
  ∃ steps wEnd, shuffleWalk o n c lastMovedTile w = Some (steps, wEnd)
    ∧ length steps = n
    ∧ Forall (λ s : World * option nat * option nat,
                ∃ i, s.2 = Some i ∧ tile_can_move (pz s.1.1) i = true) steps.
Proof.
  revert c lastMovedTile w.
  induction n as [|n IH]; intros c l w Hw; simpl; [by eexists _, _|].
  destruct (makeShuffleMove_step_moves (walk_draw o c) l w Hw)
    as (w1 & i & E & Hi & Hmv).
  rewrite E. simpl.
  destruct (IH (S c) (Some i) w1) as (steps & wEnd & E' & Hl & Hall).
  { by eapply moveTile_reachable. }
  rewrite E'. simpl. eexists _, _. split; [reflexivity|].
  split; [simpl; by rewrite Hl|].
  constructor; [|done]. by exists i.
Qed.

Lemma shuffleWalk_never_skips_witness :
  ∃ steps wEnd, shuffleWalk sampleOracle 20 0 None leafyStart = Some (steps, wEnd)
    ∧ length steps = 20.
Proof.
  destruct (shuffleWalk_never_skips sampleOracle 20 0 None leafyStart
              leafyStart_reachable) as (steps & wEnd & E & Hl & _).
  exists steps, wEnd. split; [exact E|exact Hl].
Defined.

(** ** The settings no piece of code changes *)

Lemma cycle_setup_cfg w w' :
  cycle_setup w = Some w' →
  SHUFFLE_MOVE_COUNT (cfg w') = SHUFFLE_MOVE_COUNT (cfg w)
  ∧ ENABLE_HYBRID_SHUFFLE (cfg w') = ENABLE_HYBRID_SHUFFLE (cfg w)
  ∧ HYBRID_SHUFFLE_COUNT (cfg w') = HYBRID_SHUFFLE_COUNT (cfg w)
  ∧ RECIPE_MODE (cfg w') = RECIPE_MODE (cfg w).
Proof.
  unfold cycle_setup. destruct (RECIPE_MODE (cfg w)) eqn:Hmode; simpl;
    [|by intros [= <-]].
  destruct (currentRecipe (gs w)) as [r|]; simpl; [|done].
  destruct (RecipeSystem.getAllRecipes !! _) as [r'|]; simpl; [|done].
  intros H. destruct (createGrid_frame _ _ _ H) as (-> & _). by simpl.
Qed.

Lemma reachable_config w :
  reachable w →
  SHUFFLE_MOVE_COUNT (cfg w) = 20 ∧ ENABLE_HYBRID_SHUFFLE (cfg w) = true
  ∧ HYBRID_SHUFFLE_COUNT (cfg w) = 6.
Proof.
  induction 1 as [w H|w w' Hw IH H|w i w' Hw IH Hm H|w b w' k Hw IH H
                 |w picked Hw IH|w picked Hw IH|w Hw IH|w Hw IH|w w' Hw IH H];
    try done.
  - vm_compute in H. by injection H as <-.
  - destruct (shuffle_start_Inv w (reachable_Inv _ Hw)) as (w1 & E & _ & Hc & _).
    assert (w1 = w') as -> by congruence. by rewrite Hc.
  - destruct (moveTile_apply_Some _ _ _ H) as (t & g1 & g2 & _ & _ & _ & Hc & _).
    by rewrite Hc.
  - by rewrite (moveTile_settled_cfg _ _ _ _ H).
  - destruct (cycle_setup_cfg _ _ H) as (-> & -> & -> & _). done.
Qed.

(** ** Render coordinates *)

Section home.
Implicit Types (ts : list Tile) (picked : list nat).

Lemma settle_container_length i ts : length (settle_container i ts) = length ts.
Proof.
  unfold settle_container. destruct (ts !! i); [apply length_insert|done].
Qed.

Lemma hybrid_settle_length picked ts : length (hybrid_settle picked ts) = length ts.
Proof.
  unfold hybrid_settle. revert ts.
  induction picked as [|j picked IH]; intros ts; simpl; [done|].
  by rewrite IH, settle_container_length.
Qed.

Lemma settle_container_lookup j ts i t0 :
  ts !! i = Some t0 →
  ∃ t, settle_container j ts !! i = Some t
       ∧ (i = j ∨ atHome t0 → atHome t).
Proof.
  intros Hi. unfold settle_container.
  destruct (ts !! j) as [tj|] eqn:Hj.
  - destruct (decide (i = j)) as [->|Hne].
    + rewrite list_lookup_insert_eq by eauto using lookup_lt_Some.
      eexists. split; [done|]. intros _. reflexivity.
    + rewrite list_lookup_insert_ne by done. exists t0. split; [done|].
      intros [?|?]; done.
  - exists t0. split; [done|]. intros [->|?]; [congruence|done].
Qed.

Lemma hybrid_settle_home picked ts i t0 :
  ts !! i = Some t0 → i ∈ picked ∨ atHome t0 →
  ∃ t, hybrid_settle picked ts !! i = Some t ∧ atHome t.
Proof.
  unfold hybrid_settle. revert ts t0.
  induction picked as [|j picked IH]; intros ts t0 Hi Hor; simpl.
  - destruct Hor as [Hin|Hh]; [by apply elem_of_nil in Hin|]. by exists t0.
  - destruct (settle_container_lookup j ts i t0 Hi) as (t1 & Ht1 & Hhome).
    apply (IH _ t1 Ht1). rewrite elem_of_cons in Hor.
    destruct Hor as [[->|Hin]|Hh]; [right|by left|right]; apply Hhome; auto.
Qed.

Lemma tween_container_other j xy ts i :
  i ≠ j → tween_container j xy ts !! i = ts !! i.
Proof.
  intros Hne. unfold tween_container.
  destruct (ts !! j); [by rewrite list_lookup_insert_ne|done].
Qed.

Lemma foldl_tween_other (moves : list (nat * (Z * Z))) ts i :
  i ∉ moves.*1 →
  foldl (λ acc it, tween_container it.1 it.2 acc) ts moves !! i = ts !! i.
Proof.
  revert ts. induction moves as [|[j xy] moves IH]; intros ts Hi; simpl; [done|].
  rewrite fmap_cons, not_elem_of_cons in Hi. destruct Hi as [Hne Hi].
  rewrite IH by done. by apply tween_container_other.
Qed.

Lemma hybrid_swap_other picked ts i :
  i ∉ picked → hybrid_swap picked ts !! i = ts !! i.
Proof.
  intros Hi. unfold hybrid_swap. apply foldl_tween_other.
  intros Hin. apply Hi. apply list_elem_of_fmap in Hin as ([j xy] & -> & Hin).
  by apply elem_of_zip_l in Hin.
Qed.

Lemma hybrid_swap_length picked ts : length (hybrid_swap picked ts) = length ts.
Proof.
  rewrite <- (length_fmap logical), hybrid_swap_logical. apply length_fmap.
Qed.

(** A decorative round ends with every container on its tile's cell, if
    they were there before it. *)
Lemma hybrid_round_home picked ts :
  Forall atHome ts → Forall atHome (hybrid_settle picked (hybrid_swap picked ts)).
Proof.
  intros Hall. apply Forall_lookup. intros i t Hi.
  assert (i < length ts) as Hlt.
  { apply lookup_lt_Some in Hi.
    by rewrite hybrid_settle_length, hybrid_swap_length in Hi. }
  destruct (lookup_lt_is_Some_2 (hybrid_swap picked ts) i) as [t1 Ht1];
    [by rewrite hybrid_swap_length|].
  destruct (hybrid_settle_home picked _ i t1 Ht1) as (t' & Ht' & Hh).
  - destruct (decide (i ∈ picked)) as [|Hnot]; [by left|right].
    rewrite hybrid_swap_other in Ht1 by done.
    apply (Forall_lookup_1 _ _ _ _ Hall Ht1).
  - congruence.
Qed.
End home.

Lemma resetGridToSolved_home w :
  Inv w →
  ∃ w', resetGridToSolved w = Some w' ∧ Forall atHome (tiles (pz w')).
Proof.
  intros [Hmode Hsize (r & Hr & Hcur & Hids & Hperm & Hopt & Hmax)
          Hrows Hcols Hempty Htiles Hhp].
  destruct (grid_shape _ Hrows Hcols)
    as (c00 & c01 & c02 & c10 & c11 & c12 & c20 & c21 & c22 & Hg).
  destruct w as [c g [ts gd ep mc an sh won fl]]; simpl in *. subst gd.
  unfold resetGridToSolved. simpl. rewrite Hmode, Hsize, Hcur.
  clear Hperm Hempty Htiles Hrows Hcols.
  catalogue Hr; simpl in Hids;
    repeat (destruct ts as [|[? ? ? ?] ts]; simplify_eq/=);
    eexists; (split; [vm_compute; reflexivity|]); simpl;
    repeat constructor.
Qed.

(** ** The shuffle from start to end *)

Lemma moveTile_shuffle_fields i w w' :
  moveTile i false w = Some w' →
  cfg w' = cfg w ∧ gs w' = gs w
  ∧ moveCount (pz w') = moveCount (pz w)
  ∧ isWon (pz w') = isWon (pz w) ∧ hasFailed (pz w') = hasFailed (pz w)
  ∧ isShuffling (pz w') = isShuffling (pz w)
  ∧ isAnimating (pz w') = false
  ∧ (Forall atHome (tiles (pz w)) → Forall atHome (tiles (pz w'))).
Proof.
  rewrite moveTile_shuffle_eq. intros H.
  destruct (moveTile_apply i w) as [w1|] eqn:E; simplify_eq/=.
  destruct (moveTile_apply_Some _ _ _ E)
    as (t & g1 & g2 & Ht & _ & _ & Hc & Hg & _ & _ & Hts & Hm & _ & Hsh & Hwon & Hf).
  split_and!; try done.
  intros Hall. rewrite Hts. apply Forall_insert; [done|]. reflexivity.
Qed.

Lemma shuffleWalk_fields o n c lastMovedTile w steps wEnd :
  reachable w → shuffleWalk o n c lastMovedTile w = Some (steps, wEnd) →
  reachable wEnd
  ∧ cfg wEnd = cfg w ∧ gs wEnd = gs w
  ∧ moveCount (pz wEnd) = moveCount (pz w)
  ∧ isWon (pz wEnd) = isWon (pz w) ∧ hasFailed (pz wEnd) = hasFailed (pz w)
  ∧ isShuffling (pz wEnd) = isShuffling (pz w)
  ∧ (0 < n → isAnimating (pz wEnd) = false)
  ∧ (Forall atHome (tiles (pz w)) → Forall atHome (tiles (pz wEnd))).
Proof.
  revert c lastMovedTile w steps.
  induction n as [|n IH]; intros c l w steps Hw; simpl.
  - intros [= <- <-]. split_and!; try done. lia.
  - destruct (makeShuffleMove_step_moves (walk_draw o c) l w Hw)
      as (w1 & i & E & Hi & Hmv).
    rewrite E. simpl.
    destruct (shuffleWalk o n (S c) (Some i) w1) as [[steps' wEnd']|] eqn:E';
      simpl; [|done].
    intros [= <- <-].
    destruct (moveTile_shuffle_fields _ _ _ Hmv)
      as (Hc & Hg & Hm & Hwon & Hf & Hsh & Han & Hhome).
    destruct (IH _ _ _ _ (moveTile_reachable _ _ _ _ Hw Hi Hmv) E')
      as (Hr & Hc' & Hg' & Hm' & Hwon' & Hf' & Hsh' & Han' & Hhome').
    split_and!; try congruence; [|by auto].
    intros _. destruct n as [|n]; [|apply Han'; lia].
    simpl in E'. by injection E' as _ <-.
Qed.

Lemma pickTiles_prefix draw i num availableTiles tilesToAnimate :
  tilesToAnimate `prefix_of` pickTiles draw i num availableTiles tilesToAnimate.
Proof.
  revert i availableTiles tilesToAnimate.
  induction num as [|num IH]; intros i avail acc; simpl; [done|].
  case_bool_decide; [|done].
  destruct (avail !! _); [|done].
  etrans; [|apply IH]. by apply prefix_app_r.
Qed.

Lemma hybrid_pick_nonempty coin draw (ts : list Tile) :
  ts ≠ [] → 0 < length (hybrid_pick coin draw ts).
Proof.
  intros Hts. unfold hybrid_pick.
  assert (0 < length (seq 0 (length ts))) as Hlen.
  { rewrite length_seq. destruct ts; [done|simpl; lia]. }
  assert (∀ num, 0 < length (pickTiles draw 0 (S num) (seq 0 (length ts)) [])) as H.
  { intros num. simpl. rewrite bool_decide_true by done.
    destruct (lookup_lt_is_Some_2 (seq 0 (length ts))
                (random_index (draw 0) (length (seq 0 (length ts)))))
      as [t Ht]; [by apply random_index_lt|].
    rewrite Ht.
    pose proof (pickTiles_prefix draw 1 num
                  (delete (random_index (draw 0) (length (seq 0 (length ts))))
                          (seq 0 (length ts))) ([] ++ [t])) as Hp.
    apply prefix_length in Hp. simpl in Hp. lia. }
  destruct coin; apply H.
Qed.

(** The decorative pass with at least one tile runs all its rounds and
    clears [isShuffling]; it ends with every container on its tile's cell
    if they were there, and changes nothing else. *)
Lemma makeHybridMove_fields o n k w :
  tiles (pz w) ≠ [] →
  let w' := makeHybridMove o n k w in
  isShuffling (pz w') = false
  ∧ cfg w' = cfg w ∧ gs w' = gs w
  ∧ moveCount (pz w') = moveCount (pz w)
  ∧ isWon (pz w') = isWon (pz w) ∧ hasFailed (pz w') = hasFailed (pz w)
  ∧ isAnimating (pz w') = isAnimating (pz w)
  ∧ board w' = board w
  ∧ (Forall atHome (tiles (pz w)) → Forall atHome (tiles (pz w'))).
Proof.
  revert k w. induction n as [|n IH]; intros k w Hts; cbn [makeHybridMove].
  - simpl. by split_and!.
  - unfold makeHybridMove_round.
    rewrite bool_decide_true by (by apply hybrid_pick_nonempty).
    set (picked := hybrid_pick (hybrid_coin o k) (hybrid_draw o k) (tiles (pz w))).
    set (w1 := with_pz (set_tiles (hybrid_settle picked
                                     (hybrid_swap picked (tiles (pz w))))) w).
    assert (logical <$> tiles (pz w1) = logical <$> tiles (pz w)) as Hlog.
    { simpl. by rewrite hybrid_settle_logical, hybrid_swap_logical. }
    destruct (IH (S k) w1) as (Hsh & Hc & Hg & Hm & Hwon & Hf & Han & Hb & Hhome).
    { intros Hnil. apply Hts. apply (f_equal length) in Hlog.
      rewrite !length_fmap, Hnil in Hlog. by destruct (tiles (pz w)). }
    split_and!; try done.
    + rewrite Hb. unfold board. by rewrite Hlog.
    + intros Hall. apply Hhome. simpl. by apply hybrid_round_home.
Qed.

Lemma shuffle_finish_fields o w :
  tiles (pz w) ≠ [] →
  let w' := shuffle_finish o w in
  isShuffling (pz w') = false
  ∧ cfg w' = cfg w ∧ gs w' = gs w
  ∧ moveCount (pz w') = moveCount (pz w)
  ∧ isWon (pz w') = isWon (pz w) ∧ hasFailed (pz w') = hasFailed (pz w)
  ∧ isAnimating (pz w') = isAnimating (pz w)
  ∧ board w' = board w
  ∧ (Forall atHome (tiles (pz w)) → Forall atHome (tiles (pz w'))).
Proof.
  intros Hts. unfold shuffle_finish, performHybridShuffle.
  destruct (ENABLE_HYBRID_SHUFFLE (cfg w)); [by apply makeHybridMove_fields|].
  simpl. by split_and!.
Qed.

Lemma reachable_tiles w : reachable w → tiles (pz w) ≠ [].
Proof.
  intros Hw Hnil. destruct (reachable_live _ Hw) as [i Hi].
  unfold tile_can_move in Hi. by rewrite Hnil in Hi.
Qed.

Lemma performAnimatedShuffle_spec o w :
  reachable w →
  ∃ w', performAnimatedShuffle o w = Some w' ∧ reachable w'
    ∧ cfg w' = cfg w ∧ gs w' = gs w
    ∧ moveCount (pz w') = moveCount (pz w)
    ∧ isWon (pz w') = isWon (pz w) ∧ hasFailed (pz w') = hasFailed (pz w)
    ∧ isShuffling (pz w') = false ∧ isAnimating (pz w') = false
    ∧ Forall atHome (tiles (pz w')).
Proof.
  intros Hw. unfold performAnimatedShuffle, shuffle_start.
  assert (Inv (with_pz (set_isShuffling true) w)) as HI0.
  { pose proof (reachable_Inv _ Hw) as HI. inv_ext HI. }
  destruct (resetGridToSolved_Inv _ HI0)
    as (w0 & E0 & HI & Hc0 & Hg0 & Hm0 & _ & _ & Hwon0 & Hf0).
  destruct (resetGridToSolved_home _ HI0) as (w0' & E0' & Hhome0).
  assert (w0' = w0) as -> by congruence.
  assert (reachable w0) as Hw0 by (by eapply reach_shuffle_start).
  rewrite E0. simpl. rewrite makeShuffleMove_walk.
  destruct (reachable_config _ Hw0) as (Hcount & _).
  rewrite Hcount.
  destruct (shuffleWalk_total o 20 0 None w0 Hw0) as (steps & wEnd & E & _ & _).
  rewrite E. simpl.
  destruct (shuffleWalk_fields _ _ _ _ _ _ _ Hw0 E)
    as (HwE & Hc & Hg & Hm & Hwon & Hf & Hsh & Han & Hhome).
  destruct (shuffle_finish_fields o wEnd (reachable_tiles _ HwE))
    as (Hsh' & Hc' & Hg' & Hm' & Hwon' & Hf' & Han' & _ & Hhome').
  eexists. split; [reflexivity|].
  split; [by apply shuffle_finish_reachable|].
  simpl in *. split_and!; try congruence.
  - rewrite Han'. apply Han. lia.
  - auto.
Qed.

(** X12: The shuffle is free of charge: from every reachable world
    [performAnimatedShuffle] runs to its end, counts no move, neither wins
    nor fails the session, and leaves [GameState] and the configuration as
    they were; when it ends no tween is running and [isShuffling] is
    cleared, so the next click is accepted. *)
Theorem performAnimatedShuffle_frame (o : Oracle) (w : World) :
  reachable w →
  ∃ w', performAnimatedShuffle o w = Some w'
    ∧ cfg w' = cfg w ∧ gs w' = gs w
    ∧ moveCount (pz w') = moveCount (pz w)
    ∧ isWon (pz w') = isWon (pz w) ∧ hasFailed (pz w') = hasFailed (pz w)
    ∧ isShuffling (pz w') = false ∧ isAnimating (pz w') = false.
Proof.
  intros Hw.
  destruct (performAnimatedShuffle_spec o w Hw)
    as (w' & E & _ & Hc & Hg & Hm & Hwon & Hf & Hsh & Han & _).
  exists w'. by split_and!.
Qed.

Lemma performAnimatedShuffle_frame_witness :
  ∃ w', performAnimatedShuffle sampleOracle leafyStart = Some w'
        ∧ moveCount (pz w') = 0%Z ∧ isShuffling (pz w') = false.
Proof.
  destruct (performAnimatedShuffle_frame sampleOracle leafyStart
              leafyStart_reachable) as (w' & E & _ & _ & Hm & _ & _ & Hsh & _).
  exists w'. split; [exact E|]. split; [exact Hm|exact Hsh].
Defined.

(** X13: When the shuffle ends, the decorative pass included, every tile is drawn
    on its own cell: the container of each tile is at the coordinates of
    the tile's row and column. *)
Theorem performAnimatedShuffle_home (o : Oracle) (w : World) :
  reachable w →
  ∃ w', performAnimatedShuffle o w = Some w'
        ∧ Forall atHome (tiles (pz w')).
Proof.
  intros Hw.
  destruct (performAnimatedShuffle_spec o w Hw) as (w' & E & Hrest).
  exists w'. split; [done|]. apply Hrest.
Qed.

Lemma performAnimatedShuffle_home_witness :
  ∃ w', performAnimatedShuffle sampleOracle leafyStart = Some w'
        ∧ Forall atHome (tiles (pz w')).
Proof.
  exact (performAnimatedShuffle_home sampleOracle leafyStart leafyStart_reachable).
Defined.

(** ** The decorative pass without tiles *)

(** X14: The next round of the decorative pass is scheduled by the tween of the
    last tile animated. With at least one tile the pass runs its rounds and
    clears [isShuffling]; with no tile and at least one round to run, no
    tween is started, the pass stops in its first round and the world stays
    as it is: [isShuffling] is never cleared. *)
Theorem performHybridShuffle_isShuffling (o : Oracle) (w : World) :
  (tiles (pz w) ≠ [] → isShuffling (pz (performHybridShuffle o w)) = false)
  ∧ (tiles (pz w) = [] → 0 < HYBRID_SHUFFLE_COUNT (cfg w) →
     performHybridShuffle o w = w)
  ∧ (HYBRID_SHUFFLE_COUNT (cfg w) = 0 →
     isShuffling (pz (performHybridShuffle o w)) = false).
Proof.
  unfold performHybridShuffle. split_and!.
  - intros Hts. by apply makeHybridMove_fields.
  - intros Hts Hn. destruct (HYBRID_SHUFFLE_COUNT (cfg w)) as [|n]; [lia|].
    cbn [makeHybridMove]. unfold makeHybridMove_round.
    destruct w as [c g [ts gd ep mc an sh won fl]]. simpl in *. subst ts.
    by destruct (hybrid_coin o 0).
  - by intros ->.
Qed.

Lemma performHybridShuffle_isShuffling_witness :
  isShuffling (pz (performHybridShuffle sampleOracle leafyStart)) = false
  ∧ performHybridShuffle sampleOracle (with_pz (set_isShuffling true) initialWorld)
    = with_pz (set_isShuffling true) initialWorld.
Proof.
  split.
  - destruct (performHybridShuffle_isShuffling sampleOracle leafyStart)
      as (H & _ & _).
    apply H. intros Hnil. apply (f_equal length) in Hnil. vm_compute in Hnil.
    discriminate Hnil.
  - destruct (performHybridShuffle_isShuffling sampleOracle
                (with_pz (set_isShuffling true) initialWorld)) as (_ & H & _).
    apply H; [reflexivity|]. vm_compute. lia.
Defined.

(** ** Clicks *)

Lemma onTileClick_ignored i w : idle (pz w) = false → onTileClick i w = Some w.
Proof.
  unfold idle, onTileClick. intros H. apply negb_false_iff in H. by rewrite H.
Qed.

Lemma play_not_idle (clicks : list nat) (w : World) :
  idle (pz w) = false → play clicks w = Some w.
Proof.
  intros H. unfold play. induction clicks as [|i clicks IH]; simpl; [done|].
  by rewrite onTileClick_ignored.
Qed.

(** ** The reset button *)

Lemma resetPuzzle_spec o w :
  reachable w →
  ∃ w', resetPuzzle o w = Some w' ∧ reachable w'
    ∧ idle (pz w') = true ∧ moveCount (pz w') = 0%Z
    ∧ cfg w' = cfg w ∧ gs w' = gs w.
Proof.
  intros Hw. unfold resetPuzzle.
  destruct (performAnimatedShuffle_spec o (resetPuzzle_fields w))
    as (w' & E & Hr & Hc & Hg & Hm & Hwon & Hf & Hsh & Han & _);
    [by apply reach_reset_fields|].
  exists w'. simpl in *. unfold idle. rewrite Hwon, Hf, Hsh, Han.
  by split_and!.
Qed.

(** X15: The reset button: pressed while a tween or the shuffle runs it does
    nothing; otherwise, won or failed or in play, the puzzle is shuffled
    anew, with no move counted and clicks accepted again. A reset gives
    nothing back: [GameState], the pet's health with it, is as it was. *)
Theorem onResetClick_spec (o : Oracle) (w : World) :
  reachable w →
  (isAnimating (pz w) || isShuffling (pz w) = true → onResetClick o w = Some w)
  ∧ (isAnimating (pz w) || isShuffling (pz w) = false →
     ∃ w', onResetClick o w = Some w' ∧ reachable w'
       ∧ idle (pz w') = true ∧ moveCount (pz w') = 0%Z
       ∧ cfg w' = cfg w ∧ gs w' = gs w).
Proof.
  intros Hw. unfold onResetClick. split.
  - intros H. rewrite <- negb_orb, H. done.
  - intros H. rewrite <- negb_orb, H. simpl. by apply resetPuzzle_spec.
Qed.

Lemma gardenFailed_reachable : reachable gardenFailed.
Proof.
  apply (moveTile_reachable garden49 3 true); [apply garden49_reachable| |];
    by vm_compute.
Qed.

Lemma onResetClick_spec_witness :
  ∃ w', onResetClick sampleOracle gardenFailed = Some w'
        ∧ idle (pz w') = true
        ∧ hp (petStats (gs w')) = 90%Z.
Proof.
  destruct (onResetClick_spec sampleOracle gardenFailed gardenFailed_reachable)
    as [_ H].
  destruct H as (w' & E & _ & Hidle & _ & _ & Hg); [by vm_compute|].
  exists w'. split; [exact E|]. split; [exact Hidle|]. rewrite Hg.
  by vm_compute.
Defined.

(** ** The debug recipe cycle *)

Lemma nextRecipe_catalogue r :
  r ∈ RECIPES → ∃ r', nextRecipe r = Some r' ∧ r' ∈ RECIPES.
Proof. intros H. catalogue H; eexists; (split; [reflexivity|in_catalogue]). Qed.

Lemma createGrid_recipe_catalogue_size r : r ∈ RECIPES → gridSize r = Some 3.
Proof. intros H. by catalogue H. Qed.

Lemma cycle_setup_next w r :
  reachable w → currentRecipe (gs w) = Some r →
  ∃ w' r', cycle_setup w = Some w' ∧ reachable w'
    ∧ nextRecipe r = Some r' ∧ r' ∈ RECIPES
    ∧ currentRecipe (gs w') = Some r'
    ∧ cfg w' = RecipeSystem.applyRecipeConfig (Some r') (cfg w)
    ∧ petStats (gs w') = petStats (gs w)
    ∧ completedRecipes (gs w') = completedRecipes (gs w)
    ∧ lastResult (gs w') = lastResult (gs w)
    ∧ totalMoves (gs w') = totalMoves (gs w)
    ∧ gridData (pz w') = solvedGrid (sequence r') 3 3
    ∧ moveCount (pz w') = 0%Z
    ∧ isWon (pz w') = false ∧ hasFailed (pz w') = false.
Proof.
  intros Hw Hcur. pose proof (reachable_Inv _ Hw) as HI.
  destruct (inv_recipe _ HI) as (r0 & Hr & Hcur0 & _).
  assert (r0 = r) as -> by congruence.
  destruct (nextRecipe_catalogue r Hr) as (r' & Hnext & Hr').
  destruct (cycle_setup_Inv w HI) as (w' & E & _).
  exists w', r'. split; [done|]. split; [by eapply reach_cycle|].
  split; [done|]. split; [done|].
  unfold cycle_setup in E. rewrite (inv_mode _ HI), Hcur in E.
  cbn [negb mbind option_bind] in E.
  assert (RecipeSystem.getAllRecipes
            !! match findIndex (recipe_id r) RecipeSystem.getAllRecipes with
               | Some currentIndex =>
                   (currentIndex + 1) `mod` length RecipeSystem.getAllRecipes
               | None => 0
               end = Some r') as Hlook.
  { rewrite <- Hnext. unfold nextRecipe, RecipeSystem.getAllRecipes.
    by destruct (findIndex (recipe_id r) RECIPES). }
  rewrite Hlook in E. cbn [mbind option_bind] in E. simpl in E.
  rewrite (createGrid_recipe_catalogue_size r' Hr') in E. simpl in E.
  match type of E with
  | createGrid ?n ?w0 = _ =>
      destruct (createGrid_frame n w0 w' E) as (Hc & Hg & _ & _ & Hm & Hwon & Hf);
      destruct (createGrid_recipe_mode n w0 r') as (w'' & E' & Hgrid & _);
        [simpl; apply (inv_mode _ HI)|done|]
  end.
  assert (w'' = w') as -> by congruence.
  rewrite Hg, Hc. simpl. by split_and!.
Qed.

Lemma cycleToNextRecipe_spec o w r :
  reachable w → currentRecipe (gs w) = Some r →
  ∃ w' r', cycleToNextRecipe o w = Some w' ∧ reachable w'
    ∧ nextRecipe r = Some r' ∧ r' ∈ RECIPES
    ∧ currentRecipe (gs w') = Some r'
    ∧ cfg w' = RecipeSystem.applyRecipeConfig (Some r') (cfg w)
    ∧ idle (pz w') = true ∧ moveCount (pz w') = 0%Z
    ∧ petStats (gs w') = petStats (gs w)
    ∧ completedRecipes (gs w') = completedRecipes (gs w).
Proof.
  intros Hw Hcur. unfold cycleToNextRecipe.
  rewrite (inv_mode _ (reachable_Inv _ Hw)). simpl.
  destruct (cycle_setup_next w r Hw Hcur)
    as (w1 & r' & E1 & Hw1 & Hnext & Hr' & Hcur1 & Hc1 & Hp1 & Hd1 & _).
  rewrite E1. simpl.
  destruct (performAnimatedShuffle_spec o w1 Hw1)
    as (w2 & E2 & Hw2 & Hc2 & Hg2 & Hm2 & Hwon2 & Hf2 & Hsh2 & Han2 & _).
  rewrite E2. simpl. eexists _, r'. split; [reflexivity|].
  split; [by apply reach_reset_fields|].
  simpl. unfold idle. simpl. rewrite Hsh2, Han2, Hc2, Hg2, Hc1.
  by split_and!.
Qed.

(** X16: One press of the debug key: from every reachable world
    [cycleToNextRecipe] returns; the recipe is the one after the current one
    in the catalogue (the first after the last), its move limits are the
    configured ones, the board is shuffled with no move counted and accepts
    clicks, and the pet and the record of completed recipes are as before. *)
Theorem cycleToNextRecipe_next (o : Oracle) (w : World) (r : Recipe) :
  reachable w → currentRecipe (gs w) = Some r →
  ∃ w' r', cycleToNextRecipe o w = Some w' ∧ reachable w'
    ∧ nextRecipe r = Some r' ∧ currentRecipe (gs w') = Some r'
    ∧ MAX_MOVES (cfg w') = RecipeSystem.or_default_Z (maxMoves r') 50
    ∧ OPTIMAL_MOVES (cfg w') = RecipeSystem.or_default_Z (optimalMoves r') 20
    ∧ idle (pz w') = true ∧ moveCount (pz w') = 0%Z
    ∧ petStats (gs w') = petStats (gs w)
    ∧ completedRecipes (gs w') = completedRecipes (gs w).
Proof.
  intros Hw Hcur.
  destruct (cycleToNextRecipe_spec o w r Hw Hcur)
    as (w' & r' & E & Hw' & Hnext & _ & Hcur' & Hc & Hidle & Hm & Hp & Hd).
  exists w', r'. rewrite Hc. by split_and!.
Qed.

Lemma cycleToNextRecipe_next_witness :
  ∃ w', cycleToNextRecipe sampleOracle leafyStart = Some w'
        ∧ currentRecipe (gs w') = Some cheesy_beast
        ∧ MAX_MOVES (cfg w') = 40%Z.
Proof.
  destruct (cycleToNextRecipe_next sampleOracle leafyStart leafy_stack
              leafyStart_reachable eq_refl)
    as (w' & r' & E & _ & Hnext & Hcur & Hmax & _).
  assert (r' = cheesy_beast) as Hr' by (by injection Hnext).
  exists w'. split; [exact E|]. rewrite Hcur, Hmax, Hr'. split; reflexivity.
Defined.

Lemma cycleTimes_recipe os : ∀ w r,
  reachable w → currentRecipe (gs w) = Some r →
  ∃ wk, cycleTimes os w = Some wk ∧ reachable wk
        ∧ currentRecipe (gs wk)
          = Nat.iter (length os) (λ acc, acc ≫= nextRecipe) (Some r).
Proof.
  induction os as [|o os IH]; intros w r Hw Hcur; [by exists w|].
  destruct (cycleToNextRecipe_spec o w r Hw Hcur)
    as (w1 & r' & E & Hw1 & Hnext & _ & Hcur1 & _).
  destruct (IH w1 r' Hw1 Hcur1) as (wk & Ek & Hwk & Hk).
  exists wk. cbn [cycleTimes]. rewrite E. cbn [mbind option_bind].
  split; [done|]. split; [done|].
  cbn [length]. rewrite Nat.iter_succ_r. cbn [mbind option_bind].
  by rewrite Hnext.
Qed.

(** X17: The cycle has period six: six presses of the debug key, whatever their
    shuffles draw, lead back to the recipe the session was on, and fewer
    presses to another one, so every recipe of the catalogue is visited on
    the way. *)
Theorem cycleTimes_period (os : list Oracle) (w : World) :
  reachable w →
  (length os = 6 →
   ∃ w6, cycleTimes os w = Some w6
         ∧ currentRecipe (gs w6) = currentRecipe (gs w))
  ∧ (0 < length os < 6 →
     ∃ wk, cycleTimes os w = Some wk
           ∧ currentRecipe (gs wk) ≠ currentRecipe (gs w)).
Proof.
  intros Hw. pose proof (reachable_Inv _ Hw) as HI.
  destruct (inv_recipe _ HI) as (r & Hr & Hcur & _).
  destruct (cycleTimes_recipe os w r Hw Hcur) as (wk & E & _ & Hrk).
  split.
  - intros Hlen. exists wk. split; [done|]. rewrite Hrk, Hcur, Hlen. clear -Hr.
    catalogue Hr; reflexivity.
  - intros Hk. exists wk. split; [done|]. rewrite Hrk, Hcur. clear -Hr Hk.
    destruct (length os) as [|[|[|[|[|[|]]]]]]; try lia;
      catalogue Hr; by vm_compute.
Qed.

Lemma cycleTimes_period_witness :
  ∃ w6, cycleTimes (replicate 6 sampleOracle) leafyStart = Some w6
        ∧ currentRecipe (gs w6) = Some leafy_stack.
Proof.
  destruct (cycleTimes_period (replicate 6 sampleOracle) leafyStart
              leafyStart_reachable)
    as [H _].
  destruct (H eq_refl) as (w6 & E & H6).
  exists w6. split; [exact E|exact H6].
Defined.

(** ** Legacy mode *)

Section legacy.
Variable n : nat.

Lemma legacySequence_length : length (legacySequence n) = n * n - 1.
Proof. unfold legacySequence. by rewrite length_fmap, length_seq. Qed.

Lemma legacySequence_nonzero : Forall (λ v : Z, v ≠ 0%Z) (legacySequence n).
Proof.
  unfold legacySequence. apply Forall_fmap, list.Forall_forall.
  intros i Hi. apply elem_of_seq in Hi. simpl. lia.
Qed.

(** The value [createGrid] and [resetGridToSolved] write in legacy mode. *)
Lemma legacy_value idx :
  (if bool_decide (Z.of_nat (idx + 1) ≤ Z.of_nat (n * n) - 1)%Z
   then Z.of_nat (idx + 1) else 0%Z)
  = cellValue (legacySequence n) idx.
Proof.
  unfold cellValue, legacySequence. rewrite list_lookup_fmap.
  case_bool_decide as H.
  - rewrite lookup_seq_lt by lia. simpl. f_equal. lia.
  - by rewrite lookup_seq_ge by lia.
Qed.

Lemma createGrid_legacy_cells row k ts :
  for_loop k (createGrid_legacy_cell n row) ([], ts)
  = Some (solvedRow (legacySequence n) n row k,
          ts ++ solvedTilesRow (legacySequence n) n row k).
Proof.
  induction k as [|k IH].
  - rewrite for_loop_0. unfold solvedTilesRow. simpl. by rewrite app_nil_r.
  - rewrite for_loop_S, IH. cbn [mbind option_bind].
    unfold createGrid_legacy_cell. cbv zeta.
    pose proof (solvedRow_length (legacySequence n) n row k) as Hlen.
    rewrite (legacy_value (row * n + k)).
    rewrite js_write_snoc by done. rewrite js_read_snoc by done.
    assert (Hrow : solvedRow (legacySequence n) n row (S k)
                   = solvedRow (legacySequence n) n row k
                     ++ [Some (cellValue (legacySequence n) (row * n + k))]).
    { unfold solvedRow. by rewrite seq_S, fmap_app. }
    assert (Hts : solvedTilesRow (legacySequence n) n row (S k)
                  = solvedTilesRow (legacySequence n) n row k
                    ++ option_list (tileAt (legacySequence n) n row k)).
    { unfold solvedTilesRow. rewrite seq_S, omap_app. simpl.
      by destruct (tileAt (legacySequence n) n row k). }
    rewrite Hrow, Hts. unfold tileAt.
    destruct (cellValue (legacySequence n) (row * n + k)); simpl;
      unfold createTile; by rewrite ?app_nil_r, ?app_assoc.
Qed.

Lemma createGrid_legacy_rows k :
  for_loop k (createGrid_legacy_row n) ([], [])
  = Some (solvedGrid (legacySequence n) n k, solvedTiles (legacySequence n) n k).
Proof.
  induction k as [|k IH]; [done|].
  rewrite for_loop_S, IH. cbn [mbind option_bind].
  unfold createGrid_legacy_row.
  rewrite createGrid_legacy_cells. simpl.
  unfold solvedGrid, solvedTiles. rewrite !seq_S, fmap_app, bind_app. simpl.
  by rewrite app_nil_r.
Qed.

Lemma createGrid_legacy_eq :
  createGrid_legacy n
  = Some (solvedGrid (legacySequence n) n n, solvedTiles (legacySequence n) n n,
          (n - 1, n - 1)).
Proof. unfold createGrid_legacy. by rewrite createGrid_legacy_rows. Qed.

Lemma legacy_scan_true g (cells : list (nat * nat)) :
  legacy_scan g n cells = Some true
  ↔ Forall (λ rc, grid_read g rc.1 rc.2
                  = Some (Some (legacyExpected n rc.1 rc.2))) cells.
Proof.
  induction cells as [|[row col] cells IH]; simpl.
  - split; [by constructor|done].
  - rewrite list.Forall_cons. simpl. rewrite <- IH. unfold legacyExpected.
    destruct (grid_read g row col) as [actualValue|]; simpl;
      [|split; [done|by intros [? _]]].
    destruct (bool_decide (row = n - 1) && bool_decide (col = n - 1));
      case_bool_decide as Hd;
      (split; [intros H; first [done | split; [congruence|done]]
              |intros [[= ?] ?]; first [done | congruence]]).
Qed.

(** The legacy win check, with its early returns: the board is reported
    solved exactly when every cell holds its row-major number and the last
    cell holds 0. *)
Lemma legacy_solved_true g :
  legacy_solved g n = Some true
  ↔ ∀ row col, row < n → col < n →
      grid_read g row col = Some (Some (legacyExpected n row col)).
Proof.
  unfold legacy_solved. rewrite legacy_scan_true, list.Forall_forall. split.
  - intros H row col Hr Hc. apply (H (row, col)).
    apply list_elem_of_bind. exists row. split; [|apply elem_of_seq; lia].
    apply list_elem_of_bind. exists col. split; [|apply elem_of_seq; lia].
    by apply list_elem_of_singleton.
  - intros H [row col] Hin.
    apply list_elem_of_bind in Hin as (row' & Hin & Hrow).
    apply list_elem_of_bind in Hin as (col' & Hin & Hcol).
    apply list_elem_of_singleton in Hin as [= -> ->].
    apply elem_of_seq in Hrow. apply elem_of_seq in Hcol. simpl. apply H; lia.
Qed.

Lemma legacy_layout_expected row col :
  row < n → col < n →
  cellValue (legacySequence n) (row * n + col) = legacyExpected n row col.
Proof.
  intros Hr Hc. rewrite <- legacy_value. unfold legacyExpected.
  destruct (decide (row = n - 1)) as [Hrow|Hrow];
    destruct (decide (col = n - 1)) as [Hcol|Hcol];
    rewrite ?(bool_decide_true (row = n - 1)), ?(bool_decide_false (row = n - 1)),
      ?(bool_decide_true (col = n - 1)), ?(bool_decide_false (col = n - 1))
      by done; simpl.
  - rewrite bool_decide_false; [done|]. nia.
  - rewrite bool_decide_true; [done|]. nia.
  - rewrite bool_decide_true; [done|]. nia.
  - rewrite bool_decide_true; [done|]. nia.
Qed.
End legacy.

Lemma createGrid_legacy_mode n w :
  RECIPE_MODE (cfg w) = false →
  createGrid n w
  = Some (with_pz (λ p,
      {| tiles := solvedTiles (legacySequence n) n n;
         gridData := solvedGrid (legacySequence n) n n;
         emptyPos := (n - 1, n - 1); moveCount := 0;
         isAnimating := isAnimating p; isShuffling := isShuffling p;
         isWon := false; hasFailed := false |}) w).
Proof.
  intros Hmode. unfold createGrid. rewrite Hmode, createGrid_legacy_eq. done.
Qed.

Lemma legacy_zero_cell n :
  0 < n →
  grid_read (solvedGrid (legacySequence n) n n) (n - 1) (n - 1) = Some (Some 0%Z).
Proof.
  intros Hn. rewrite solvedGrid_read by lia. do 2 f_equal.
  unfold cellValue. rewrite lookup_ge_None_2; [done|].
  rewrite legacySequence_length. nia.
Qed.

Lemma legacy_flat n :
  0 < n → flat (solvedGrid (legacySequence n) n n) = legacySequence n ++ [0%Z].
Proof.
  intros Hn. rewrite solvedGrid_flat, solved_cells
    by (rewrite legacySequence_length; lia).
  rewrite legacySequence_length.
  by replace (n * n - (n * n - 1)) with 1 by nia.
Qed.

Lemma legacy_layout_solved n :
  legacy_solved (solvedGrid (legacySequence n) n n) n = Some true.
Proof.
  apply legacy_solved_true. intros row col Hr Hc.
  rewrite solvedGrid_read by done. by rewrite legacy_layout_expected.
Qed.

Lemma legacy_one_zero n :
  0 < n → zeroCells (solvedGrid (legacySequence n) n n) = 1.
Proof.
  intros Hn. unfold zeroCells. rewrite legacy_flat by done.
  rewrite list.filter_app.
  assert (filter (λ v : Z, v = 0%Z) (legacySequence n) = []) as ->; [|done].
  pose proof (legacySequence_nonzero n) as Hnz.
  induction Hnz as [|v l Hv _ IH]; [done|]. by rewrite filter_cons_False.
Qed.

(** X18: [createGrid] in legacy mode, for any grid size: the cells are the
    numbers 1 to [gridSize * gridSize - 1] in row-major order and then a
    single 0, which [emptyPos] names; one tile is made per number, on the
    cell that holds it; and the legacy win check accepts the layout. *)
Theorem createGrid_legacy_layout (n : nat) (w : World) :
  0 < n → RECIPE_MODE (cfg w) = false →
  ∃ w', createGrid n w = Some w'
    ∧ length (gridData (pz w')) = n
    ∧ Forall (λ rowArr : jsarray, length rowArr = n) (gridData (pz w'))
    ∧ flat (gridData (pz w')) = (Z.of_nat <$> seq 1 (n * n - 1)) ++ [0%Z]
    ∧ tile_id <$> tiles (pz w') = Z.of_nat <$> seq 1 (n * n - 1)
    ∧ Forall (λ t, cellOf (gridData (pz w')) t = Some (Some (tile_id t)))
             (tiles (pz w'))
    ∧ emptyPos (pz w') = (n - 1, n - 1)
    ∧ emptyCell (pz w') = Some (Some 0%Z)
    ∧ zeroCells (gridData (pz w')) = 1
    ∧ legacy_solved (gridData (pz w')) n = Some true
    ∧ moveCount (pz w') = 0%Z.
Proof.
  intros Hn Hmode. rewrite createGrid_legacy_mode by done.
  eexists. split; [reflexivity|]. simpl. split_and!; try done.
  - apply solvedGrid_length.
  - apply solvedGrid_cols.
  - by apply legacy_flat.
  - rewrite solvedTiles_ids, solved_cells
      by (rewrite legacySequence_length; lia).
    apply nonzero_cells, legacySequence_nonzero.
  - by apply solvedTiles_cells.
  - unfold emptyCell. simpl. by apply legacy_zero_cell.
  - by apply legacy_one_zero.
  - apply legacy_layout_solved.
Qed.

Lemma createGrid_legacy_layout_witness :
  ∃ w', createGrid 3 legacyWorld = Some w'
        ∧ flat (gridData (pz w')) = [1; 2; 3; 4; 5; 6; 7; 8; 0]%Z
        ∧ emptyPos (pz w') = (2, 2).
Proof.
  assert (0 < 3) as Hn by lia.
  destruct (createGrid_legacy_layout 3 legacyWorld Hn eq_refl)
    as (w' & E & _ & _ & Hflat & _ & _ & Hep & _).
  exists w'. split; [exact E|]. split; [exact Hflat|exact Hep].
Defined.

Lemma legacy_scan_total g n (cells : list (nat * nat)) :
  Forall (λ rc, rc.1 < length g) cells → is_Some (legacy_scan g n cells).
Proof.
  induction 1 as [|[row col] cells Hrow _ IH]; simpl; [done|].
  destruct (lookup_lt_is_Some_2 g row Hrow) as [rowArr Hr].
  unfold grid_read. rewrite Hr. simpl.
  by destruct (if _ && _ then _ else _).
Qed.

Lemma legacy_solved_total g n : n ≤ length g → is_Some (legacy_solved g n).
Proof.
  intros Hlen. apply legacy_scan_total, list.Forall_forall. intros [row col] Hin.
  apply list_elem_of_bind in Hin as (row' & Hin & Hrow).
  apply list_elem_of_bind in Hin as (col' & Hin & Hcol).
  apply list_elem_of_singleton in Hin as [= -> ->].
  apply elem_of_seq in Hrow. simpl. lia.
Qed.

(** X19: The win check in legacy mode, on a grid that has its rows: the board is
    solved exactly when every cell holds its row-major number and the last
    cell 0. A board that is not solved is left as it is. A solved one goes
    to [onPuzzleSolved], and in a session without a recipe, as [create]
    leaves it in legacy mode, that call throws: [onPuzzleComplete] reads
    [recipe.id] of [null]. *)
Theorem checkWinCondition_legacy (w : World) :
  RECIPE_MODE (cfg w) = false →
  GRID_SIZE (cfg w) ≤ length (gridData (pz w)) →
  let solved := ∀ row col, row < GRID_SIZE (cfg w) → col < GRID_SIZE (cfg w) →
                  grid_read (gridData (pz w)) row col
                  = Some (Some (legacyExpected (GRID_SIZE (cfg w)) row col)) in
  (solved → checkWinCondition w = onPuzzleSolved w)
  ∧ (¬ solved → checkWinCondition w = Some w)
  ∧ (solved → currentRecipe (gs w) = None → checkWinCondition w = None)
  ∧ (solved → ∀ r, currentRecipe (gs w) = Some r →
       ∃ w', checkWinCondition w = Some w' ∧ isWon (pz w') = true
             ∧ lastResult (gs w') = Some win).
Proof.
  intros Hmode Hlen solved.
  assert (checkWinCondition w
          = legacy_solved (gridData (pz w)) (GRID_SIZE (cfg w)) ≫=
              λ solved : bool, if solved then onPuzzleSolved w else Some w) as ->.
  { unfold checkWinCondition. by rewrite Hmode. }
  destruct (legacy_solved_total _ _ Hlen) as [b Hb]. rewrite Hb. simpl.
  pose proof (legacy_solved_true (GRID_SIZE (cfg w)) (gridData (pz w))) as Hiff.
  fold solved in Hiff. rewrite Hb in Hiff.
  destruct b.
  - assert solved as Hs by (by apply Hiff). split_and!; try done.
    + intros _ Hcur. unfold onPuzzleSolved. simpl. by rewrite Hcur.
    + intros _ r Hcur. unfold onPuzzleSolved. simpl. rewrite Hcur. simpl.
      by eexists.
  - assert (¬ solved) as Hs by (intros Hs; apply Hiff in Hs; done).
    split_and!; try done.
Qed.

Lemma checkWinCondition_legacy_witness :
  checkWinCondition legacyStart = None
  ∧ currentRecipe (gs legacyStart) = None.
Proof.
  assert (GRID_SIZE (cfg legacyStart) ≤ length (gridData (pz legacyStart))) as Hlen
    by (vm_compute; lia).
  destruct (checkWinCondition_legacy legacyStart eq_refl Hlen) as (_ & _ & H & _).
  split; [|reflexivity]. apply H; [|reflexivity].
  intros row col Hr Hc. change (GRID_SIZE (cfg legacyStart)) with 3 in *.
  destruct row as [|[|[|]]]; try lia; destruct col as [|[|[|]]]; try lia;
    reflexivity.
Defined.

Section legacy_reset.
Variable n : nat.

Lemma reset_legacy_cells g row k :
  length g = n → Forall (λ rowArr : jsarray, length rowArr = n) g →
  row < n → k ≤ n →
  for_loop k (reset_legacy_cell n row) (overwritten (legacySequence n) n (row * n) g)
  = Some (overwritten (legacySequence n) n (row * n + k) g).
Proof.
  intros Hrows Hcols Hr. induction k as [|k IH]; intros Hk.
  - by rewrite for_loop_0, Nat.add_0_r.
  - rewrite for_loop_S, IH by lia. cbn [mbind option_bind].
    unfold reset_legacy_cell. cbv zeta. rewrite legacy_value.
    rewrite overwritten_step by (done || lia). do 2 f_equal. lia.
Qed.

Lemma reset_legacy_rows g k :
  length g = n → Forall (λ rowArr : jsarray, length rowArr = n) g →
  k ≤ n →
  for_loop k (λ row, for_loop n (reset_legacy_cell n row)) g
  = Some (overwritten (legacySequence n) n (k * n) g).
Proof.
  intros Hrows Hcols. induction k as [|k IH]; intros Hk.
  - rewrite for_loop_0. simpl. by rewrite overwritten_0.
  - rewrite for_loop_S, IH by lia. cbn [mbind option_bind].
    rewrite reset_legacy_cells by (done || lia). do 2 f_equal. lia.
Qed.

Lemma reset_legacy_eq g :
  length g = n → Forall (λ rowArr : jsarray, length rowArr = n) g →
  reset_legacy n g = Some (solvedGrid (legacySequence n) n n, (n - 1, n - 1)).
Proof.
  intros Hrows Hcols. unfold reset_legacy.
  rewrite reset_legacy_rows by done. simpl. by rewrite overwritten_all.
Qed.
End legacy_reset.

(** X20: [resetGridToSolved] in legacy mode, on a grid of the configured size
    whose tiles carry numbers of the layout: whatever the cells held, the
    grid is the legacy layout again, with its single 0 at [emptyPos]; every
    tile keeps its id and stands on the cell that holds it; and
    the legacy win check accepts the board. *)
Theorem resetGridToSolved_legacy (w : World) :
  RECIPE_MODE (cfg w) = false → 0 < GRID_SIZE (cfg w) →
  length (gridData (pz w)) = GRID_SIZE (cfg w) →
  Forall (λ rowArr : jsarray, length rowArr = GRID_SIZE (cfg w)) (gridData (pz w)) →
  Forall (λ t, tile_id t ∈ legacySequence (GRID_SIZE (cfg w))) (tiles (pz w)) →
  ∃ w', resetGridToSolved w = Some w'
    ∧ flat (gridData (pz w'))
      = (Z.of_nat <$> seq 1 (GRID_SIZE (cfg w) * GRID_SIZE (cfg w) - 1)) ++ [0%Z]
    ∧ emptyPos (pz w') = (GRID_SIZE (cfg w) - 1, GRID_SIZE (cfg w) - 1)
    ∧ emptyCell (pz w') = Some (Some 0%Z)
    ∧ tile_id <$> tiles (pz w') = tile_id <$> tiles (pz w)
    ∧ Forall (λ t, cellOf (gridData (pz w')) t = Some (Some (tile_id t)))
             (tiles (pz w'))
    ∧ legacy_solved (gridData (pz w')) (GRID_SIZE (cfg w)) = Some true
    ∧ cfg w' = cfg w ∧ gs w' = gs w ∧ moveCount (pz w') = moveCount (pz w).
Proof.
  intros Hmode Hn Hrows Hcols Hts. unfold resetGridToSolved. cbv zeta.
  set (n := GRID_SIZE (cfg w)) in *.
  assert ((match RECIPE_MODE (cfg w), currentRecipe (gs w) with
           | true, Some recipe =>
               reset_recipe (sequence recipe) n (gridData (pz w)) (emptyPos (pz w))
           | _, _ => reset_legacy n (gridData (pz w))
           end) = Some (solvedGrid (legacySequence n) n n, (n - 1, n - 1))) as ->.
  { rewrite Hmode. by apply reset_legacy_eq. }
  cbn [mbind option_bind].
  destruct (reset_tiles_placed (legacySequence n) n (tiles (pz w)))
    as (ts' & -> & Hids & Hcells); [rewrite legacySequence_length; lia|done|].
  cbn [mbind option_bind]. eexists. split; [reflexivity|]. simpl.
  split_and!; try done.
  - by apply legacy_flat.
  - unfold emptyCell. simpl. by apply legacy_zero_cell.
  - apply legacy_layout_solved.
Qed.

Lemma resetGridToSolved_legacy_witness :
  ∃ w', resetGridToSolved legacyStart = Some w'
        ∧ flat (gridData (pz w')) = [1; 2; 3; 4; 5; 6; 7; 8; 0]%Z
        ∧ emptyPos (pz w') = (2, 2).
Proof.
  assert (0 < GRID_SIZE (cfg legacyStart)) as Hn by (vm_compute; lia).
  assert (Forall (λ rowArr : jsarray, length rowArr = GRID_SIZE (cfg legacyStart))
                 (gridData (pz legacyStart))) as Hcols
    by (repeat constructor).
  assert (Forall (λ t, tile_id t ∈ legacySequence (GRID_SIZE (cfg legacyStart)))
                 (tiles (pz legacyStart))) as Hts.
  { repeat constructor; apply (bool_decide_unpack _); by vm_compute. }
  destruct (resetGridToSolved_legacy legacyStart eq_refl Hn eq_refl Hcols Hts)
    as (w' & E & Hflat & Hep & _).
  exists w'. split; [exact E|]. split; [exact Hflat|exact Hep].
Defined.

(** ** The win check on the solved layout *)

Lemma omap_length_le (a : jsarray) : length (omap id a) ≤ length a.
Proof. induction a as [|[x|] a IH]; cbn in *; lia. Qed.

Lemma flat_length_le (g : list jsarray) n :
  length g = n → Forall (λ rowArr : jsarray, length rowArr = n) g →
  length (flat g) ≤ n * n.
Proof.
  intros Hrows Hcols.
  assert (length (flat g) ≤ length g * n) as H; [|by rewrite Hrows in H].
  clear Hrows. unfold flat.
  induction Hcols as [|rowArr g Hrow _ IH]; simpl; [done|].
  rewrite omap_app, length_app. pose proof (omap_length_le rowArr). lia.
Qed.

(** X21: The layout [createGrid] and [resetGridToSolved] write passes the win
    check of its own recipe exactly when the sequence fits the grid. A
    sequence longer than the grid has cells can never be completed, on that
    layout or on any other board of that size: the check reads past the end
    of the flattened grid. *)
Theorem recipe_solved_layout (recipeSequence : list Z) (n : nat) :
  (recipe_solved (solvedGrid recipeSequence n n) recipeSequence = true
   ↔ length recipeSequence ≤ n * n)
  ∧ (∀ ep, ∃ g ts ep1,
       createGrid_recipe recipeSequence n ep = Some (g, ts, ep1)
       ∧ (length recipeSequence ≤ n * n → recipe_solved g recipeSequence = true))
  ∧ (∀ g, length g = n → Forall (λ rowArr : jsarray, length rowArr = n) g →
          n * n < length recipeSequence →
          recipe_solved g recipeSequence = false).
Proof.
  assert (∀ g, length (flat g) < length recipeSequence →
               recipe_solved g recipeSequence = false) as Hshort.
  { intros g Hlen. apply not_true_is_false. rewrite recipe_solved_spec.
    intros Heq. apply (f_equal length) in Heq. rewrite length_take in Heq. lia. }
  assert (length recipeSequence ≤ n * n →
          recipe_solved (solvedGrid recipeSequence n n) recipeSequence = true)
    as Hfits.
  { intros Hlen. apply recipe_solved_spec.
    rewrite solvedGrid_flat, solved_cells by done.
    by rewrite take_app_length. }
  split_and!.
  - split; [|done]. intros Hs.
    destruct (decide (length recipeSequence ≤ n * n)) as [|Hgt]; [done|].
    rewrite Hshort in Hs; [done|].
    rewrite solvedGrid_flat, length_fmap, length_seq. lia.
  - intros ep. destruct (createGrid_recipe_total recipeSequence n ep) as [ep1 E].
    by eexists _, _, ep1.
  - intros g Hrows Hcols Hlen. apply Hshort.
    pose proof (flat_length_le g n Hrows Hcols). lia.
Qed.

(** ** Layouts for any sequence and any size *)

Lemma zeros_count (recipeSequence : list Z) m :
  Forall (λ v : Z, v ≠ 0%Z) recipeSequence →
  length (filter (λ v : Z, v = 0%Z) (recipeSequence ++ replicate m 0%Z)) = m.
Proof.
  intros Hnz. rewrite list.filter_app, length_app.
  assert (filter (λ v : Z, v = 0%Z) recipeSequence = []) as ->.
  { induction Hnz as [|v l Hv _ IH]; [done|]. by rewrite filter_cons_False by done. }
  simpl. induction m as [|m IH]; [done|].
  change (replicate (S m) 0%Z) with (0%Z :: replicate m 0%Z).
  rewrite filter_cons_True by done. simpl. by rewrite IH.
Qed.

(** X22: [createGrid] in recipe mode, for any grid size and any recipe of
    nonzero ids that leaves a cell free: the cells are the sequence followed
    by zeros, as many as the grid has cells left; [emptyPos] names a cell
    that holds 0; one tile is made per id, on the cell that holds it; the
    nonzero values of the grid are those of the sequence; the layout passes
    the win check; and no move is counted. *)
Theorem createGrid_recipe_world (w : World) (r : Recipe) (n : nat) :
  RECIPE_MODE (cfg w) = true → currentRecipe (gs w) = Some r →
  length (sequence r) < n * n → Forall (λ v : Z, v ≠ 0%Z) (sequence r) →
  ∃ w', createGrid n w = Some w'
    ∧ flat (gridData (pz w'))
      = sequence r ++ replicate (n * n - length (sequence r)) 0%Z
    ∧ zeroCells (gridData (pz w')) = n * n - length (sequence r)
    ∧ nonzeroValues (flat (gridData (pz w'))) = nonzeroValues (sequence r)
    ∧ emptyCell (pz w') = Some (Some 0%Z)
    ∧ tile_id <$> tiles (pz w') = sequence r
    ∧ Forall (λ t, cellOf (gridData (pz w')) t = Some (Some (tile_id t)))
             (tiles (pz w'))
    ∧ recipe_solved (gridData (pz w')) (sequence r) = true
    ∧ moveCount (pz w') = 0%Z ∧ isWon (pz w') = false
    ∧ hasFailed (pz w') = false.
Proof.
  intros Hmode Hcur Hlen Hnz. unfold createGrid. rewrite Hmode, Hcur.
  destruct (createGrid_recipe_layout (sequence r) n (emptyPos (pz w)) Hlen Hnz)
    as (g & ts & ep1 & E & Hrows & Hcols & Hflat & Hids & Hcells & Hep).
  rewrite E. cbn [mbind option_bind]. eexists. split; [reflexivity|].
  unfold emptyCell, zeroCells, nonzeroValues. simpl. rewrite Hflat.
  split_and!; try done.
  - by apply zeros_count.
  - rewrite nonzero_cells by done. f_equal.
    pose proof (nonzero_cells (sequence r) 0 Hnz) as H0. simpl in H0.
    by rewrite app_nil_r in H0.
  - apply recipe_solved_spec. rewrite Hflat. by rewrite take_app_length.
Qed.

Lemma createGrid_recipe_world_witness :
  ∃ w', createGrid 4 (with_gs (set_currentRecipe (Some leafy_stack)) initialWorld)
        = Some w'
        ∧ zeroCells (gridData (pz w')) = 12
        ∧ tile_id <$> tiles (pz w') = [1; 2; 3; 8]%Z.
Proof.
  assert (length (sequence leafy_stack) < 4 * 4) as Hlen by (simpl; lia).
  assert (Forall (λ v : Z, v ≠ 0%Z) (sequence leafy_stack)) as Hnz
    by (repeat constructor; lia).
  destruct (createGrid_recipe_world
              (with_gs (set_currentRecipe (Some leafy_stack)) initialWorld)
              leafy_stack 4 eq_refl eq_refl Hlen Hnz)
    as (w' & E & _ & Hz & _ & _ & Hids & _).
  exists w'. split; [exact E|]. split; [exact Hz|exact Hids].
Defined.

(** X23: [resetGridToSolved] in recipe mode, for any grid size and any recipe of
    nonzero ids that leaves a cell free, on a grid of that size whose tiles
    carry ids of the recipe: whatever the cells held, the grid is the solved
    layout again, with as many zeros as cells are left and [emptyPos] on
    one of them; every tile keeps its id and stands on the cell that holds
    it; the board passes the win check; the move count, the configuration
    and [GameState] are untouched. *)
Theorem resetGridToSolved_world (w : World) (r : Recipe) :
  RECIPE_MODE (cfg w) = true → currentRecipe (gs w) = Some r →
  length (sequence r) < GRID_SIZE (cfg w) * GRID_SIZE (cfg w) →
  Forall (λ v : Z, v ≠ 0%Z) (sequence r) →
  length (gridData (pz w)) = GRID_SIZE (cfg w) →
  Forall (λ rowArr : jsarray, length rowArr = GRID_SIZE (cfg w)) (gridData (pz w)) →
  Forall (λ t, tile_id t ∈ sequence r) (tiles (pz w)) →
  ∃ w', resetGridToSolved w = Some w'
    ∧ flat (gridData (pz w'))
      = sequence r
        ++ replicate (GRID_SIZE (cfg w) * GRID_SIZE (cfg w) - length (sequence r))
                     0%Z
    ∧ zeroCells (gridData (pz w'))
      = GRID_SIZE (cfg w) * GRID_SIZE (cfg w) - length (sequence r)
    ∧ emptyCell (pz w') = Some (Some 0%Z)
    ∧ tile_id <$> tiles (pz w') = tile_id <$> tiles (pz w)
    ∧ Forall (λ t, cellOf (gridData (pz w')) t = Some (Some (tile_id t)))
             (tiles (pz w'))
    ∧ recipe_solved (gridData (pz w')) (sequence r) = true
    ∧ cfg w' = cfg w ∧ gs w' = gs w ∧ moveCount (pz w') = moveCount (pz w).
Proof.
  intros Hmode Hcur Hlen Hnz Hrows Hcols Hts.
  destruct (resetGridToSolved_layout (sequence r) (GRID_SIZE (cfg w)) w r
              Hmode Hcur eq_refl eq_refl Hlen Hnz Hrows Hcols Hts)
    as (w' & E & Hc & Hg & Hm & Hgrid & Hflat & Hids & Hcells & Hep).
  exists w'. unfold zeroCells. rewrite Hflat. split_and!; try done.
  - by apply zeros_count.
  - apply recipe_solved_spec. rewrite Hflat. by rewrite take_app_length.
Qed.

Lemma resetGridToSolved_world_witness :
  ∃ w', resetGridToSolved leafyOneOff = Some w'
        ∧ flat (gridData (pz w')) = [1; 2; 3; 8; 0; 0; 0; 0; 0]%Z
        ∧ emptyCell (pz w') = Some (Some 0%Z).
Proof.
  assert (length (sequence leafy_stack) < 3 * 3) as Hlen by (simpl; lia).
  assert (Forall (λ v : Z, v ≠ 0%Z) (sequence leafy_stack)) as Hnz
    by (repeat (apply Forall_cons_2; [lia|]); apply Forall_nil_2).
  assert (Forall (λ rowArr : jsarray, length rowArr = 3) (gridData (pz leafyOneOff)))
    as Hcols by (repeat (apply Forall_cons_2; [reflexivity|]); apply Forall_nil_2).
  assert (Forall (λ t, tile_id t ∈ sequence leafy_stack) (tiles (pz leafyOneOff)))
    as Hts.
  { repeat (apply Forall_cons_2; [apply (bool_decide_unpack _); by vm_compute|]).
    apply Forall_nil_2. }
  destruct (resetGridToSolved_world leafyOneOff leafy_stack
              eq_refl eq_refl Hlen Hnz eq_refl Hcols Hts)
    as (w' & E & Hflat & _ & Hep & _).
  exists w'. split; [exact E|]. split; [exact Hflat|exact Hep].
Defined.

(** ** Sequences too short for the grid *)

Section sparse.
Variables (recipeSequence : list Z) (n : nat).
Hypothesis Hshort : length recipeSequence + 2 ≤ n.

Lemma sparse_emptyPos ep :
  findEmptyPosition (solvedGrid recipeSequence n n) n ep = Some (0, n - 1).
Proof.
  unfold findEmptyPosition.
  apply (scan_empty_rows_topmost _ _ _ _ 0 (solvedRow recipeSequence n 0 n)).
  - lia.
  - intros r Hr. by apply solvedGrid_rows.
  - apply solvedGrid_lookup. lia.
  - lia.
  - unfold solvedRow, js_read. rewrite list_lookup_fmap, lookup_seq_lt by lia.
    simpl. f_equal. unfold cellValue. rewrite lookup_ge_None_2; [done|]. lia.
  - intros c' Hc'. lia.
  - intros r' rowArr' c' Hr'. lia.
Qed.

Lemma sparse_tiles t :
  t ∈ solvedTiles recipeSequence n n →
  currentRow t = 0 ∧ currentCol t < length recipeSequence.
Proof.
  intros Ht. unfold solvedTiles in Ht.
  apply list_elem_of_bind in Ht as (row & Ht & Hrow).
  apply elem_of_seq in Hrow. unfold solvedTilesRow in Ht.
  apply list_elem_of_omap in Ht as (col & Hcol & Ht).
  apply elem_of_seq in Hcol. unfold tileAt in Ht.
  case_decide as Hv; [done|]. injection Ht as <-. simpl.
  unfold cellValue in Hv.
  destruct (recipeSequence !! (row * n + col)) eqn:E; [|done].
  apply lookup_lt_Some in E. split; nia.
Qed.

Lemma sparse_cannot_move t p :
  t ∈ solvedTiles recipeSequence n n → emptyPos p = (0, n - 1) →
  canTileMove t p = false.
Proof.
  intros Ht Hep. destruct (sparse_tiles t Ht) as [Hr Hc].
  unfold canTileMove. rewrite Hep, Hr. simpl.
  repeat case_bool_decide; simpl; try done; lia.
Qed.
End sparse.

(** X24: A recipe whose sequence is at least two shorter than a row of the grid
    is laid out with no legal move: [emptyPos] is the last cell of the first
    row and the tiles stop two cells or more before it. No tile can move,
    and a step of the shuffle finds no candidate and leaves the board as it
    is. [validateRecipe] accepts such a recipe. *)
Theorem createGrid_sparse_stuck (w : World) (r : Recipe) (n : nat) :
  RECIPE_MODE (cfg w) = true → currentRecipe (gs w) = Some r →
  length (sequence r) + 2 ≤ n →
  ∃ w', createGrid n w = Some w'
    ∧ emptyPos (pz w') = (0, n - 1)
    ∧ (∀ i t, tiles (pz w') !! i = Some t → canTileMove t (pz w') = false)
    ∧ legalTiles (pz w') = []
    ∧ (∀ rnd lastMovedTile,
         makeShuffleMove_step rnd lastMovedTile w' = Some (w', None))
    ∧ (sequence r ≠ [] → recipe_id r ≠ EmptyString → name r ≠ EmptyString →
       RecipeSystem.validateRecipe (Some r) = true).
Proof.
  intros Hmode Hcur Hshort. unfold createGrid. rewrite Hmode, Hcur.
  unfold createGrid_recipe. rewrite createGrid_recipe_rows.
  cbn [mbind option_bind]. rewrite sparse_emptyPos by done.
  cbn [mbind option_bind]. eexists. split; [reflexivity|]. simpl.
  set (w' := with_pz _ w).
  assert (∀ i t, tiles (pz w') !! i = Some t → canTileMove t (pz w') = false)
    as Hcannot.
  { intros i t Hi. apply (sparse_cannot_move (sequence r) n); [done| |done].
    by eapply list_elem_of_lookup_2. }
  assert (legalTiles (pz w') = []) as Hlegal.
  { apply list.elem_of_nil_inv. intros i Hi.
    apply legalTiles_spec in Hi as (t & Ht & Hm).
    rewrite (Hcannot i t Ht) in Hm. done. }
  split_and!; try done.
  - intros rnd l. unfold makeShuffleMove_step.
    assert (movableTiles l (pz w') = []) as ->; [|done].
    unfold movableTiles. rewrite Hlegal. by destruct l.
  - intros Hseq Hid Hname. unfold RecipeSystem.validateRecipe.
    by rewrite !bool_decide_false.
Qed.

Lemma createGrid_sparse_stuck_witness :
  ∃ w', createGrid 3 (with_gs (set_currentRecipe (Some lone_crumb)) initialWorld)
        = Some w'
        ∧ emptyPos (pz w') = (0, 2) ∧ legalTiles (pz w') = []
        ∧ RecipeSystem.validateRecipe (Some lone_crumb) = true.
Proof.
  assert (length (sequence lone_crumb) + 2 ≤ 3) as Hshort by (simpl; lia).
  destruct (createGrid_sparse_stuck
              (with_gs (set_currentRecipe (Some lone_crumb)) initialWorld)
              lone_crumb 3 eq_refl eq_refl Hshort)
    as (w' & E & Hep & _ & Hlegal & _ & Hvalid).
  exists w'. split; [exact E|]. split; [exact Hep|]. split; [exact Hlegal|].
  apply Hvalid; discriminate.
Defined.

(** ** Every shuffle can be undone by the player *)

Lemma board_lookup w w' i t :
  board w = board w' → tiles (pz w) !! i = Some t →
  ∃ t', tiles (pz w') !! i = Some t' ∧ logical t' = logical t.
Proof.
  unfold board. intros [= _ _ Hl] Ht.
  assert (logical <$> tiles (pz w') !! i = Some (logical t)) as H.
  { by rewrite <- list_lookup_fmap, <- Hl, list_lookup_fmap, Ht. }
  destruct (tiles (pz w') !! i) as [t'|]; simpl in H; [|discriminate H].
  exists t'. split; [done|]. unfold logical in *. congruence.
Qed.

(** The primitive reads the board only. *)
Lemma moveTile_apply_cong i w w' w1 :
  board w = board w' → moveTile_apply i w = Some w1 →
  ∃ w1', moveTile_apply i w' = Some w1' ∧ board w1' = board w1.
Proof.
  intros Hb H.
  destruct (moveTile_apply_Some _ _ _ H)
    as (t & g1 & g2 & Ht & E1 & E2 & _ & _ & Hg & Hep & Hts & _).
  destruct (board_lookup w w' i t Hb Ht) as (t' & Ht' & Hl).
  unfold board in Hb. injection Hb as Hgd Hemp Hlog.
  unfold logical in Hl. injection Hl as Hid Hrow Hcol.
  unfold moveTile_apply. rewrite Ht'. cbn [mbind option_bind].
  rewrite <- Hgd, <- Hemp, Hrow, Hcol, Hid, E1. cbn [mbind option_bind].
  rewrite E2. cbn [mbind option_bind]. eexists. split; [reflexivity|].
  unfold board. simpl. by rewrite Hg, Hep, Hts, !list_fmap_insert, Hlog.
Qed.

Lemma moveTile_settled_flags isPlayerMove w w' k :
  moveTile_settled isPlayerMove w = Some (w', k) →
  isAnimating (pz w') = false ∧ isShuffling (pz w') = isShuffling (pz w).
Proof.
  unfold moveTile_settled.
  destruct isPlayerMove; [|by intros; simplify_eq/=].
  destruct (_ && _); [by intros; simplify_eq/=|].
  unfold checkWinCondition, onPuzzleSolved. simpl.
  destruct (RECIPE_MODE (cfg w)), (currentRecipe (gs w)); simpl;
    try destruct (recipe_solved _ _); simpl;
    try (destruct (legacy_solved _ _) as [[]|]; simpl);
    by intros; simplify_eq/=.
Qed.

Lemma idle_true p :
  idle p = true ↔ isAnimating p = false ∧ isShuffling p = false
                  ∧ isWon p = false ∧ hasFailed p = false.
Proof.
  unfold idle. destruct (isAnimating p), (isShuffling p), (isWon p), (hasFailed p);
    simpl; (split; [intros ?; by split_and!|by intros (?&?&?&?)]).
Qed.

(** The click that takes back a move of the shuffle: [wa] is the world the
    shuffle moved tile [i] in, [w] a world with the board that move gave. *)
Lemma click_back wa i t wb w r :
  Inv wa → tiles (pz wa) !! i = Some t → canTileMove t (pz wa) = true →
  moveTile_apply i wa = Some wb →
  reachable w → board w = board wb → cfg w = cfg wa →
  currentRecipe (gs w) = Some r →
  idle (pz w) = true → (moveCount (pz w) + 1 < MAX_MOVES (cfg w))%Z →
  ∃ w', onTileClick i w = Some w' ∧ reachable w'
    ∧ board w' = board wa ∧ cfg w' = cfg w
    ∧ currentRecipe (gs w') = Some r
    ∧ moveCount (pz w') = (moveCount (pz w) + 1)%Z
    ∧ isAnimating (pz w') = false ∧ isShuffling (pz w') = false
    ∧ hasFailed (pz w') = false
    ∧ isWon (pz w') = recipe_solved (gridData (pz wa)) (sequence r).
Proof.
  intros HIa Ht Hcan Hwb Hw Hb Hc Hcur Hidle Hcount.
  pose proof (reachable_Inv _ Hw) as HI.
  apply idle_true in Hidle as (Han & Hsh & Hwon & Hf).
  destruct (moveTile_apply_twice wa i t HIa Ht)
    as (wb' & w2 & Hwb' & Hw2 & HIb & _ & Hcanb & Hb2).
  assert (wb' = wb) as -> by congruence.
  assert (tile_can_move (pz w) i = true) as Hcanw.
  { rewrite <- Hcan, <- Hcanb. unfold board in Hb. injection Hb as _ Hep Hl.
    by apply tile_can_move_logical. }
  unfold tile_can_move in Hcanw.
  destruct (tiles (pz w) !! i) as [t'|] eqn:Ht'; [|done].
  destruct (moveTile_player_Inv w i t' HI Ht')
    as (w' & E & HI' & Hc' & _ & Hcur' & Hm' & _ & Hok).
  destruct Hok as (Hf' & _ & r' & Hr' & Hwon'); [by left|].
  assert (r' = r) as -> by congruence.
  destruct (moveTile_Some _ _ _ _ E) as (w1 & k & Ha & Hs).
  destruct (moveTile_settled_board _ _ _ _ Hs) as (Hg1 & Hts1 & Hep1).
  destruct (moveTile_settled_flags _ _ _ _ Hs) as (Han1 & Hsh1).
  destruct (moveTile_apply_cong i wb w w2 (eq_sym Hb) Hw2) as (w1' & Ha' & Hb1).
  assert (w1' = w1) as -> by congruence.
  destruct (moveTile_apply_Some _ _ _ Ha) as (_ & _ & _ & _ & _ & _ & _ & _ & _
    & _ & _ & _ & _ & Hsh1' & _).
  assert (board w' = board wa) as Hb'.
  { rewrite <- Hb2, <- Hb1. unfold board. by rewrite Hg1, Hts1, Hep1. }
  exists w'. split.
  { unfold onTileClick. rewrite Han, Hsh, Hwon, Hf, Ht'. simpl.
    by rewrite Hcanw. }
  split; [eapply moveTile_reachable; [done| |done]; unfold tile_can_move;
          by rewrite Ht', Hcanw|].
  split_and!; try done; try congruence.
  rewrite Hwon', Hwon. simpl. unfold board in Hb'. by injection Hb' as -> _ _.
Qed.

Lemma play_app clicks1 clicks2 w :
  play (clicks1 ++ clicks2) w = play clicks1 w ≫= play clicks2.
Proof.
  unfold play. rewrite foldl_app.
  destruct (foldl _ (Some w) clicks1) as [w1|]; [done|]. simpl.
  induction clicks2; simpl; auto.
Qed.

Lemma onTileClick_won i w : isWon (pz w) = true → onTileClick i w = Some w.
Proof.
  intros H. apply onTileClick_ignored. unfold idle. rewrite H.
  by destruct (isAnimating (pz w)), (isShuffling (pz w)).
Qed.

(** The walk taken back: clicking the tiles the walk moved, last one first,
    wins on the way or leads to the board the walk started from. *)
Lemma shuffleWalk_back o n c lastMovedTile wa steps wEnd w r :
  reachable wa → shuffleWalk o n c lastMovedTile wa = Some (steps, wEnd) →
  reachable w → board w = board wEnd → cfg w = cfg wa →
  currentRecipe (gs w) = Some r → idle (pz w) = true →
  (moveCount (pz w) + Z.of_nat n < MAX_MOVES (cfg w))%Z →
  ∃ clicks w', length clicks = n ∧ play clicks w = Some w' ∧ reachable w'
    ∧ cfg w' = cfg w ∧ currentRecipe (gs w') = Some r
    ∧ hasFailed (pz w') = false
    ∧ (moveCount (pz w') ≤ moveCount (pz w) + Z.of_nat n)%Z
    ∧ (isWon (pz w') = true
       ∨ (idle (pz w') = true ∧ board w' = board wa
          ∧ moveCount (pz w') = (moveCount (pz w) + Z.of_nat n)%Z
          ∧ (0 < n → recipe_solved (gridData (pz wa)) (sequence r) = false))).
Proof.
  revert c lastMovedTile wa steps.
  induction n as [|n IH]; intros c l wa steps Hwa Hwalk Hw Hb Hc Hcur Hidle Hcount.
  - simpl in Hwalk. injection Hwalk as _ <-. exists [], w.
    pose proof (proj1 (idle_true _) Hidle) as (_ & _ & _ & Hf).
    do 6 (split; [done|]). split; [lia|]. right.
    do 2 (split; [done|]). split; lia.
  - simpl in Hwalk.
    destruct (makeShuffleMove_step_moves (walk_draw o c) l wa Hwa)
      as (w1 & i & E & Hi & Hmv).
    rewrite E in Hwalk. simpl in Hwalk.
    destruct (shuffleWalk o n (S c) (Some i) w1) as [[steps' wEnd']|] eqn:E';
      simpl in Hwalk; [|done].
    injection Hwalk as _ <-.
    assert (reachable w1) as Hw1
      by apply (moveTile_reachable wa i false w1 Hwa Hi Hmv).
    destruct (moveTile_shuffle_fields _ _ _ Hmv) as (Hc1 & _).
    destruct (IH _ _ _ _ Hw1 E' Hw Hb) as
      (clicks & w' & Hlen & Hplay & Hw' & Hc' & Hcur' & Hf' & Hle & Hor);
      [congruence|done|done|lia|].
    exists (clicks ++ [i]).
    destruct Hor as [Hwon|(Hidle' & Hb' & Hm' & _)].
    + exists w'. rewrite play_app, Hplay. simpl.
      unfold play. simpl. rewrite onTileClick_won by done. simpl.
      rewrite length_app, Hlen. simpl.
      split_and!; try done; [lia|lia|by left].
    + rewrite moveTile_shuffle_eq in Hmv.
      destruct (moveTile_apply i wa) as [wb|] eqn:Hwb; [|done].
      simpl in Hmv. injection Hmv as <-.
      unfold tile_can_move in Hi.
      destruct (tiles (pz wa) !! i) as [t|] eqn:Ht; [|done].
      destruct (click_back wa i t wb w' r (reachable_Inv _ Hwa) Ht Hi Hwb Hw')
        as (w'' & Hclick & Hw'' & Hb'' & Hc'' & Hcur'' & Hm'' & Han'' & Hsh''
            & Hf'' & Hwon''); [exact Hb'|congruence|done|done|rewrite Hc'; lia|].
      exists w''. rewrite play_app, Hplay. simpl. unfold play at 1. simpl.
      rewrite Hclick. simpl. rewrite length_app. simpl.
      split_and!; try done; try congruence; try lia.
      destruct (recipe_solved (gridData (pz wa)) (sequence r)) eqn:Hsolved;
        [by left|right].
      split_and!; try done; [|lia].
      apply idle_true. by split_and!.
Qed.

Lemma recipe_solved_solvedGrid (recipeSequence : list Z) n :
  length recipeSequence ≤ n * n →
  recipe_solved (solvedGrid recipeSequence n n) recipeSequence = true.
Proof.
  intros Hlen. apply recipe_solved_spec.
  rewrite solvedGrid_flat, solved_cells by done. by rewrite take_app_length.
Qed.

(** The shuffle starts from a board the win check accepts. *)
Lemma shuffle_start_solved w r :
  reachable w → currentRecipe (gs w) = Some r →
  ∃ w0, shuffle_start w = Some w0 ∧ reachable w0
    ∧ recipe_solved (gridData (pz w0)) (sequence r) = true
    ∧ cfg w0 = cfg w ∧ gs w0 = gs w
    ∧ moveCount (pz w0) = moveCount (pz w)
    ∧ isWon (pz w0) = isWon (pz w) ∧ hasFailed (pz w0) = hasFailed (pz w).
Proof.
  intros Hw Hcur. pose proof (reachable_Inv _ Hw) as HI.
  assert (Inv (with_pz (set_isShuffling true) w)) as HI0 by inv_ext HI.
  destruct (resetGridToSolved_Inv _ HI0)
    as (w0 & E0 & _ & Hc0 & Hg0 & Hm0 & _ & _ & Hwon0 & Hf0).
  destruct (inv_recipe _ HI) as (r0 & Hr & Hcur0 & Hids & _).
  assert (r0 = r) as -> by congruence.
  destruct (catalogue_sequence r Hr) as (_ & Hnz & Hlen).
  destruct (resetGridToSolved_layout (sequence r) 3
              (with_pz (set_isShuffling true) w) r)
    as (w0' & E0' & _ & _ & _ & Hgrid & _);
    [apply (inv_mode _ HI)|done|done|apply (inv_size _ HI)|simpl; lia|done
    |apply (inv_rows _ HI)|apply (inv_cols _ HI)| |].
  { simpl. rewrite <- Hids. apply list.Forall_forall. intros t Ht.
    by apply list_elem_of_fmap_2. }
  assert (w0' = w0) as -> by congruence.
  exists w0. unfold shuffle_start. split; [done|].
  split; [by eapply reach_shuffle_start|].
  split; [|by split_and!].
  rewrite Hgrid. apply recipe_solved_solvedGrid. simpl. lia.
Qed.

Lemma Inv_max_moves w : Inv w → (20 < MAX_MOVES (cfg w))%Z.
Proof.
  intros HI. destruct (inv_recipe _ HI) as (r & Hr & _ & _ & _ & _ & ->).
  catalogue Hr; simpl; lia.
Qed.

Lemma performAnimatedShuffle_solvable o w :
  reachable w → isWon (pz w) = false → hasFailed (pz w) = false →
  moveCount (pz w) = 0%Z →
  ∃ w1 clicks w2, performAnimatedShuffle o w = Some w1
    ∧ length clicks = 20 ∧ play clicks w1 = Some w2
    ∧ isWon (pz w2) = true ∧ hasFailed (pz w2) = false
    ∧ (moveCount (pz w2) ≤ 20)%Z.
Proof.
  intros Hw Hwon Hf Hm. pose proof (reachable_Inv _ Hw) as HI.
  destruct (inv_recipe _ HI) as (r & Hr & Hcur & _).
  destruct (shuffle_start_solved w r Hw Hcur)
    as (w0 & E0 & Hw0 & Hsolved & Hc0 & Hg0 & Hm0 & Hwon0 & Hf0).
  unfold performAnimatedShuffle. rewrite E0. simpl.
  rewrite makeShuffleMove_walk.
  destruct (reachable_config _ Hw0) as (Hcount & _). rewrite Hcount.
  destruct (shuffleWalk_total o 20 0 None w0 Hw0) as (steps & wEnd & E & _ & _).
  rewrite E. simpl.
  destruct (shuffleWalk_fields _ _ _ _ _ _ _ Hw0 E)
    as (HwE & HcE & HgE & HmE & HwonE & HfE & HshE & HanE & _).
  destruct (shuffle_finish_fields o wEnd (reachable_tiles _ HwE))
    as (Hsh1 & Hc1 & Hg1 & Hm1 & Hwon1 & Hf1 & Han1 & Hb1 & _).
  set (w1 := shuffle_finish o wEnd) in *.
  assert (reachable w1) as Hw1 by (by apply shuffle_finish_reachable).
  destruct (shuffleWalk_back o 20 0 None w0 steps wEnd w1 r Hw0 E Hw1 Hb1)
    as (clicks & w2 & Hlen & Hplay & _ & _ & _ & Hf2 & Hle & Hor).
  - congruence.
  - congruence.
  - apply idle_true. split_and!; try congruence. rewrite Han1. apply HanE. lia.
  - pose proof (Inv_max_moves _ (reachable_Inv _ Hw1)). lia.
  - exists w1, clicks, w2. split; [done|]. split; [done|]. split; [done|].
    destruct Hor as [Hwon2|(_ & _ & _ & Hnot)].
    + split; [done|]. split; [done|]. lia.
    + rewrite Hsolved in Hnot. discriminate Hnot. lia.
Qed.

(** X25: Every shuffle leaves a puzzle that can be won: after [create], and after
    a reset from any reachable world, there are twenty clicks (the tiles the
    shuffle moved, last one first) that complete the recipe, and the session
    does not fail on the way. *)
Theorem shuffle_solvable :
  (∀ o, ∃ w1 clicks w2, create o = Some w1
     ∧ length clicks = 20 ∧ play clicks w1 = Some w2
     ∧ isWon (pz w2) = true ∧ hasFailed (pz w2) = false
     ∧ (moveCount (pz w2) ≤ 20)%Z)
  ∧ (∀ o w, reachable w →
     ∃ w1 clicks w2, resetPuzzle o w = Some w1
       ∧ length clicks = 20 ∧ play clicks w1 = Some w2
       ∧ isWon (pz w2) = true ∧ hasFailed (pz w2) = false
       ∧ (moveCount (pz w2) ≤ 20)%Z).
Proof.
  split.
  - intros o. unfold create. destruct create_setup_Some as [w0 E]. rewrite E.
    simpl. destruct (createGrid_frame 3 _ _ E) as (_ & _ & _ & _ & Hm & Hwon & Hf).
    apply performAnimatedShuffle_solvable; [by apply reach_create|done..].
  - intros o w Hw. unfold resetPuzzle.
    apply performAnimatedShuffle_solvable; [by apply reach_reset_fields|done..].
Qed.

Lemma shuffle_solvable_witness :
  ∃ w1 clicks w2, create sampleOracle = Some w1
    ∧ length clicks = 20 ∧ play clicks w1 = Some w2
    ∧ isWon (pz w2) = true ∧ hasFailed (pz w2) = false
    ∧ (moveCount (pz w2) ≤ 20)%Z.
Proof.
  destruct shuffle_solvable as [H _]. exact (H sampleOracle).
Defined.

(** ** The rating and the record of a win *)

(** X26: More moves never give a better rating: for one threshold, whatever its
    sign, the rating falls, from three stars to the skull, as the move
    count grows. At most [optimal] moves give three stars and more than
    twice [optimal], for a positive [optimal], the skull. *)
Theorem calculateRating_monotone (w w' : World) :
  OPTIMAL_MOVES (cfg w') = OPTIMAL_MOVES (cfg w) →
  (moveCount (pz w) ≤ moveCount (pz w'))%Z →
  stars (calculateRating w') ≤ stars (calculateRating w)
  ∧ (stars (calculateRating w) = 3
     ↔ (moveCount (pz w) ≤ OPTIMAL_MOVES (cfg w))%Z)
  ∧ ((0 ≤ OPTIMAL_MOVES (cfg w))%Z →
     (stars (calculateRating w) = 0
      ↔ (2 * OPTIMAL_MOVES (cfg w) < moveCount (pz w))%Z)).
Proof.
  intros Hopt Hle. rewrite !calculateRating_cases, Hopt.
  pose proof (round53_le (OPTIMAL_MOVES (cfg w))) as Hround.
  repeat (match goal with
          | |- context [(?a <=? ?b)%Z] => destruct (Z.leb_spec a b)
          end); simpl; split_and!; try lia;
    (split; intros; first [lia | done | discriminate]) ||
    (intros; split; intros; first [lia | done | discriminate]).
Qed.

Lemma calculateRating_monotone_witness :
  stars (calculateRating (ratedAt garden_delight 31 initialWorld))
  ≤ stars (calculateRating (ratedAt garden_delight 30 initialWorld)).
Proof.
  apply (calculateRating_monotone (ratedAt garden_delight 30 initialWorld)
           (ratedAt garden_delight 31 initialWorld)); [reflexivity|].
  simpl. lia.
Defined.

Lemma moveTile_length i isPlayerMove w w' :
  moveTile i isPlayerMove w = Some w' →
  length (tiles (pz w')) = length (tiles (pz w)).
Proof.
  intros H. destruct (moveTile_Some _ _ _ _ H) as (w1 & k & Ha & Hs).
  destruct (moveTile_settled_board _ _ _ _ Hs) as (_ & -> & _).
  destruct (moveTile_apply_Some _ _ _ Ha)
    as (t & g1 & g2 & _ & _ & _ & _ & _ & _ & _ & -> & _).
  apply length_insert.
Qed.

Lemma onTileClick_total w i :
  reachable w → i < length (tiles (pz w)) →
  ∃ w', onTileClick i w = Some w' ∧ reachable w'
    ∧ length (tiles (pz w')) = length (tiles (pz w))
    ∧ (moveCount (pz w) ≤ moveCount (pz w') ≤ moveCount (pz w) + 1)%Z
    ∧ cfg w' = cfg w.
Proof.
  intros Hw Hi.
  destruct (onTileClick i w) as [w'|] eqn:E.
  - exists w'. split; [done|]. split; [by eapply onTileClick_reachable|].
    unfold onTileClick in E.
    destruct (isAnimating (pz w) || isShuffling (pz w) || isWon (pz w)
              || hasFailed (pz w)); [injection E as <-; split_and!; (done || lia)|].
    destruct (tiles (pz w) !! i) as [t|] eqn:Ht; simpl in E; [|done].
    destruct (canTileMove t (pz w)); simpl in E;
      [|injection E as <-; split_and!; (done || lia)].
    destruct (moveTile_player_Inv w i t (reachable_Inv _ Hw) Ht)
      as (w'' & E' & _ & Hc & _ & _ & Hm & _).
    assert (w'' = w') as -> by congruence.
    split; [by eapply moveTile_length|]. split; [lia|done].
  - exfalso. unfold onTileClick in E.
    destruct (isAnimating (pz w) || isShuffling (pz w) || isWon (pz w)
              || hasFailed (pz w)); [done|].
    destruct (lookup_lt_is_Some_2 _ _ Hi) as [t Ht]. rewrite Ht in E. simpl in E.
    destruct (canTileMove t (pz w)); simpl in E; [|done].
    destruct (moveTile_player_Inv w i t (reachable_Inv _ Hw) Ht)
      as (w'' & E' & _). congruence.
Qed.

(** X27: Clicks never throw: on a reachable board any sequence of clicks on
    tiles of the board returns. Each click counts one move or none, the
    tiles stay as many, and while the scene is not idle (a tween or the
    shuffle runs, or the session is won or failed) the clicks change
    nothing at all. *)
Theorem play_total (clicks : list nat) (w : World) :
  reachable w → Forall (λ i, i < length (tiles (pz w))) clicks →
  ∃ w', play clicks w = Some w' ∧ reachable w'
    ∧ length (tiles (pz w')) = length (tiles (pz w))
    ∧ (moveCount (pz w) ≤ moveCount (pz w')
       ≤ moveCount (pz w) + Z.of_nat (length clicks))%Z
    ∧ cfg w' = cfg w
    ∧ (idle (pz w) = false → w' = w).
Proof.
  revert w. induction clicks as [|i clicks IH]; intros w Hw Hall.
  - exists w. simpl. split_and!; try done; lia.
  - inversion_clear Hall as [|? ? Hi Hrest].
    destruct (onTileClick_total w i Hw Hi) as (w1 & E1 & Hw1 & Hl1 & Hm1 & Hc1).
    destruct (IH w1 Hw1) as (w' & E & Hw' & Hl & Hm & Hc & _);
      [by rewrite Hl1|].
    exists w'. split.
    { unfold play in *. simpl. by rewrite E1. }
    split; [done|]. split; [congruence|]. split; [simpl length; lia|].
    split; [congruence|].
    intros Hidle. pose proof (play_not_idle (i :: clicks) w Hidle) as Hp.
    unfold play in *. simpl in Hp. rewrite E1 in Hp. simpl in Hp. congruence.
Qed.

Lemma play_total_witness :
  ∃ w', play [2; 0; 3; 1] gardenFailed = Some w' ∧ w' = gardenFailed.
Proof.
  assert (length (tiles (pz gardenFailed)) = 5) as Hlen by (by vm_compute).
  assert (Forall (λ i, i < length (tiles (pz gardenFailed))) [2; 0; 3; 1]) as Hall.
  { rewrite Hlen. repeat (apply Forall_cons_2; [lia|]). apply Forall_nil_2. }
  destruct (play_total [2; 0; 3; 1] gardenFailed gardenFailed_reachable Hall)
    as (w' & E & _ & _ & _ & _ & Hsame).
  exists w'. split; [exact E|]. apply Hsame. by vm_compute.
Defined.

(** X28: A win is recorded below the move budget, the winning move included: when
    a click on an idle reachable board wins, the count after the move is
    still under [MAX_MOVES], the board passes the win check, the rating is
    that of the count after the move, and [GameState] is updated by
    [onPuzzleComplete] with that count. *)
Theorem winning_click_record (w : World) (i : nat) (r : Recipe) (w' : World) :
  reachable w → idle (pz w) = true → currentRecipe (gs w) = Some r →
  onTileClick i w = Some w' → isWon (pz w') = true →
  moveCount (pz w') = (moveCount (pz w) + 1)%Z
  ∧ (moveCount (pz w') < MAX_MOVES (cfg w))%Z
  ∧ recipe_solved (gridData (pz w')) (sequence r) = true
  ∧ hasFailed (pz w') = false
  ∧ gs w' = onPuzzleComplete r (moveCount (pz w') ) (calculateRating w') (gs w)
  ∧ totalMoves (gs w') = (totalMoves (gs w) + moveCount (pz w) + 1)%Z
  ∧ puzzlesCompleted (gs w') = (puzzlesCompleted (gs w) + 1)%Z
  ∧ lastResult (gs w') = Some win.
Proof.
  intros Hw Hidle Hcur E Hwon'.
  apply idle_true in Hidle as (Han & Hsh & Hwon & Hf).
  unfold onTileClick in E. rewrite Han, Hsh, Hwon, Hf in E. simpl in E.
  destruct (tiles (pz w) !! i) as [t|] eqn:Ht; simpl in E; [|done].
  destruct (canTileMove t (pz w)); simpl in E; [|injection E as <-; congruence].
  pose proof (reachable_Inv _ Hw) as HI.
  destruct (moveTile_apply_Inv w i t HI Ht)
    as (w1 & Hw1 & HI1 & Hc1 & Hg1 & _ & _ & _ & _ & _ & Hm1 & _ & Hwon1 & Hf1).
  unfold moveTile in E. rewrite Hw1 in E. cbn [mbind option_bind] in E.
  unfold moveTile_settled in E.
  set (w2 := with_pz (λ p, set_moveCount (moveCount p + 1)%Z p)
               (with_pz (set_isAnimating false) w1)) in *.
  assert (Inv w2) as HI2 by inv_ext HI1.
  destruct (bool_decide (MAX_MOVES (cfg w2) ≤ moveCount (pz w2))%Z
            && negb (isWon (pz w2))) eqn:Hfail.
  { simpl in E. injection E as <-. simpl in Hwon'. congruence. }
  apply andb_false_iff in Hfail.
  assert (moveCount (pz w2) < MAX_MOVES (cfg w2))%Z as Hbudget.
  { destruct Hfail as [Hfail|Hfail].
    - apply bool_decide_eq_false in Hfail. lia.
    - simpl in Hfail. rewrite Hwon1, Hwon in Hfail. done. }
  destruct (checkWinCondition_Inv w2 r HI2) as (w3 & E3 & _ & Hc3 & Hp3 & Hg3).
  { simpl. by rewrite Hg1. }
  rewrite E3 in E. simpl in E. injection E as <-.
  destruct (recipe_solved (gridData (pz w2)) (sequence r)) eqn:Hsolved.
  2:{ rewrite Hp3 in Hwon'. simpl in Hwon'. congruence. }
  assert (calculateRating w3 = calculateRating w2) as Hrate.
  { unfold calculateRating. by rewrite Hc3, Hp3. }
  rewrite Hp3, Hg3, Hrate. simpl in *.
  rewrite Hm1, Hf1, Hg1, <- Hc1. split_and!; try done; try lia.
Qed.

Lemma leafyOneOff_reachable : reachable leafyOneOff.
Proof.
  apply (moveTile_reachable leafyStart 2 false); [apply leafyStart_reachable| |];
    by vm_compute.
Qed.

Lemma winning_click_record_witness :
  ∃ w', onTileClick 2 leafyOneOff = Some w'
        ∧ moveCount (pz w') = 1%Z ∧ lastResult (gs w') = Some win.
Proof.
  assert (∃ w', onTileClick 2 leafyOneOff = Some w' ∧ isWon (pz w') = true)
    as (w' & E & Hwon).
  { eexists. split; vm_compute; reflexivity. }
  destruct (winning_click_record leafyOneOff 2 leafy_stack w'
              leafyOneOff_reachable eq_refl eq_refl E Hwon)
    as (Hm & _ & _ & _ & _ & _ & _ & Hres).
  exists w'. split; [exact E|]. split; [exact Hm|exact Hres].
Defined.

(** ** Labels and colours *)

Lemma js_index_is_Some {A : Type} (a : list A) (i : Z) :
  is_Some (js_index a i) ↔ (0 ≤ i < Z.of_nat (length a))%Z.
Proof.
  unfold js_index. case_decide as Hi.
  - rewrite lookup_lt_is_Some. lia.
  - split; [by intros [? ?]|lia].
Qed.

Lemma catalogue_ids r v : r ∈ RECIPES → v ∈ sequence r → (1 ≤ v ≤ 8)%Z.
Proof.
  intros Hr Hv. catalogue Hr; simpl in Hv;
    repeat (apply elem_of_cons in Hv as [->|Hv]; [lia|]);
    by apply elem_of_nil in Hv.
Qed.

(** X29: [INGREDIENTS] and [TILE_COLORS] cover the ids 1 to 8 and no other
    number: [createTile] finds a label and a colour exactly for those. Every
    tile of a reachable world has both, and the ingredient list
    [createRecipeUI] shows for the current recipe has no [undefined] entry. *)
Theorem tile_labels_defined :
  (∀ v, is_Some (tileLabel v) ↔ (1 ≤ v ≤ 8)%Z)
  ∧ (∀ v, is_Some (tileColor v) ↔ (1 ≤ v ≤ 8)%Z)
  ∧ ∀ w, reachable w →
      Forall (λ t, is_Some (tileLabel (tile_id t))
                   ∧ is_Some (tileColor (tile_id t))) (tiles (pz w))
      ∧ ∃ r, currentRecipe (gs w) = Some r
             ∧ Forall is_Some (ingredientList r).
Proof.
  assert (∀ v, is_Some (tileLabel v) ↔ (1 ≤ v ≤ 8)%Z) as Hlabel.
  { intros v. unfold tileLabel. rewrite js_index_is_Some. simpl. lia. }
  assert (∀ v, is_Some (tileColor v) ↔ (1 ≤ v ≤ 8)%Z) as Hcolor.
  { intros v. unfold tileColor, js_index. case_decide as Hv.
    - destruct (decide (v ≤ 8)%Z) as [Hle|Hgt].
      + assert (v = 0 ∨ v = 1 ∨ v = 2 ∨ v = 3 ∨ v = 4 ∨ v = 5 ∨ v = 6 ∨ v = 7
                ∨ v = 8)%Z as Hcases by lia.
        destruct Hcases as [->|[->|[->|[->|[->|[->|[->|[->| ->]]]]]]]]; simpl;
          (split; [intros [? ?]; (done || lia)|intros ?; (lia || by eexists)]).
      + rewrite lookup_ge_None_2 by (simpl; lia). simpl.
        split; [by intros [? ?]|lia].
    - split; [by intros [? ?]|lia]. }
  split; [done|]. split; [done|]. intros w Hw.
  destruct (inv_recipe _ (reachable_Inv _ Hw)) as (r & Hr & Hcur & Hids & _).
  split.
  - apply list.Forall_forall. intros t Ht.
    assert (1 ≤ tile_id t ≤ 8)%Z as Hid.
    { apply (catalogue_ids r _ Hr). rewrite <- Hids. by apply list_elem_of_fmap_2. }
    split; [by apply Hlabel|by apply Hcolor].
  - exists r. split; [done|]. unfold ingredientList.
    apply Forall_fmap, list.Forall_forall. intros v Hv. simpl.
    apply (Hlabel v). by apply (catalogue_ids r).
Qed.

Lemma tile_labels_defined_witness :
  ingredientList leafy_stack
  = [Some "Bread Top"; Some "Lettuce"; Some "Tomato"; Some "Bread Bottom"]%string
  ∧ ¬ is_Some (tileLabel 9).
Proof.
  split; [reflexivity|].
  destruct tile_labels_defined as (Hlabel & _). intros H.
  apply Hlabel in H. lia.
Defined.

(** ** The empty-cell search *)

(** X30: What the search of the empty position returns on a grid that has its
    rows: without a 0 in the grid, [emptyPos] as it was before the search;
    with one, the rightmost 0 of the topmost row that holds a 0, since the
    [break] leaves the inner loop only and the rows above overwrite a hit. *)
Theorem findEmptyPosition_spec (g : list jsarray) (n : nat) (ep : nat * nat) :
  (∀ r, r < n → is_Some (g !! r)) →
  ((∀ r c, r < n → c < n → grid_read g r c ≠ Some (Some 0%Z)) →
   findEmptyPosition g n ep = Some ep)
  ∧ (∀ r c, r < n → c < n → grid_read g r c = Some (Some 0%Z) →
       (∀ c', c < c' < n → grid_read g r c' ≠ Some (Some 0%Z)) →
       (∀ r' c', r' < r → c' < n → grid_read g r' c' ≠ Some (Some 0%Z)) →
       findEmptyPosition g n ep = Some (r, c)).
Proof.
  intros Hrows. unfold findEmptyPosition. split.
  - intros Hno. apply scan_empty_rows_miss. intros r Hr.
    destruct (Hrows r Hr) as [rowArr Hrow]. exists rowArr. split; [done|].
    intros c Hc Hz. apply (Hno r c Hr Hc). unfold grid_read.
    rewrite Hrow. simpl. by rewrite Hz.
  - intros r c Hr Hc Hz Hright Habove.
    destruct (Hrows r Hr) as [rowArr Hrow].
    unfold grid_read in Hz. rewrite Hrow in Hz. simpl in Hz. injection Hz as Hz.
    apply (scan_empty_rows_topmost g n n ep r rowArr c); try done.
    + intros c' Hc' Hz'. apply (Hright c' Hc'). unfold grid_read.
      rewrite Hrow. simpl. by rewrite Hz'.
    + intros r' rowArr' c' Hr' Hrow' Hc' Hz'. apply (Habove r' c' Hr' Hc').
      unfold grid_read. rewrite Hrow'. simpl. by rewrite Hz'.
Qed.

Lemma findEmptyPosition_spec_witness :
  findEmptyPosition
    [[Some 1; Some 2; Some 3]; [Some 8; Some 0; Some 0]; [Some 0; Some 0; Some 0]]%Z
    3 (2, 2) = Some (1, 2)
  ∧ findEmptyPosition
      [[Some 1; Some 2; Some 3]; [Some 4; Some 5; Some 6]; [Some 7; Some 8; Some 9]]%Z
      3 (2, 2) = Some (2, 2).
Proof.
  assert (∀ g : list jsarray, length g = 3 → ∀ r, r < 3 → is_Some (g !! r))
    as Hrows by (intros g Hg r Hr; apply lookup_lt_is_Some; lia).
  split.
  - destruct (findEmptyPosition_spec
                [[Some 1; Some 2; Some 3]; [Some 8; Some 0; Some 0];
                 [Some 0; Some 0; Some 0]]%Z 3 (2, 2)
                (Hrows [[Some 1; Some 2; Some 3]; [Some 8; Some 0; Some 0];
                        [Some 0; Some 0; Some 0]]%Z eq_refl))
      as [_ H].
    apply (H 1 2); [lia|lia|reflexivity| |].
    + intros c' Hc'. lia.
    + intros r' c' Hr' Hc'. assert (r' = 0) as -> by lia.
      destruct c' as [|[|[|]]]; try lia; discriminate.
  - destruct (findEmptyPosition_spec
                [[Some 1; Some 2; Some 3]; [Some 4; Some 5; Some 6];
                 [Some 7; Some 8; Some 9]]%Z 3 (2, 2)
                (Hrows [[Some 1; Some 2; Some 3]; [Some 4; Some 5; Some 6];
                        [Some 7; Some 8; Some 9]]%Z eq_refl))
      as [H _].
    apply H. intros r c Hr Hc.
    destruct r as [|[|[|]]]; try lia; destruct c as [|[|[|]]]; try lia;
      discriminate.
Defined.
